(** * Worker pool demo: the task model and the optimized worker

    A shallow embedding of two Go packages of the repository:

    - [task]   (worker/internal/task/task.go): [Task], [Result] and
      [Task.Process];
    - [worker] (the optimized worker): [OptimizedWorker] with [Start],
      [worker], [helperTask], [monitor], [collectMetrics], [ProcessTasks],
      [GetResults] and [Stop].

    Go's [int] is taken at its 64-bit width (amd64 and arm64): arithmetic
    on it wraps around in two's complement. *)

From Stdlib Require Import ZArith DecimalString Ascii.
From stdpp Require Import base list strings.

Local Open Scope Z_scope.

(** ** Package task *)

Module task.

(** Two's complement wrap-around of a Go [int]. *)
Definition int_bits : Z := 64.

Definition wrap (z : Z) : Z :=
  (z + 2 ^ (int_bits - 1)) mod 2 ^ int_bits - 2 ^ (int_bits - 1).

(** [type OperationType int], with the four constants of the [iota]
    block.  Any other [int] is a tag the code can receive as well. *)
Definition OperationType : Type := Z.

Definition OperationSum : OperationType := 0.
Definition OperationMultiply : OperationType := 1.
Definition OperationSquare : OperationType := 2.
Definition OperationFilter : OperationType := 3.

Record Task : Type := mkTask {
  ID : Z;
  Data : list Z;
  Operation : OperationType
}.

(** [Value interface{}] holds [nil], an [int] or an [[]int]. *)
Inductive value : Type :=
| Nil
| Int (n : Z)
| Ints (l : list Z).

Record Result : Type := mkResult {
  TaskID : Z;
  Value : value;
  Info : string
}.

(** The verb [%d] of [fmt.Sprintf] at a length (never negative). *)
Definition fmt_d (n : nat) : string :=
  NilZero.string_of_uint (Nat.to_uint n).

(** The four loops of [Process], each a left-to-right pass over
    [t.Data] with the accumulator of the source. *)
Definition sum_loop (data : list Z) : Z :=
  fold_left (fun sum v => wrap (sum + v)) data 0.

Definition product_loop (data : list Z) : Z :=
  fold_left (fun product v => wrap (product * v)) data 1.

Definition squares_loop (data : list Z) : list Z :=
  map (fun v => wrap (v * v)) data.

Definition filter_loop (data : list Z) : list Z :=
  fold_left
    (fun filtered v => if Z.rem v 2 =? 0 then filtered ++ [v] else filtered)
    data [].

Definition Process (t : Task) : Result :=
  let n := length (Data t) in
  let '(v, info) :=
    if Operation t =? OperationSum then
      (Int (sum_loop (Data t)),
       "Sum of " +:+ fmt_d n +:+ " numbers")
    else if Operation t =? OperationMultiply then
      (Int (product_loop (Data t)),
       "Product of " +:+ fmt_d n +:+ " numbers")
    else if Operation t =? OperationSquare then
      (Ints (squares_loop (Data t)),
       "Squared " +:+ fmt_d n +:+ " numbers")
    else if Operation t =? OperationFilter then
      let filtered := filter_loop (Data t) in
      (Ints filtered,
       "Filtered " +:+ fmt_d (length filtered) +:+ " even numbers from "
         +:+ fmt_d n)
    else
      (Nil, "Unknown operation")
  in
  {| TaskID := ID t; Value := v; Info := info |}.

(** The runtime refuses a slice of more than [maxAlloc] bytes: [2^48] on
    the 64-bit platforms with 48 address bits (linux/amd64 among them),
    where an [int] takes [int_bits / 8 = 8] bytes. *)
Definition maxAlloc : Z := 2 ^ 48.

(** [NewTask]: [make([]int, dataSize)] panics ("makeslice: len out of
    range") on a negative size and on one whose bytes exceed [maxAlloc],
    which is [None] here; entry [i] of the data is [(i*7 + id*3) % 100] in
    [int] arithmetic, with Go's truncated remainder.  Running out of memory
    below that limit is a fatal error of the machine the program runs on,
    which the model leaves out. *)
Definition NewTask (id dataSize : Z) (op : OperationType) : option Task :=
  if (dataSize <? 0) || (maxAlloc <? dataSize * (int_bits / 8)) then None
  else
    Some (mkTask id
            (map (fun i => Z.rem (wrap (wrap (i * 7) + wrap (id * 3))) 100)
               (seqZ 0 dataSize))
            op).

End task.

(** ** Package worker: the optimized worker

    The pool is shared by goroutines, so it is modelled as a machine: the
    shared fields of [OptimizedWorker], the goroutines with their program
    points, and a scheduler that runs one synchronisation step of one
    goroutine at a time.  A [select] with several ready cases may take any
    of them (Go chooses among the ready cases at random), which the
    schedule resolves with a [branch].  A goroutine at a [select] looks at
    the channels when it runs; one that Go would park and wake with the
    first case to become ready is a goroutine that runs right then, so
    every execution of the program is a run of the machine. *)

Module worker.
Import task.

(** Run-time panics of the operations the pool uses.  The wait group has
    one more, left out here: its check for misuse, which can fire when an
    [Add] that raises the counter from zero (a [Start]) runs while another
    goroutine is in [Wait] (a [Stop]).  It needs two goroutines that call
    the pool at once, so the theorem that a use of the pool never panics
    is stated for one goroutine making the calls. *)
Inductive fault : Type :=
| CloseOfClosedChannel
| SendOnClosedChannel
| NegativeWaitGroupCounter.

(** The shared fields.  [taskQueue] is the channel: its buffered items,
    its capacity and whether it was closed.  [ctxDone] is [w.ctx] (true
    once [w.cancel()] ran); [w.mu] guards single accesses to [results]
    and is the atomicity of those steps. *)
Record OptimizedWorker : Type := mkPool {
  taskQueue : list Task;
  queueCap : nat;
  queueClosed : bool;
  results : list Result;
  wg : Z;
  ctxDone : bool
}.

Definition NewOptimizedWorker (expectedTasks : nat) : OptimizedWorker :=
  {| taskQueue := []; queueCap := expectedTasks; queueClosed := false;
     results := []; wg := 0; ctxDone := false |}.

Definition set_queue (w : OptimizedWorker) (q : list Task) :=
  mkPool q (queueCap w) (queueClosed w) (results w) (wg w) (ctxDone w).
Definition set_results (w : OptimizedWorker) (r : list Result) :=
  mkPool (taskQueue w) (queueCap w) (queueClosed w) r (wg w) (ctxDone w).
Definition set_wg (w : OptimizedWorker) (c : Z) :=
  mkPool (taskQueue w) (queueCap w) (queueClosed w) (results w) c (ctxDone w).

(** [w.cancel()] and [close(w.taskQueue)] on an open channel. *)
Definition cancel (w : OptimizedWorker) :=
  mkPool (taskQueue w) (queueCap w) (queueClosed w) (results w) (wg w) true.
Definition close (w : OptimizedWorker) :=
  mkPool (taskQueue w) (queueCap w) true (results w) (wg w) (ctxDone w).

(** Program points of [worker]: at the [select]; holding a received
    task before [Process] and the locked append; before [w.wg.Add(1)];
    before [go w.helperTask(t.ID)]. *)
Inductive worker_pc : Type :=
| WSelect
| WProcess (t : Task)
| WAdd (t : Task)
| WGo (t : Task).

(** Calls a client goroutine makes on the pool. *)
Inductive call : Type :=
| CallStart (numWorkers : Z)
| CallProcessTasks (tasks : list Task)
| CallStop.

(** Program points inside [Start], [ProcessTasks] and [Stop]. *)
Inductive client_pc : Type :=
| StartAdd (i numWorkers : Z)
| StartGo (i numWorkers : Z)
| StartMonitorAdd
| StartMonitorGo
| StartMetricsAdd
| StartMetricsGo
| Sending (tasks : list Task)
| StopCancel
| StopClose
| StopWait.

(** A goroutine.  The [tick] flag of the three periodic goroutines is
    the one-slot channel [ticker.C].  [Exited] is a goroutine that
    returned. *)
Inductive thread : Type :=
| Worker (id : Z) (pc : worker_pc)
| Helper (taskID : Z) (tick : bool)
| Monitor (tick : bool)
| Metrics (tick : bool)
| Client (pc : client_pc) (rest : list call)
| Exited.

Inductive branch : Type :=
| CaseDone
| CaseQueue
| CaseTick.

Inductive outcome : Type :=
| Blocked
| Panic (f : fault)
| Next (w : OptimizedWorker) (t : thread) (spawned : list thread).

(** [for i := 0; i < numWorkers; i++]: the loop test. *)
Definition start_loop (i numWorkers : Z) : client_pc :=
  if i <? numWorkers then StartAdd i numWorkers else StartMonitorAdd.

(** The client enters its next call; [ProcessTasks] of no task returns
    at once. *)
Fixpoint next (rest : list call) : thread :=
  match rest with
  | [] => Exited
  | CallStart n :: rest' => Client (start_loop 0 n) rest'
  | CallProcessTasks [] :: rest' => next rest'
  | CallProcessTasks (t :: ts) :: rest' => Client (Sending (t :: ts)) rest'
  | CallStop :: rest' => Client StopCancel rest'
  end.

Definition sending (ts : list Task) (rest : list call) : thread :=
  match ts with
  | [] => next rest
  | _ :: _ => Client (Sending ts) rest
  end.

(** [w.wg.Add(delta)]: panics when the counter becomes negative. *)
Definition wg_Add (w : OptimizedWorker) (delta : Z)
    (k : OptimizedWorker -> outcome) : outcome :=
  let c := wg w + delta in
  if c <? 0 then Panic NegativeWaitGroupCounter else k (set_wg w c).

(** [defer w.wg.Done()] is the last action of each registered
    goroutine. *)
Definition wg_Done (w : OptimizedWorker) : outcome :=
  wg_Add w (-1) (fun w' => Next w' Exited []).

(** The [select] of [helperTask], [monitor] and [collectMetrics]: the
    tick case reads shared state at most (under the lock) and keeps its
    bookkeeping in locals of constant size. *)
Definition periodic_select (w : OptimizedWorker) (tick : bool)
    (again : thread) (b : branch) : outcome :=
  match b with
  | CaseDone => if ctxDone w then wg_Done w else Blocked
  | CaseTick => if tick then Next w again [] else Blocked
  | CaseQueue => Blocked
  end.

(** One step of one goroutine. *)
Definition thread_step (w : OptimizedWorker) (t : thread) (b : branch)
    : outcome :=
  match t with
  | Worker id WSelect =>
      match b with
      | CaseDone => if ctxDone w then wg_Done w else Blocked
      | CaseQueue =>
          match taskQueue w with
          | t :: q => Next (set_queue w q) (Worker id (WProcess t)) []
          | [] => if queueClosed w then wg_Done w else Blocked
          end
      | CaseTick => Blocked
      end
  | Worker id (WProcess t) =>
      Next (set_results w (results w ++ [Process t])) (Worker id (WAdd t)) []
  | Worker id (WAdd t) =>
      wg_Add w 1 (fun w' => Next w' (Worker id (WGo t)) [])
  | Worker id (WGo t) =>
      Next w (Worker id WSelect) [Helper (ID t) false]
  | Helper taskID tick => periodic_select w tick (Helper taskID false) b
  | Monitor tick => periodic_select w tick (Monitor false) b
  | Metrics tick => periodic_select w tick (Metrics false) b
  | Client (StartAdd i n) rest =>
      wg_Add w 1 (fun w' => Next w' (Client (StartGo i n) rest) [])
  | Client (StartGo i n) rest =>
      Next w (Client (start_loop (i + 1) n) rest) [Worker i WSelect]
  | Client StartMonitorAdd rest =>
      wg_Add w 1 (fun w' => Next w' (Client StartMonitorGo rest) [])
  | Client StartMonitorGo rest =>
      Next w (Client StartMetricsAdd rest) [Monitor false]
  | Client StartMetricsAdd rest =>
      wg_Add w 1 (fun w' => Next w' (Client StartMetricsGo rest) [])
  | Client StartMetricsGo rest =>
      Next w (next rest) [Metrics false]
  | Client (Sending []) rest => Next w (next rest) []
  | Client (Sending (t :: ts)) rest =>
      match b with
      | CaseDone => if ctxDone w then Next w (next rest) [] else Blocked
      | CaseQueue =>
          if queueClosed w then Panic SendOnClosedChannel
          else if (length (taskQueue w) <? queueCap w)%nat
          then Next (set_queue w (taskQueue w ++ [t])) (sending ts rest) []
          else Blocked
      | CaseTick => Blocked
      end
  | Client StopCancel rest => Next (cancel w) (Client StopClose rest) []
  | Client StopClose rest =>
      if queueClosed w then Panic CloseOfClosedChannel
      else Next (close w) (Client StopWait rest) []
  | Client StopWait rest =>
      if wg w =? 0 then Next w (next rest) [] else Blocked
  | Exited => Blocked
  end.

(** [GetResults], under the lock: [resultCopy] is made with the length
    of [w.results], and [copy] fills it with as many elements of
    [w.results] as the shorter of the two has. *)
Definition GetResults (w : OptimizedWorker) : list Result :=
  let len_resultCopy := length (results w) in
  take (Nat.min len_resultCopy (length (results w))) (results w).

(** *** The machine *)

Record machine : Type := mkMachine {
  pool : OptimizedWorker;
  threads : list thread;
  crashed : option fault
}.

(** What the scheduler and the clock can do: run goroutine [i] (taking
    case [b] if it is at a [select]); deliver a tick to the ticker of
    goroutine [i]; hand a task from the sender [i] to the receiver [j]
    over an unbuffered [taskQueue]. *)
Inductive event : Type :=
| Run (i : nat) (b : branch)
| Tick (i : nat)
| Handoff (i j : nat).

(** A tick is dropped when the slot of [ticker.C] is full. *)
Definition fire (t : thread) : option thread :=
  match t with
  | Helper taskID _ => Some (Helper taskID true)
  | Monitor _ => Some (Monitor true)
  | Metrics _ => Some (Metrics true)
  | _ => None
  end.

Definition handoff (w : OptimizedWorker) (s r : thread)
    : option (thread * thread) :=
  match s, r with
  | Client (Sending (t :: ts)) rest, Worker id WSelect =>
      if queueClosed w then None
      else match queueCap w with
           | O => Some (sending ts rest, Worker id (WProcess t))
           | S _ => None
           end
  | _, _ => None
  end.

(** A panic ends the program: a crashed machine takes no step. *)
Definition exec (e : event) (m : machine) : option machine :=
  match crashed m with
  | Some _ => None
  | None =>
      match e with
      | Run i b =>
          match threads m !! i with
          | None => None
          | Some t =>
              match thread_step (pool m) t b with
              | Blocked => None
              | Panic f => Some (mkMachine (pool m) (threads m) (Some f))
              | Next w t' sp =>
                  Some (mkMachine w (<[i:=t']> (threads m) ++ sp) None)
              end
          end
      | Tick i =>
          match threads m !! i with
          | None => None
          | Some t =>
              match fire t with
              | None => None
              | Some t' =>
                  Some (mkMachine (pool m) (<[i:=t']> (threads m)) None)
              end
          end
      | Handoff i j =>
          match threads m !! i, threads m !! j with
          | Some s, Some r =>
              match handoff (pool m) s r with
              | None => None
              | Some (s', r') =>
                  Some (mkMachine (pool m)
                          (<[j:=r']> (<[i:=s']> (threads m))) None)
              end
          | _, _ => None
          end
      end
  end.

Fixpoint run (sched : list event) (m : machine) : option machine :=
  match sched with
  | [] => Some m
  | e :: sched' =>
      match exec e m with
      | None => None
      | Some m' => run sched' m'
      end
  end.

(** A pool made by [NewOptimizedWorker(expectedTasks)] and the client
    goroutines that use it, each about to make its calls in order. *)
Definition boot (expectedTasks : nat) (clients : list (list call))
    : machine :=
  mkMachine (NewOptimizedWorker expectedTasks) (map next clients) None.

End worker.

(** ** Package worker: the bad worker

    [BadWorker] is the same pool without a context: its queue is
    unbuffered, only the primary workers are registered with the
    wait-group, and the helper, monitor and metrics goroutines wait for
    their ticker alone.  No [select] has two cases, so a step of a
    goroutine needs no choice. *)

Module bad.
Import task.

(** The shared fields.  The unbuffered [taskQueue] never holds a task: a
    send meets a receive; what it has is whether it was closed. *)
Record BadWorker : Type := mkBad {
  queueClosed : bool;
  results : list Result;
  wg : Z
}.

Definition NewBadWorker : BadWorker :=
  {| queueClosed := false; results := []; wg := 0 |}.

(** Program points of [worker]: at the receive of [range w.taskQueue];
    holding a received task before [Process] and the locked append;
    before [go w.helperTask(t.ID)]. *)
Inductive worker_pc : Type :=
| WRange
| WProcess (t : Task)
| WGo (t : Task).

Inductive call : Type :=
| CallStart (numWorkers : Z)
| CallProcessTasks (tasks : list Task)
| CallStop.

(** Program points inside [Start], [ProcessTasks] and [Stop]. *)
Inductive client_pc : Type :=
| StartAdd (i numWorkers : Z)
| StartGo (i numWorkers : Z)
| StartMonitorGo
| StartMetricsGo
| Sending (tasks : list Task)
| StopClose
| StopWait.

Inductive thread : Type :=
| Worker (id : Z) (pc : worker_pc)
| Helper (taskID : Z) (tick : bool)
| Monitor (tick : bool)
| Metrics (tick : bool)
| Client (pc : client_pc) (rest : list call)
| Exited.

Inductive outcome : Type :=
| Blocked
| Panic (f : worker.fault)
| Next (w : BadWorker) (t : thread) (spawned : list thread).

Definition start_loop (i numWorkers : Z) : client_pc :=
  if i <? numWorkers then StartAdd i numWorkers else StartMonitorGo.

Fixpoint next (rest : list call) : thread :=
  match rest with
  | [] => Exited
  | CallStart n :: rest' => Client (start_loop 0 n) rest'
  | CallProcessTasks [] :: rest' => next rest'
  | CallProcessTasks (t :: ts) :: rest' => Client (Sending (t :: ts)) rest'
  | CallStop :: rest' => Client StopClose rest'
  end.

Definition sending (ts : list Task) (rest : list call) : thread :=
  match ts with
  | [] => next rest
  | _ :: _ => Client (Sending ts) rest
  end.

Definition wg_Add (w : BadWorker) (delta : Z) (k : BadWorker -> outcome)
    : outcome :=
  let c := wg w + delta in
  if c <? 0 then Panic worker.NegativeWaitGroupCounter
  else k (mkBad (queueClosed w) (results w) c).

(** The loops of [helperTask], [monitor] and [collectMetrics]: they wait
    for the next tick and nothing else. *)
Definition periodic_wait (w : BadWorker) (tick : bool) (again : thread)
    : outcome :=
  if tick then Next w again [] else Blocked.

(** One step of one goroutine.  A receive or a send on the open queue
    waits for its partner (see [handoff]). *)
Definition thread_step (w : BadWorker) (t : thread) : outcome :=
  match t with
  | Worker id WRange =>
      if queueClosed w
      then wg_Add w (-1) (fun w' => Next w' Exited [])
      else Blocked
  | Worker id (WProcess t) =>
      Next (mkBad (queueClosed w) (results w ++ [Process t]) (wg w))
        (Worker id (WGo t)) []
  | Worker id (WGo t) => Next w (Worker id WRange) [Helper (ID t) false]
  | Helper taskID tick => periodic_wait w tick (Helper taskID false)
  | Monitor tick => periodic_wait w tick (Monitor false)
  | Metrics tick => periodic_wait w tick (Metrics false)
  | Client (StartAdd i n) rest =>
      wg_Add w 1 (fun w' => Next w' (Client (StartGo i n) rest) [])
  | Client (StartGo i n) rest =>
      Next w (Client (start_loop (i + 1) n) rest) [Worker i WRange]
  | Client StartMonitorGo rest =>
      Next w (Client StartMetricsGo rest) [Monitor false]
  | Client StartMetricsGo rest => Next w (next rest) [Metrics false]
  | Client (Sending []) rest => Next w (next rest) []
  | Client (Sending (t :: ts)) rest =>
      if queueClosed w then Panic worker.SendOnClosedChannel else Blocked
  | Client StopClose rest =>
      if queueClosed w then Panic worker.CloseOfClosedChannel
      else Next (mkBad true (results w) (wg w)) (Client StopWait rest) []
  | Client StopWait rest =>
      if wg w =? 0 then Next w (next rest) [] else Blocked
  | Exited => Blocked
  end.

(** [GetResults]: a copy of [w.results] built by appending, under the
    lock. *)
Definition GetResults (w : BadWorker) : list Result :=
  fold_left (fun resultCopy r => resultCopy ++ [r]) (results w) [].

Record machine : Type := mkMachine {
  pool : BadWorker;
  threads : list thread;
  crashed : option worker.fault
}.

Inductive event : Type :=
| Run (i : nat)
| Tick (i : nat)
| Handoff (i j : nat).

Definition fire (t : thread) : option thread :=
  match t with
  | Helper taskID _ => Some (Helper taskID true)
  | Monitor _ => Some (Monitor true)
  | Metrics _ => Some (Metrics true)
  | _ => None
  end.

(** A send of [ProcessTasks] meets the receive of a worker. *)
Definition handoff (w : BadWorker) (s r : thread) : option (thread * thread) :=
  match s, r with
  | Client (Sending (t :: ts)) rest, Worker id WRange =>
      if queueClosed w then None
      else Some (sending ts rest, Worker id (WProcess t))
  | _, _ => None
  end.

Definition exec (e : event) (m : machine) : option machine :=
  match crashed m with
  | Some _ => None
  | None =>
      match e with
      | Run i =>
          match threads m !! i with
          | None => None
          | Some t =>
              match thread_step (pool m) t with
              | Blocked => None
              | Panic f => Some (mkMachine (pool m) (threads m) (Some f))
              | Next w t' sp =>
                  Some (mkMachine w (<[i:=t']> (threads m) ++ sp) None)
              end
          end
      | Tick i =>
          match threads m !! i with
          | None => None
          | Some t =>
              match fire t with
              | None => None
              | Some t' =>
                  Some (mkMachine (pool m) (<[i:=t']> (threads m)) None)
              end
          end
      | Handoff i j =>
          match threads m !! i, threads m !! j with
          | Some s, Some r =>
              match handoff (pool m) s r with
              | None => None
              | Some (s', r') =>
                  Some (mkMachine (pool m)
                          (<[j:=r']> (<[i:=s']> (threads m))) None)
              end
          | _, _ => None
          end
      end
  end.

Fixpoint run (sched : list event) (m : machine) : option machine :=
  match sched with
  | [] => Some m
  | e :: sched' =>
      match exec e m with
      | None => None
      | Some m' => run sched' m'
      end
  end.

Definition boot (clients : list (list call)) : machine :=
  mkMachine NewBadWorker (map next clients) None.

(** *** What the proofs measure on a machine *)

(** Only the primary workers are registered with the wait-group. *)
Definition registered (t : thread) : nat :=
  match t with
  | Worker _ _ => 1
  | Client (StartGo _ _) _ => 1
  | _ => 0
  end.

Definition wg_counts (m : machine) : Prop :=
  wg (pool m) = Z.of_nat (sum_list_with registered (threads m)).

Definition is_worker (t : thread) : bool :=
  match t with Worker _ _ => true | _ => false end.

Definition periodic (t : thread) : bool :=
  match t with
  | Helper _ _ | Monitor _ | Metrics _ => true
  | _ => false
  end.

Definition is_helper (t : thread) : nat :=
  match t with Helper _ _ => 1 | _ => 0 end.

(** The helpers that processed tasks account for: the running ones and
    the one a worker is about to launch. *)
Definition helper_due (t : thread) : nat :=
  match t with
  | Helper _ _ => 1
  | Worker _ (WGo _) => 1
  | _ => 0
  end.

Definition calls_tasks (rest : list call) : list Task :=
  concat (map (fun c => match c with
                        | CallProcessTasks ts => ts
                        | _ => []
                        end) rest).

Definition hand (t : thread) : list Task :=
  match t with
  | Worker _ (WProcess t) => [t]
  | Client (Sending ts) rest => ts ++ calls_tasks rest
  | Client _ rest => calls_tasks rest
  | _ => []
  end.

Definition hands (l : list thread) : list Task := concat (map hand l).

Definition tasks_kept (T : list Task) (m : machine) : Prop :=
  exists done,
    results (pool m) = map Process done /\ done ++ hands (threads m) ≡ₚ T.

Definition calls_stops (rest : list call) : nat :=
  length (List.filter (fun c => match c with CallStop => true | _ => false end)
            rest).

Definition closes_ahead (t : thread) : nat :=
  match t with
  | Client StopClose rest => S (calls_stops rest)
  | Client _ rest => calls_stops rest
  | _ => 0
  end.

Definition closes_total (m : machine) : nat :=
  (sum_list_with closes_ahead (threads m)
   + if queueClosed (pool m) then 1 else 0)%nat.

Definition stop_progress (w : BadWorker) (t : thread) : Prop :=
  match t with
  | Client StopWait _ => queueClosed w = true
  | _ => True
  end.

Fixpoint sends_then_stop (rest : list call) : bool :=
  match rest with
  | [] => true
  | CallProcessTasks (_ :: _) :: rest' =>
      (0 <? calls_stops rest')%nat && sends_then_stop rest'
  | _ :: rest' => sends_then_stop rest'
  end.

Definition disciplined (t : thread) : bool :=
  match t with
  | Client (Sending (_ :: _)) rest =>
      (0 <? calls_stops rest)%nat && sends_then_stop rest
  | Client _ rest => sends_then_stop rest
  | _ => true
  end.

Definition replaced (l : list thread) (t t' : thread) (l' : list thread)
    : Prop :=
  exists l1 l2, l = l1 ++ t :: l2 /\ l' = l1 ++ t' :: l2.

Inductive transition (m : machine) : machine -> Prop :=
| transition_panic t f :
    t ∈ threads m ->
    thread_step (pool m) t = Panic f ->
    transition m (mkMachine (pool m) (threads m) (Some f))
| transition_step t w' t' sp l' :
    thread_step (pool m) t = Next w' t' sp ->
    replaced (threads m) t t' l' ->
    transition m (mkMachine w' (l' ++ sp) None)
| transition_tick t t' l' :
    fire t = Some t' ->
    replaced (threads m) t t' l' ->
    transition m (mkMachine (pool m) l' None)
| transition_handoff s r s' r' l1 l' :
    handoff (pool m) s r = Some (s', r') ->
    replaced (threads m) s s' l1 ->
    replaced l1 r r' l' ->
    transition m (mkMachine (pool m) l' None).

(** A pool started without workers whose client submits [T]: the client
    is at the end of [Start] or at the send of the first task, and the
    only other goroutines are the monitor and the sampler. *)
Definition starving (T : list Task) (rest : list call) (m : machine) : Prop :=
  crashed m = None
  /\ queueClosed (pool m) = false
  /\ results (pool m) = []
  /\ exists c ps,
       threads m = c :: ps
       /\ Forall (fun t => periodic t = true) ps
       /\ (c = Client StartMonitorGo (CallProcessTasks T :: rest)
           \/ c = Client StartMetricsGo (CallProcessTasks T :: rest)
           \/ c = Client (Sending T) rest).

(** What runs on when [Stop()] has returned. *)
Definition is_monitor (t : thread) : nat :=
  match t with Monitor _ => 1 | _ => 0 end.

Definition is_metrics (t : thread) : nat :=
  match t with Metrics _ => 1 | _ => 0 end.

Definition is_client (t : thread) : nat :=
  match t with Client _ _ => 1 | _ => 0 end.

Definition calls_starts (rest : list call) : nat :=
  length (List.filter
            (fun c => match c with CallStart _ => true | _ => false end)
            rest).

(** The calls of [Start] of which the monitor, or the metrics sampler, is
    still to be launched: the one a client is in and the ones it has still
    to make. *)
Definition monitors_ahead (t : thread) : nat :=
  match t with
  | Client (StartAdd _ _) rest | Client (StartGo _ _) rest
  | Client StartMonitorGo rest => S (calls_starts rest)
  | Client _ rest => calls_starts rest
  | _ => 0
  end.

Definition metrics_ahead (t : thread) : nat :=
  match t with
  | Client (StartAdd _ _) rest | Client (StartGo _ _) rest
  | Client StartMonitorGo rest | Client StartMetricsGo rest =>
      S (calls_starts rest)
  | Client _ rest => calls_starts rest
  | _ => 0
  end.

(** *** Example runs *)

Definition t1 : Task := mkTask 1 [1; 2; 3; 4] OperationSum.

(** One client: [Start(1)], [ProcessTasks([t1])], [Stop()]; the worker
    receives [t1], processes it and launches the helper; the client then
    closes the queue, the worker returns and [Stop()] returns. *)
Definition demo : list call :=
  [CallStart 1; CallProcessTasks [t1]; CallStop].

Definition run_to_wait : list event :=
  [Run 0; Run 0; Run 0; Run 0;
   Handoff 0 1; Run 1; Run 1;
   Tick 4; Run 4;
   Run 0; Run 1].

Definition run_complete : list event := run_to_wait ++ [Run 0].

End bad.

(** ** Package usecase of the super-worker: generated DNA and stats

    [rand.Intn(n)] panics when [n <= 0] and returns a number of
    [0, n) otherwise.  Which number is up to the generator: the source of
    randomness is a parameter that gives the draw number [k] for the
    bound [n], and the functions thread the number of draws made. *)

Module usecase.

Definition source : Type := nat -> Z -> Z.

Definition in_range (src : source) : Prop :=
  forall (k : nat) (n : Z), 0 < n -> 0 <= src k n < n.

Definition Intn (src : source) (n : Z) (k : nat) : option (Z * nat) :=
  if n <=? 0 then None else Some (src k n, S k).

Record Stats : Type := mkStats {
  BaseLv : Z;
  HP : Z;
  Attack : Z;
  Defense : Z;
  SpecialAttack : Z;
  SpecialDefense : Z;
  Speed : Z
}.

(** [GenerateStats]: [base] is [len(dna)], halved when above 2; each of
    the seven stats is [rand.Intn(base) + 1]. *)
Definition stats_base (dna : string) : Z :=
  let base := Z.of_nat (String.length dna) in
  if 2 <? base then base / 2 else base.

Definition GenerateStats (src : source) (dna : string) (k : nat)
    : option (Stats * nat) :=
  let base := stats_base dna in
  '(baseLv, k) ← Intn src base k;
  '(hp, k) ← Intn src base k;
  '(attack, k) ← Intn src base k;
  '(defense, k) ← Intn src base k;
  '(specialAttack, k) ← Intn src base k;
  '(specialDefense, k) ← Intn src base k;
  '(speed, k) ← Intn src base k;
  Some (mkStats (baseLv + 1) (hp + 1) (attack + 1) (defense + 1)
          (specialAttack + 1) (specialDefense + 1) (speed + 1), k).

(** [GenerateDNA]: 10000 times, append the letter of ["ATCG"] at a random
    index. *)
Definition dna_base : string := "ATCG".
Definition dna_rounds : nat := Z.to_nat 10000.

Fixpoint dna_loop (rounds : nat) (src : source) (dna : string) (k : nat)
    : option (string * nat) :=
  match rounds with
  | O => Some (dna, k)
  | S rounds' =>
      '(i, k') ← Intn src (Z.of_nat (String.length dna_base)) k;
      c ← String.get (Z.to_nat i) dna_base;
      dna_loop rounds' src (dna +:+ String c "") k'
  end.

Definition GenerateDNA (src : source) (k : nat) : option (string * nat) :=
  dna_loop dna_rounds src "" k.

(** The letters of a string are all letters of ["ATCG"]. *)
Fixpoint letters_of_base (s : string) : Prop :=
  match s with
  | EmptyString => True
  | String c s' =>
      (c = "A"%char \/ c = "T"%char \/ c = "C"%char \/ c = "G"%char)
      /\ letters_of_base s'
  end.

Definition stats_within (lo hi : Z) (st : Stats) : Prop :=
  lo <= BaseLv st <= hi /\ lo <= HP st <= hi /\ lo <= Attack st <= hi
  /\ lo <= Defense st <= hi /\ lo <= SpecialAttack st <= hi
  /\ lo <= SpecialDefense st <= hi /\ lo <= Speed st <= hi.

(** A source that always draws the least number. *)
Definition least : source := fun _ _ => 0.

End usecase.

(** ** What the proofs measure on a machine *)

Import task worker.

(** The sum and the product of a list of integers, without wrap-around. *)
Definition Zsum (l : list Z) : Z := foldr Z.add 0 l.
Definition Zprod (l : list Z) : Z := foldr Z.mul 1 l.

(** The range of a Go [int], and the largest magnitude whose square is
    in it. *)
Definition in_int (z : Z) : Prop :=
  - 2 ^ (int_bits - 1) <= z < 2 ^ (int_bits - 1).
Definition sqrt_max_int : Z := 3037000499.

(** The wait-group registrations a goroutine accounts for: one for each
    registered goroutine that has not yet run its deferred [Done], and one
    for each [Add(1)] whose [go] statement is still to run. *)
Definition registered (t : thread) : nat :=
  match t with
  | Worker _ (WGo _) => 2
  | Worker _ _ => 1
  | Helper _ _ => 1
  | Monitor _ => 1
  | Metrics _ => 1
  | Client (StartGo _ _) _ => 1
  | Client StartMonitorGo _ => 1
  | Client StartMetricsGo _ => 1
  | Client _ _ => 0
  | Exited => 0
  end.

Definition registrations (l : list thread) : nat :=
  sum_list_with registered l.

(** The wait-group counter is the number of registrations. *)
Definition wg_counts (m : machine) : Prop :=
  wg (pool m) = Z.of_nat (registrations (threads m)).

(** A goroutine spawned by the pool (worker, helper, monitor or metrics
    sampler) that has not returned. *)
Definition live (t : thread) : bool :=
  match t with
  | Worker _ _ | Helper _ _ | Monitor _ | Metrics _ => true
  | Client _ _ | Exited => false
  end.

(** The goroutines that poll a ticker: helper, monitor, metrics sampler. *)
Definition periodic (t : thread) : bool :=
  match t with
  | Helper _ _ | Monitor _ | Metrics _ => true
  | _ => false
  end.

Definition tick_pending (t : thread) : bool :=
  match t with
  | Helper _ tick | Monitor tick | Metrics tick => tick
  | _ => false
  end.

(** What a client at a program point of [Stop] has already done. *)
Definition stop_progress (w : OptimizedWorker) (t : thread) : Prop :=
  match t with
  | Client StopClose _ => ctxDone w = true
  | Client StopWait _ => ctxDone w = true /\ queueClosed w = true
  | _ => True
  end.

Definition stop_progressed (m : machine) : Prop :=
  Forall (stop_progress (pool m)) (threads m).

(** The tasks a goroutine still holds: a worker the task it received and
    has not processed, a client the tasks it is still to send. *)
Definition calls_tasks (rest : list call) : list Task :=
  concat (map (fun c => match c with
                        | CallProcessTasks ts => ts
                        | _ => []
                        end) rest).

Definition hand (t : thread) : list Task :=
  match t with
  | Worker _ (WProcess t) => [t]
  | Client (Sending ts) rest => ts ++ calls_tasks rest
  | Client _ rest => calls_tasks rest
  | _ => []
  end.

Definition hands (l : list thread) : list Task := concat (map hand l).

(** Every result is the [Process] of a task of [T], and the processed
    tasks, the queued ones and the ones in hand are together within [T]
    (as multisets). *)
Definition tasks_accounted (T : list Task) (m : machine) : Prop :=
  exists done,
    results (pool m) = map Process done
    /\ done ++ taskQueue (pool m) ++ hands (threads m) ⊆+ T.

(** The executions of [close(w.taskQueue)] a goroutine has ahead. *)
Definition calls_stops (rest : list call) : nat :=
  length (List.filter (fun c => match c with CallStop => true | _ => false end)
            rest).

Definition closes_ahead (t : thread) : nat :=
  match t with
  | Client StopCancel rest => S (calls_stops rest)
  | Client StopClose rest => S (calls_stops rest)
  | Client _ rest => calls_stops rest
  | _ => 0
  end.

Definition closes_done (w : OptimizedWorker) : nat :=
  if queueClosed w then 1 else 0.

Definition closes_total (m : machine) : nat :=
  (sum_list_with closes_ahead (threads m) + closes_done (pool m))%nat.

(** While the cancellation signal is not raised, the processed tasks, the
    queued ones and the ones in hand are together exactly [T]. *)
Definition tasks_kept (T : list Task) (m : machine) : Prop :=
  ctxDone (pool m) = false ->
  exists done,
    results (pool m) = map Process done
    /\ done ++ taskQueue (pool m) ++ hands (threads m) ≡ₚ T.

(** A client program in which every [ProcessTasks] of at least one task is
    followed by a [Stop()]. *)
Fixpoint sends_then_stop (rest : list call) : bool :=
  match rest with
  | [] => true
  | CallProcessTasks (_ :: _) :: rest' =>
      (0 <? calls_stops rest')%nat && sends_then_stop rest'
  | _ :: rest' => sends_then_stop rest'
  end.

Definition disciplined (t : thread) : bool :=
  match t with
  | Client (Sending (_ :: _)) rest =>
      (0 <? calls_stops rest)%nat && sends_then_stop rest
  | Client _ rest => sends_then_stop rest
  | _ => true
  end.

(** Goroutine [i] can run to its exit in at most [n] steps of its own. *)
Definition exits_within (n i : nat) (m : machine) : Prop :=
  exists sched m',
    (length sched <= n)%nat
    /\ Forall (fun e => exists b, e = Run i b) sched
    /\ run sched m = Some m'
    /\ threads m' !! i = Some Exited
    /\ crashed m' = None.

(** A pool started without workers whose client submits [T]: the client
    is still inside [Start], or inside [ProcessTasks] with tasks left to
    send, and the only other goroutines are the monitor and the sampler. *)
Definition start_tail (pc : client_pc) : bool :=
  match pc with
  | StartMonitorAdd | StartMonitorGo | StartMetricsAdd | StartMetricsGo => true
  | _ => false
  end.

Definition starving (cap : nat) (T : list Task) (rest : list call)
    (m : machine) : Prop :=
  crashed m = None
  /\ ctxDone (pool m) = false
  /\ queueClosed (pool m) = false
  /\ queueCap (pool m) = cap
  /\ results (pool m) = []
  /\ 0 <= wg (pool m)
  /\ exists c ps,
       threads m = c :: ps
       /\ Forall (fun t => periodic t = true) ps
       /\ ((exists pc,
              c = Client pc (CallProcessTasks T :: rest)
              /\ start_tail pc = true /\ taskQueue (pool m) = [])
           \/ (exists t ts,
                 c = Client (Sending (t :: ts)) rest
                 /\ T = taskQueue (pool m) ++ t :: ts)).

(** The executions of [w.cancel()] a goroutine has ahead, and whether the
    signal was raised. *)
Definition cancels_ahead (t : thread) : nat :=
  match t with
  | Client StopCancel rest => S (calls_stops rest)
  | Client _ rest => calls_stops rest
  | _ => 0
  end.

Definition cancels_done (w : OptimizedWorker) : nat :=
  if ctxDone w then 1 else 0.

(** The processed tasks, the queued ones and the ones in hand are together
    exactly [T]: every task of [T] is in one of these places, once. *)
Definition tasks_exact (T : list Task) (m : machine) : Prop :=
  exists done,
    results (pool m) = map Process done
    /\ done ++ taskQueue (pool m) ++ hands (threads m) ≡ₚ T.

(** A goroutine that is not a client. *)
Definition spawned (t : thread) : bool :=
  match t with Client _ _ => false | _ => true end.

(** A client program that calls [Stop()] once, as its last call. *)
Fixpoint stop_is_last (rest : list call) : bool :=
  match rest with
  | [] => false
  | CallStop :: rest' => match rest' with [] => true | _ => false end
  | _ :: rest' => stop_is_last rest'
  end.

(** The client of such a program: before its [Stop()], inside it, or
    returned from it. *)
Definition stops_at_end (t : thread) : bool :=
  match t with
  | Client StopCancel rest | Client StopClose rest | Client StopWait rest =>
      match rest with [] => true | _ => false end
  | Client _ rest => stop_is_last rest
  | Exited => true
  | _ => false
  end.

(** One client, goroutine 0, runs such a program; when it has returned,
    no goroutine of the pool is left. *)
Definition one_client (m : machine) : Prop :=
  exists c ps,
    threads m = c :: ps
    /\ stops_at_end c = true
    /\ Forall (fun t => spawned t = true) ps
    /\ (c = Exited -> Forall (fun t => live t = false) ps).

(** One goroutine of the list changes its program point. *)
Definition replaced (l : list thread) (t t' : thread) (l' : list thread)
    : Prop :=
  exists l1 l2, l = l1 ++ t :: l2 /\ l' = l1 ++ t' :: l2.

(** The steps of a machine, as [exec] takes them: a goroutine panics; a
    goroutine takes a step and may spawn goroutines; a ticker fires; a
    sender hands a task to a receiver. *)
Inductive transition (m : machine) : machine -> Prop :=
| transition_panic t b f :
    t ∈ threads m ->
    thread_step (pool m) t b = Panic f ->
    transition m (mkMachine (pool m) (threads m) (Some f))
| transition_step t b w' t' sp l' :
    thread_step (pool m) t b = Next w' t' sp ->
    replaced (threads m) t t' l' ->
    transition m (mkMachine w' (l' ++ sp) None)
| transition_tick t t' l' :
    fire t = Some t' ->
    replaced (threads m) t t' l' ->
    transition m (mkMachine (pool m) l' None)
| transition_handoff s r s' r' l1 l' :
    handoff (pool m) s r = Some (s', r') ->
    replaced (threads m) s s' l1 ->
    replaced l1 r r' l' ->
    transition m (mkMachine (pool m) l' None).

(** ** Example runs *)

Definition t1 : Task := mkTask 1 [1; 2; 3; 4] OperationSum.
Definition t2 : Task := mkTask 2 [1; 2; 3] OperationSquare.

(** One client: [Start(1)], [ProcessTasks([t1])], [Stop()]. *)
Definition demo : list call :=
  [CallStart 1; CallProcessTasks [t1]; CallStop].

Definition start_one : list event :=
  [Run 0 CaseDone; Run 0 CaseDone; Run 0 CaseDone;
   Run 0 CaseDone; Run 0 CaseDone; Run 0 CaseDone].

(** The worker receives [t1] and processes it, its helper and the monitor
    handle a tick each, and only then the client stops the pool. *)
Definition run_to_wait : list event :=
  start_one ++
  [Run 0 CaseQueue;
   Run 1 CaseQueue; Run 1 CaseDone; Run 1 CaseDone; Run 1 CaseDone;
   Tick 4; Run 4 CaseTick; Tick 2; Run 2 CaseTick;
   Run 0 CaseDone; Run 0 CaseDone;
   Run 1 CaseDone; Run 2 CaseDone; Run 3 CaseDone; Run 4 CaseDone].

Definition run_complete : list event := run_to_wait ++ [Run 0 CaseDone].

(** The client stops the pool while [t1] is still in the queue, and the
    worker's [select] takes the cancellation case. *)
Definition run_lossy : list event :=
  start_one ++
  [Run 0 CaseQueue;
   Run 0 CaseDone; Run 0 CaseDone;
   Run 1 CaseDone; Run 2 CaseDone; Run 3 CaseDone;
   Run 0 CaseDone].

(** One client calls [Stop()] twice. *)
Definition stop_to_wait : list event := [Run 0 CaseDone; Run 0 CaseDone].
Definition stop_again : list event := [Run 0 CaseDone].

Definition run_stop_twice : list event :=
  stop_to_wait ++ [Run 0 CaseDone] ++ stop_again ++ [Run 0 CaseDone].

(** A producer sends [t1] and, before it reaches the [select] that sends
    [t2], the other client starts and stops the pool; the producer's
    [select] then takes the send case. *)
Definition producer_and_stopper : list (list call) :=
  [[CallProcessTasks [t1; t2]]; [CallStart 1; CallStop]].

Definition run_send_on_closed : list event :=
  [Run 0 CaseQueue;
   Run 1 CaseDone; Run 1 CaseDone; Run 1 CaseDone;
   Run 1 CaseDone; Run 1 CaseDone; Run 1 CaseDone;
   Run 1 CaseDone; Run 1 CaseDone;
   Run 0 CaseQueue].

(** * Properties of [task.Process] *)

Lemma rem2_even (v : Z) : (Z.rem v 2 =? 0) = Z.even v.
Proof.
  rewrite Zeven_mod. apply eq_iff_eq_true.
  rewrite !Z.eqb_eq. apply Z.rem_mod_eq_0. discriminate.
Qed.

Lemma filter_loop_acc (data acc : list Z) :
  fold_left
    (fun filtered v => if Z.rem v 2 =? 0 then filtered ++ [v] else filtered)
    data acc
  = acc ++ List.filter Z.even data.
Proof.
  revert acc. induction data as [|v data IH]; intros acc; simpl.
  - by rewrite app_nil_r.
  - rewrite IH, rem2_even. destruct (Z.even v); [|done].
    by rewrite <- app_assoc.
Qed.

Lemma filter_loop_filter (data : list Z) :
  filter_loop data = List.filter Z.even data.
Proof. unfold filter_loop. by rewrite filter_loop_acc. Qed.

Lemma filter_even_length (data : list Z) :
  (length (List.filter Z.even data) <= length data)%nat.
Proof.
  induction data as [|v data IH]; simpl; [lia|].
  destruct (Z.even v); simpl; lia.
Qed.

Lemma filter_even_sublist (data : list Z) :
  sublist (List.filter Z.even data) data.
Proof.
  induction data as [|v data IH]; simpl; [constructor|].
  destruct (Z.even v); by constructor.
Qed.

Lemma Process_filter_sound (t : Task) :
  Operation t = OperationFilter ->
  Value (Process t) = Ints (List.filter Z.even (Data t))
  /\ Info (Process t)
     = "Filtered " +:+ fmt_d (length (List.filter Z.even (Data t)))
         +:+ " even numbers from " +:+ fmt_d (length (Data t)).
Proof.
  intros Hop. unfold Process. rewrite Hop. simpl.
  by rewrite filter_loop_filter.
Qed.

(** C6: the three worked equations of [Process]: the sum of [1,2,3,4] is
    10, the squares of [1,2,3] are [1,4,9], and the even elements of
    [1,2,3,4,5,6] are [2,4,6], whatever the task's ID. *)
Theorem Process_round_trip (id : Z) :
  Value (Process (mkTask id [1; 2; 3; 4] OperationSum)) = Int 10
  /\ Value (Process (mkTask id [1; 2; 3] OperationSquare)) = Ints [1; 4; 9]
  /\ Value (Process (mkTask id [1; 2; 3; 4; 5; 6] OperationFilter))
     = Ints [2; 4; 6].
Proof. repeat split; reflexivity. Qed.

(** C7: for a task whose operation tag is none of Sum, Multiply, Square
    and Filter, [Process] returns normally a Result with the nil value and
    the info text "Unknown operation". *)
Theorem Process_unknown_operation (t : Task) :
  Operation t <> OperationSum ->
  Operation t <> OperationMultiply ->
  Operation t <> OperationSquare ->
  Operation t <> OperationFilter ->
  Process t = mkResult (ID t) Nil "Unknown operation".
Proof.
  intros Hsum Hmul Hsq Hfil. unfold Process.
  destruct (Z.eqb_spec (Operation t) OperationSum); [done|].
  destruct (Z.eqb_spec (Operation t) OperationMultiply); [done|].
  destruct (Z.eqb_spec (Operation t) OperationSquare); [done|].
  destruct (Z.eqb_spec (Operation t) OperationFilter); [done|].
  reflexivity.
Qed.

Lemma Process_unknown_operation_witness :
  Process (mkTask 7 [1; 2; 3] 4) = mkResult 7 Nil "Unknown operation".
Proof. apply (Process_unknown_operation (mkTask 7 [1; 2; 3] 4)); discriminate. Defined.

(** C8: for a Filter task, [Process] returns exactly the even elements of
    the data, in their order in the data (the result is the data filtered
    by evenness, hence a subsequence of it), and no more elements than the
    data has. *)
Theorem Process_filter_even (t : Task) :
  Operation t = OperationFilter ->
  Value (Process t) = Ints (List.filter Z.even (Data t))
  /\ sublist (List.filter Z.even (Data t)) (Data t)
  /\ (length (List.filter Z.even (Data t)) <= length (Data t))%nat.
Proof.
  intros Hop. split; [|split].
  - unfold Process. rewrite Hop. simpl. by rewrite filter_loop_filter.
  - apply filter_even_sublist.
  - apply filter_even_length.
Qed.

Lemma Process_filter_even_witness :
  Value (Process (mkTask 1 [-4; 3; 0; 7; 10] OperationFilter))
    = Ints (List.filter Z.even [-4; 3; 0; 7; 10])
  /\ sublist (List.filter Z.even [-4; 3; 0; 7; 10]) [-4; 3; 0; 7; 10]
  /\ (length (List.filter Z.even [-4; 3; 0; 7; 10]%Z)
      <= length [-4; 3; 0; 7; 10]%Z)%nat.
Proof.
  apply (Process_filter_even (mkTask 1 [-4; 3; 0; 7; 10] OperationFilter)).
  reflexivity.
Defined.

Lemma Process_TaskID (t : Task) : TaskID (Process t) = ID t.
Proof.
  unfold Process.
  destruct (Operation t =? OperationSum); [done|].
  destruct (Operation t =? OperationMultiply); [done|].
  destruct (Operation t =? OperationSquare); [done|].
  destruct (Operation t =? OperationFilter); done.
Qed.

(** C9: for every task, whatever its operation tag (known or not), the
    Result of [Process] carries the task's ID as its TaskID. *)
Theorem Process_keeps_TaskID (t : Task) : TaskID (Process t) = ID t.
Proof.
  unfold Process.
  destruct (Operation t =? OperationSum); [done|].
  destruct (Operation t =? OperationMultiply); [done|].
  destruct (Operation t =? OperationSquare); [done|].
  destruct (Operation t =? OperationFilter); done.
Qed.

(** C10: on a task with empty data [Process] returns, for Sum the value
    0, for Multiply the value 1, for Square and for Filter the empty
    sequence, and in every case an info string that is not empty. *)
Theorem Process_empty_data (t : Task) :
  Data t = [] ->
  (Operation t = OperationSum ->
     Process t = mkResult (ID t) (Int 0) "Sum of 0 numbers")
  /\ (Operation t = OperationMultiply ->
     Process t = mkResult (ID t) (Int 1) "Product of 0 numbers")
  /\ (Operation t = OperationSquare ->
     Process t = mkResult (ID t) (Ints []) "Squared 0 numbers")
  /\ (Operation t = OperationFilter ->
     Process t = mkResult (ID t) (Ints [])
                   "Filtered 0 even numbers from 0")
  /\ Info (Process t) <> "".
Proof.
  intros Hdata. unfold Process. rewrite Hdata.
  repeat split; try (intros ->; reflexivity).
  destruct (Operation t =? OperationSum); [done|].
  destruct (Operation t =? OperationMultiply); [done|].
  destruct (Operation t =? OperationSquare); [done|].
  destruct (Operation t =? OperationFilter); done.
Qed.

Lemma Process_empty_data_witness :
  Value (Process (mkTask 5 [] OperationMultiply)) = Int 1
  /\ Info (Process (mkTask 5 [] OperationMultiply)) <> "".
Proof.
  destruct (Process_empty_data (mkTask 5 [] OperationMultiply) eq_refl)
    as (_ & Hmul & _ & _ & Hinfo).
  split; [|exact Hinfo].
  by rewrite (Hmul eq_refl).
Defined.

(** * Properties of the optimized worker *)

(** ** Steps of the machine *)

Lemma replaced_insert (l : list thread) (i : nat) (t t' : thread) :
  l !! i = Some t -> replaced l t t' (<[i:=t']> l).
Proof.
  intros Hi. exists (take i l), (drop (S i) l). split.
  - by rewrite take_drop_middle.
  - apply insert_take_drop. by eapply lookup_lt_Some.
Qed.

Lemma handoff_distinct (w : OptimizedWorker) (s r s' r' : thread) :
  handoff w s r = Some (s', r') -> s <> r.
Proof. intros H ->. destruct r as [? []| | | |[| | | | | |[|? ?]| | |]|]; discriminate. Qed.

Lemma exec_transition (e : event) (m m' : machine) :
  exec e m = Some m' -> crashed m = None /\ transition m m'.
Proof.
  unfold exec. destruct (crashed m); [done|]. intros H. split; [done|].
  destruct e as [i b|i|i j].
  - destruct (threads m !! i) as [t|] eqn:Hi; [|done].
    destruct (thread_step (pool m) t b) as [|f|w' t' sp] eqn:Hstep;
      simplify_eq.
    + eapply transition_panic; [|done]. by eapply list_elem_of_lookup_2.
    + eapply transition_step; [done|]. by apply replaced_insert.
  - destruct (threads m !! i) as [t|] eqn:Hi; [|done].
    destruct (fire t) as [t'|] eqn:Hfire; simplify_eq.
    eapply transition_tick; [done|]. by apply replaced_insert.
  - destruct (threads m !! i) as [s|] eqn:Hi; [|done].
    destruct (threads m !! j) as [r|] eqn:Hj; [|done].
    destruct (handoff (pool m) s r) as [[s' r']|] eqn:Hh; simplify_eq.
    eapply transition_handoff; [done|by apply replaced_insert|].
    apply replaced_insert. rewrite list_lookup_insert_ne; [done|].
    intros ->. apply handoff_distinct in Hh. congruence.
Qed.

(** A property kept by every step holds along every run. *)
Lemma run_invariant (P : machine -> Prop) :
  (forall m m', crashed m = None -> transition m m' -> P m -> P m') ->
  forall sched m m', run sched m = Some m' -> P m -> P m'.
Proof.
  intros Hstep sched. induction sched as [|e sched IH]; intros m m' Hrun HP.
  - by simplify_eq/=.
  - simpl in Hrun. destruct (exec e m) as [m1|] eqn:He; [|done].
    apply exec_transition in He as [Hc Ht]. eauto.
Qed.

Lemma run_snoc (sched : list event) (e : event) (m m' : machine) :
  run (sched ++ [e]) m = Some m' ->
  exists m0, run sched m = Some m0 /\ exec e m0 = Some m'.
Proof.
  revert m. induction sched as [|e0 sched IH]; intros m; simpl.
  - destruct (exec e m) as [m1|] eqn:He; [|done]. intros [= <-]. eauto.
  - destruct (exec e0 m) as [m1|]; [|done]. apply IH.
Qed.

Lemma run_app (sched1 sched2 : list event) (m m1 m2 : machine) :
  run sched1 m = Some m1 -> run sched2 m1 = Some m2 ->
  run (sched1 ++ sched2) m = Some m2.
Proof.
  revert m. induction sched1 as [|e sched1 IH]; intros m; simpl.
  - by intros [= ->].
  - destruct (exec e m) as [m'|]; [|done]. apply IH.
Qed.

(** Case analysis of a step of one goroutine. *)
Ltac step_cases H :=
  match type of H with
  | thread_step _ ?t ?b = _ =>
      destruct t as [? [| | |]|? ?|?|?|[| | | | | |[|? ?]| | |] ?|];
      destruct b; simpl in H;
      unfold periodic_select, wg_Done, wg_Add in H;
      repeat case_match; simplify_eq
  end.

Lemma registered_start_loop (i n : Z) (rest : list call) :
  registered (Client (start_loop i n) rest) = 0%nat.
Proof. unfold start_loop. by destruct (i <? n). Qed.

Lemma registered_next (rest : list call) : registered (next rest) = 0%nat.
Proof.
  induction rest as [|[n|[|t ts]|] rest IH]; cbn [next]; try done.
  apply registered_start_loop.
Qed.

Lemma registered_sending (ts : list Task) (rest : list call) :
  registered (sending ts rest) = 0%nat.
Proof. destruct ts; simpl; [apply registered_next|done]. Qed.

Lemma live_next (rest : list call) : live (next rest) = false.
Proof.
  induction rest as [|[n|[|t ts]|] rest IH]; cbn [next]; done.
Qed.

Lemma stop_progress_start_loop (w : OptimizedWorker) i n rest :
  stop_progress w (Client (start_loop i n) rest).
Proof. unfold start_loop. by destruct (i <? n). Qed.

Lemma stop_progress_next (w : OptimizedWorker) (rest : list call) :
  stop_progress w (next rest).
Proof.
  induction rest as [|[n|[|t ts]|] rest IH]; cbn [next]; try done.
  apply stop_progress_start_loop.
Qed.

Lemma stop_progress_sending (w : OptimizedWorker) ts rest :
  stop_progress w (sending ts rest).
Proof. destruct ts; simpl; [apply stop_progress_next|done]. Qed.

Create Rewrite HintDb measures.
#[local] Hint Rewrite registered_next registered_sending
  registered_start_loop : measures.
#[local] Hint Resolve stop_progress_next stop_progress_sending
  stop_progress_start_loop : core.

(** ** The wait-group counts the registered goroutines *)

Lemma registrations_replaced (l l' : list thread) (t t' : thread) :
  replaced l t t' l' ->
  (registrations l' + registered t = registrations l + registered t')%nat.
Proof.
  intros (l1 & l2 & -> & ->). unfold registrations.
  rewrite !sum_list_with_app. simpl. lia.
Qed.

Lemma step_registered (w w' : OptimizedWorker) (t t' : thread) (b : branch)
    (sp : list thread) :
  thread_step w t b = Next w' t' sp ->
  wg w' + Z.of_nat (registered t)
  = wg w + Z.of_nat (registered t' + registrations sp).
Proof.
  intros H. step_cases H; autorewrite with measures; simpl; lia.
Qed.

Lemma fire_registered (t t' : thread) :
  fire t = Some t' -> registered t' = registered t.
Proof. destruct t; intros; by simplify_eq/=. Qed.

Lemma handoff_registered (w : OptimizedWorker) (s r s' r' : thread) :
  handoff w s r = Some (s', r') ->
  registered s' = registered s /\ registered r' = registered r.
Proof.
  intros H.
  destruct s as [| | | |[| | | | | |[|? ?]| | |] ?|]; try done.
  destruct r as [? []| | | | |]; try done. simpl in H.
  repeat case_match; simplify_eq. by rewrite registered_sending.
Qed.

Lemma wg_counts_step (m m' : machine) :
  crashed m = None -> transition m m' -> wg_counts m -> wg_counts m'.
Proof.
  unfold wg_counts. intros _ Ht Hm.
  destruct Ht as [t b f _ _|t b w' t' sp l' Hs Hr|t t' l' Hf Hr
                 |s r s' r' l1 l' Hh Hr1 Hr2]; simpl.
  - done.
  - apply step_registered in Hs. apply registrations_replaced in Hr.
    unfold registrations in *. rewrite sum_list_with_app. lia.
  - apply fire_registered in Hf. apply registrations_replaced in Hr. lia.
  - apply handoff_registered in Hh as [Hs' Hr'].
    apply registrations_replaced in Hr1, Hr2. lia.
Qed.

Lemma wg_counts_boot (expectedTasks : nat) (clients : list (list call)) :
  wg_counts (boot expectedTasks clients).
Proof.
  unfold wg_counts, boot, registrations. simpl.
  induction clients as [|c clients IH]; simpl; [done|].
  rewrite registered_next. lia.
Qed.

Lemma registrations_zero (l : list thread) :
  registrations l = 0%nat -> Forall (fun t => live t = false) l.
Proof.
  unfold registrations. induction l as [|t l IH]; simpl; intros H.
  - constructor.
  - constructor; [|apply IH; lia].
    destruct t as [? []| | | | |]; simpl in *; try done; lia.
Qed.

(** ** The cancellation signal and the closed queue stay *)

Lemma step_flags (w w' : OptimizedWorker) (t t' : thread) (b : branch)
    (sp : list thread) :
  thread_step w t b = Next w' t' sp ->
  (ctxDone w = true -> ctxDone w' = true)
  /\ (queueClosed w = true -> queueClosed w' = true).
Proof. intros H. step_cases H; done. Qed.

Lemma stop_progress_mono (w w' : OptimizedWorker) (t : thread) :
  (ctxDone w = true -> ctxDone w' = true) ->
  (queueClosed w = true -> queueClosed w' = true) ->
  stop_progress w t -> stop_progress w' t.
Proof.
  intros Hc Hq. destruct t as [| | | |[] ?|]; simpl; tauto.
Qed.

Lemma step_stop_progress (w w' : OptimizedWorker) (t t' : thread)
    (b : branch) (sp : list thread) :
  thread_step w t b = Next w' t' sp ->
  stop_progress w t ->
  stop_progress w' t' /\ Forall (stop_progress w') sp.
Proof.
  intros H Ht. step_cases H; split; auto; simpl in *;
    try (repeat constructor; done); naive_solver.
Qed.

Lemma Forall_replaced (P : thread -> Prop) (l l' : list thread)
    (t t' : thread) :
  replaced l t t' l' -> Forall P l -> P t' -> Forall P l'.
Proof.
  intros (l1 & l2 & -> & ->) Hl Ht'.
  apply Forall_app in Hl as [H1 H2]. apply Forall_cons in H2 as [_ H2].
  apply Forall_app. split; [done|]. by constructor.
Qed.

Lemma replaced_old (P : thread -> Prop) (l l' : list thread)
    (t t' : thread) :
  replaced l t t' l' -> Forall P l -> P t.
Proof.
  intros (l1 & l2 & -> & ->) Hl.
  apply Forall_app in Hl as [_ H2]. by apply Forall_cons in H2 as [? _].
Qed.

Lemma stop_progressed_step (m m' : machine) :
  crashed m = None -> transition m m' ->
  stop_progressed m -> stop_progressed m'.
Proof.
  unfold stop_progressed. intros _ Ht Hm.
  destruct Ht as [t b f _ _|t b w' t' sp l' Hs Hr|t t' l' Hf Hr
                 |s r s' r' l1 l' Hh Hr1 Hr2]; simpl.
  - done.
  - pose proof (replaced_old _ _ _ _ _ Hr Hm) as Hold.
    destruct (step_flags _ _ _ _ _ _ Hs) as [Hc Hq].
    destruct (step_stop_progress _ _ _ _ _ _ Hs Hold) as [Hnew Hsp].
    apply Forall_app. split; [|done].
    eapply Forall_replaced; [done| |done].
    eapply Forall_impl; [done|]. intros ?. by apply stop_progress_mono.
  - eapply Forall_replaced; [done|done|].
    destruct t; by simplify_eq/=.
  - eapply Forall_replaced; [done| |].
    + eapply Forall_replaced; [done|done|].
      destruct s as [| | | |[| | | | | |[|? ?]| | |] ?|]; try done.
      destruct r as [? []| | | | |]; try done. simpl in Hh.
      repeat case_match; simplify_eq. apply stop_progress_sending.
    + destruct s as [| | | |[| | | | | |[|? ?]| | |] ?|]; try done.
      destruct r as [? []| | | | |]; try done. simpl in Hh.
      repeat case_match; by simplify_eq.
Qed.

Lemma stop_progressed_boot (expectedTasks : nat) (clients : list (list call)) :
  stop_progressed (boot expectedTasks clients).
Proof.
  unfold stop_progressed, boot. simpl.
  induction clients as [|c clients IH]; simpl; constructor; auto.
Qed.

(** ** Stop waits for every goroutine of the pool *)

Lemma boot_invariants (expectedTasks : nat) (clients : list (list call))
    (sched : list event) (m : machine) :
  run sched (boot expectedTasks clients) = Some m ->
  wg_counts m /\ stop_progressed m.
Proof.
  intros Hrun.
  eapply (run_invariant (fun m => wg_counts m /\ stop_progressed m));
    [|exact Hrun|].
  - intros m1 m2 Hc Ht [H1 H2].
    split; [by eapply wg_counts_step|by eapply stop_progressed_step].
  - split; [apply wg_counts_boot|apply stop_progressed_boot].
Qed.

Lemma Wait_returns (m m' : machine) (i : nat) (b : branch)
    (rest : list call) :
  threads m !! i = Some (Client StopWait rest) ->
  exec (Run i b) m = Some m' ->
  wg (pool m) = 0
  /\ m' = mkMachine (pool m) (<[i:=next rest]> (threads m)) None.
Proof.
  intros Hi Hexec. unfold exec in Hexec. destruct (crashed m); [done|].
  rewrite Hi in Hexec. simpl in Hexec.
  destruct (Z.eqb_spec (wg (pool m)) 0) as [Hzero|]; [|done].
  simplify_eq. by rewrite app_nil_r.
Qed.

Lemma Stop_returns_progress (expectedTasks : nat)
    (clients : list (list call)) (sched : list event) (m m' : machine)
    (i : nat) (b : branch) (rest : list call) :
  run sched (boot expectedTasks clients) = Some m ->
  threads m !! i = Some (Client StopWait rest) ->
  exec (Run i b) m = Some m' ->
  ctxDone (pool m') = true /\ queueClosed (pool m') = true.
Proof.
  intros Hrun Hi Hexec.
  destruct (boot_invariants _ _ _ _ Hrun) as [_ Hstop].
  destruct (Wait_returns _ _ _ _ _ Hi Hexec) as [_ ->]. simpl.
  unfold stop_progressed in Hstop. rewrite Forall_lookup in Hstop.
  exact (Hstop _ _ Hi).
Qed.

(** C1: in every run of the optimized pool, whatever the clients call and
    however the goroutines are scheduled, when the [w.wg.Wait()] of a
    [Stop()] returns, the cancellation signal is raised, the task queue is
    closed, the wait-group counter is zero and no goroutine that the pool
    spawned (worker, helper, monitor, metrics sampler) is still running;
    the caller goes on to its next call. *)
Theorem Stop_returns_after_all_exited (expectedTasks : nat)
    (clients : list (list call)) (sched : list event) (m m' : machine)
    (i : nat) (b : branch) (rest : list call) :
  run sched (boot expectedTasks clients) = Some m ->
  threads m !! i = Some (Client StopWait rest) ->
  exec (Run i b) m = Some m' ->
  ctxDone (pool m') = true
  /\ queueClosed (pool m') = true
  /\ wg (pool m') = 0
  /\ Forall (fun t => live t = false) (threads m')
  /\ threads m' !! i = Some (next rest).
Proof.
  intros Hrun Hi Hexec.
  destruct (Stop_returns_progress _ _ _ _ _ _ _ _ Hrun Hi Hexec)
    as [Hctx Hclosed].
  destruct (boot_invariants _ _ _ _ Hrun) as [Hwg _].
  destruct (Wait_returns _ _ _ _ _ Hi Hexec) as [Hzero ->]. simpl in *.
  unfold wg_counts in Hwg. rewrite Hzero in Hwg.
  assert (Forall (fun t => live t = false) (threads m)) as Hlive
    by (apply registrations_zero; lia).
  repeat split; try done.
  - apply Forall_insert; [done|apply live_next].
  - apply list_lookup_insert_eq. by eapply lookup_lt_Some.
Qed.

Lemma Stop_returns_after_all_exited_witness :
  exists m m',
    run run_to_wait (boot 1 [demo]) = Some m
    /\ exec (Run 0 CaseDone) m = Some m'
    /\ (ctxDone (pool m') = true
        /\ queueClosed (pool m') = true
        /\ wg (pool m') = 0
        /\ Forall (fun t => live t = false) (threads m')
        /\ threads m' !! 0%nat = Some (next [])).
Proof.
  eexists _, _. split; [vm_compute; reflexivity|].
  split; [vm_compute; reflexivity|].
  eapply (Stop_returns_after_all_exited 1 [demo] run_to_wait _ _ 0 CaseDone []).
  - vm_compute; reflexivity.
  - vm_compute; reflexivity.
  - vm_compute; reflexivity.
Defined.

(** ** No task is processed twice *)

Lemma hand_start_loop (i n : Z) (rest : list call) :
  hand (Client (start_loop i n) rest) = calls_tasks rest.
Proof. unfold start_loop. by destruct (i <? n). Qed.

Lemma hand_next (rest : list call) : hand (next rest) = calls_tasks rest.
Proof.
  induction rest as [|[n|[|t ts]|] rest IH]; cbn [next]; try done.
  by rewrite hand_start_loop.
Qed.

Lemma hand_sending (ts : list Task) (rest : list call) :
  hand (sending ts rest) = ts ++ calls_tasks rest.
Proof. destruct ts; simpl; [apply hand_next|done]. Qed.

#[local] Hint Rewrite hand_start_loop hand_next hand_sending : measures.

Lemma hands_replaced (l l' : list thread) (t t' : thread) :
  replaced l t t' l' ->
  exists others,
    hands l ≡ₚ hand t ++ others /\ hands l' ≡ₚ hand t' ++ others.
Proof.
  intros (l1 & l2 & -> & ->). exists (hands l1 ++ hands l2).
  unfold hands. rewrite !map_app, !concat_app. simpl.
  split; solve_Permutation.
Qed.

Lemma step_tasks (w w' : OptimizedWorker) (t t' : thread) (b : branch)
    (sp : list thread) :
  thread_step w t b = Next w' t' sp ->
  exists new,
    results w' = results w ++ map Process new
    /\ new ++ taskQueue w' ++ hand t' ⊆+ taskQueue w ++ hand t
    /\ hands sp = [].
Proof.
  intros H. step_cases H;
    first [ eexists [_]; split; [reflexivity|]
          | exists []; split; [simpl; by rewrite app_nil_r|] ];
    (split; [|reflexivity]); autorewrite with measures; simpl;
    try match goal with H : taskQueue _ = _ |- _ => rewrite H end;
    solve_submseteq.
Qed.

Lemma fire_hand (t t' : thread) : fire t = Some t' -> hand t' = hand t.
Proof. destruct t; intros; by simplify_eq/=. Qed.

Lemma handoff_hand (w : OptimizedWorker) (s r s' r' : thread) :
  handoff w s r = Some (s', r') ->
  hand r = [] /\ hand s' ++ hand r' ≡ₚ hand s.
Proof.
  intros H.
  destruct s as [| | | |[| | | | | |[|? ?]| | |] ?|]; try done.
  destruct r as [? []| | | | |]; try done. simpl in H.
  repeat case_match; simplify_eq. rewrite hand_sending. simpl.
  split; [done|]. solve_Permutation.
Qed.

Lemma tasks_accounted_step (T : list Task) (m m' : machine) :
  crashed m = None -> transition m m' ->
  tasks_accounted T m -> tasks_accounted T m'.
Proof.
  unfold tasks_accounted. intros _ Ht (done & Hres & HT).
  destruct Ht as [t b f _ _|t b w' t' sp l' Hs Hr|t t' l' Hf Hr
                 |s r s' r' l1 l' Hh Hr1 Hr2]; simpl.
  - by exists done.
  - apply step_tasks in Hs as (new & Hres' & Hloc & Hsp).
    apply hands_replaced in Hr as (others & Hl & Hl').
    exists (done ++ new). split.
    { by rewrite Hres', Hres, map_app. }
    etrans; [|exact HT]. unfold hands in *.
    rewrite map_app, concat_app, Hsp, Hl, Hl'.
    trans (done ++ (new ++ taskQueue w' ++ hand t') ++ others).
    { apply Permutation_submseteq. solve_Permutation. }
    trans (done ++ (taskQueue (pool m) ++ hand t) ++ others).
    { apply submseteq_app; [done|]. by apply submseteq_app. }
    apply Permutation_submseteq. solve_Permutation.
  - apply fire_hand in Hf.
    apply hands_replaced in Hr as (others & Hl & Hl').
    exists done. split; [done|]. by rewrite Hl', Hf, <- Hl.
  - apply handoff_hand in Hh as [Hr0 Hsr].
    apply hands_replaced in Hr1 as (o1 & Hl & Hl1).
    apply hands_replaced in Hr2 as (o2 & Hl1' & Hl').
    exists done. split; [done|]. etrans; [|exact HT].
    rewrite Hr0 in Hl1'. simpl in Hl1'.
    rewrite Hl, Hl', <- Hsr.
    assert (o2 ≡ₚ hand s' ++ o1) as -> by (by rewrite <- Hl1', Hl1).
    apply Permutation_submseteq. solve_Permutation.
Qed.

Lemma tasks_accounted_boot (expectedTasks : nat) (clients : list (list call)) :
  tasks_accounted (concat (map calls_tasks clients))
    (boot expectedTasks clients).
Proof.
  exists []. split; [done|]. simpl. unfold hands.
  rewrite map_map.
  erewrite map_ext; [done|]. intros c. apply hand_next.
Qed.

Lemma GetResults_results (w : OptimizedWorker) : GetResults w = results w.
Proof. unfold GetResults. rewrite Nat.min_id. apply firstn_all. Qed.

(** ** The task queue is closed by every Stop *)

Lemma closes_ahead_start_loop (i n : Z) (rest : list call) :
  closes_ahead (Client (start_loop i n) rest) = calls_stops rest.
Proof. unfold start_loop. by destruct (i <? n). Qed.

Lemma closes_ahead_next (rest : list call) :
  closes_ahead (next rest) = calls_stops rest.
Proof.
  induction rest as [|[n|[|t ts]|] rest IH]; cbn [next]; try done.
  by rewrite closes_ahead_start_loop.
Qed.

Lemma closes_ahead_sending (ts : list Task) (rest : list call) :
  closes_ahead (sending ts rest) = calls_stops rest.
Proof. destruct ts; simpl; [apply closes_ahead_next|done]. Qed.

#[local] Hint Rewrite closes_ahead_start_loop closes_ahead_next
  closes_ahead_sending : measures.

Lemma closes_replaced (l l' : list thread) (t t' : thread) :
  replaced l t t' l' ->
  (sum_list_with closes_ahead l' + closes_ahead t
   = sum_list_with closes_ahead l + closes_ahead t')%nat.
Proof.
  intros (l1 & l2 & -> & ->). rewrite !sum_list_with_app. simpl. lia.
Qed.

Lemma step_closes (w w' : OptimizedWorker) (t t' : thread) (b : branch)
    (sp : list thread) :
  thread_step w t b = Next w' t' sp ->
  (closes_ahead t' + closes_done w' = closes_ahead t + closes_done w)%nat
  /\ sum_list_with closes_ahead sp = 0%nat.
Proof.
  intros H. unfold closes_done.
  step_cases H; autorewrite with measures; simpl;
    repeat match goal with H : queueClosed _ = _ |- _ => rewrite H end;
    try (destruct (queueClosed _)); split; lia.
Qed.

Lemma fire_closes (t t' : thread) :
  fire t = Some t' -> closes_ahead t' = closes_ahead t.
Proof. destruct t; intros; by simplify_eq/=. Qed.

Lemma handoff_closes (w : OptimizedWorker) (s r s' r' : thread) :
  handoff w s r = Some (s', r') ->
  closes_ahead s' = closes_ahead s /\ closes_ahead r' = closes_ahead r.
Proof.
  intros H.
  destruct s as [| | | |[| | | | | |[|? ?]| | |] ?|]; try done.
  destruct r as [? []| | | | |]; try done. simpl in H.
  repeat case_match; simplify_eq. by rewrite closes_ahead_sending.
Qed.

Lemma closes_total_step (m m' : machine) :
  crashed m = None -> transition m m' -> closes_total m' = closes_total m.
Proof.
  unfold closes_total. intros _ Ht.
  destruct Ht as [t b f _ _|t b w' t' sp l' Hs Hr|t t' l' Hf Hr
                 |s r s' r' l1 l' Hh Hr1 Hr2]; simpl.
  - done.
  - apply step_closes in Hs as [Hs Hsp]. apply closes_replaced in Hr.
    rewrite sum_list_with_app. lia.
  - apply fire_closes in Hf. apply closes_replaced in Hr. lia.
  - apply handoff_closes in Hh as [Hs' Hr'].
    apply closes_replaced in Hr1, Hr2. lia.
Qed.

Lemma closes_total_boot (expectedTasks : nat) (clients : list (list call)) :
  closes_total (boot expectedTasks clients)
  = sum_list_with calls_stops clients.
Proof.
  unfold closes_total, boot, closes_done. simpl. rewrite Nat.add_0_r.
  induction clients as [|c clients IH]; simpl; [done|].
  by rewrite closes_ahead_next, IH.
Qed.

Lemma closes_ahead_elem (t : thread) (l : list thread) :
  t ∈ l -> (closes_ahead t <= sum_list_with closes_ahead l)%nat.
Proof.
  induction 1 as [|? ? ? _ IH]; simpl; lia.
Qed.

Lemma close_panics (w : OptimizedWorker) (t : thread) (b : branch) :
  thread_step w t b = Panic CloseOfClosedChannel ->
  queueClosed w = true /\ (1 <= closes_ahead t)%nat.
Proof.
  intros H. step_cases H; simpl; split; (done || lia).
Qed.

(** When the clients call [Stop()] at most once altogether, the task queue
    is never closed twice. *)
Lemma single_Stop_closes_once (expectedTasks : nat)
    (clients : list (list call)) (sched : list event) (m : machine) :
  (sum_list_with calls_stops clients <= 1)%nat ->
  run sched (boot expectedTasks clients) = Some m ->
  crashed m <> Some CloseOfClosedChannel.
Proof.
  intros Hone Hrun.
  cut (closes_total m = sum_list_with calls_stops clients
       /\ crashed m <> Some CloseOfClosedChannel); [tauto|].
  eapply (run_invariant
            (fun m => closes_total m = sum_list_with calls_stops clients
                      /\ crashed m <> Some CloseOfClosedChannel));
    [|exact Hrun|].
  - intros m1 m2 Hc Ht [Htot Hno]. split.
    { by rewrite (closes_total_step _ _ Hc Ht). }
    destruct Ht as [t b f Hin Hp| | |]; simpl; try done.
    intros [= ->]. apply close_panics in Hp as [Hq Hge].
    apply closes_ahead_elem in Hin.
    unfold closes_total, closes_done in Htot. rewrite Hq in Htot. lia.
  - split; [apply closes_total_boot|done].
Qed.

Lemma queue_stays_closed (sched : list event) (m m' : machine) :
  run sched m = Some m' ->
  ctxDone (pool m) = true /\ queueClosed (pool m) = true ->
  ctxDone (pool m') = true /\ queueClosed (pool m') = true.
Proof.
  apply (run_invariant
           (fun m => ctxDone (pool m) = true /\ queueClosed (pool m) = true)).
  intros m1 m2 _ Ht [Hc Hq].
  destruct Ht as [| t b w' t' sp l' Hs _| |]; simpl; try done.
  apply step_flags in Hs. tauto.
Qed.

(** C4 (amended): [Stop()] is not idempotent.  The cancellation signal is
    a flag that stays raised, so cancelling again changes nothing; but in
    every run, once a call to [Stop()] has returned, any later call to
    [Stop()] that reaches its [close(w.taskQueue)] panics there with a
    close of a closed channel, and the program crashes. *)
Theorem second_Stop_panics (expectedTasks : nat)
    (clients : list (list call)) (sched1 sched2 : list event)
    (m1 m2 m3 : machine) (i j : nat) (b b' : branch)
    (rest rest' : list call) :
  run sched1 (boot expectedTasks clients) = Some m1 ->
  threads m1 !! i = Some (Client StopWait rest) ->
  exec (Run i b) m1 = Some m2 ->
  run sched2 m2 = Some m3 ->
  threads m3 !! j = Some (Client StopClose rest') ->
  crashed m3 = None ->
  cancel (pool m3) = pool m3
  /\ exec (Run j b') m3
     = Some (mkMachine (pool m3) (threads m3) (Some CloseOfClosedChannel)).
Proof.
  intros Hrun1 Hi Hret Hrun2 Hj Hok.
  destruct (Stop_returns_progress _ _ _ _ _ _ _ _ Hrun1 Hi Hret)
    as [Hc2 Hq2].
  destruct (queue_stays_closed _ _ _ Hrun2 (conj Hc2 Hq2)) as [Hc3 Hq3].
  split.
  - unfold cancel. destruct (pool m3); simpl in *. by rewrite Hc3.
  - unfold exec. rewrite Hok, Hj. simpl. by rewrite Hq3.
Qed.

Lemma second_Stop_panics_witness :
  exists m3,
    run (stop_to_wait ++ [Run 0 CaseDone] ++ stop_again)
      (boot 1 [[CallStop; CallStop]]) = Some m3
    /\ (cancel (pool m3) = pool m3
        /\ exec (Run 0 CaseDone) m3
           = Some (mkMachine (pool m3) (threads m3)
                     (Some CloseOfClosedChannel))).
Proof.
  eexists. split; [vm_compute; reflexivity|].
  eapply (second_Stop_panics 1 [[CallStop; CallStop]] stop_to_wait stop_again
            _ _ _ 0 0 CaseDone CaseDone [CallStop] []).
  - vm_compute; reflexivity.
  - vm_compute; reflexivity.
  - vm_compute; reflexivity.
  - vm_compute; reflexivity.
  - vm_compute; reflexivity.
  - vm_compute; reflexivity.
Defined.

(** C4, as stated, fails: a client that calls [Stop()] twice crashes in
    the second call, at the close of the already closed task queue. *)
Lemma Stop_twice_panics :
  ~ (forall (expectedTasks : nat) (sched : list event) (m : machine),
       run sched (boot expectedTasks [[CallStop; CallStop]]) = Some m ->
       crashed m = None).
Proof.
  intros H. specialize (H 1%nat run_stop_twice). vm_compute in H.
  specialize (H _ eq_refl). discriminate.
Qed.

(** ** ProcessTasks and a closed queue *)

(** Once the cancellation signal is raised, the [select] of
    [ProcessTasks] is never blocked: its cancellation case returns. *)
Lemma cancelled_ProcessTasks_can_return (w : OptimizedWorker) (t : Task)
    (ts : list Task) (rest : list call) :
  ctxDone w = true ->
  thread_step w (Client (Sending (t :: ts)) rest) CaseDone
  = Next w (next rest) [].
Proof. intros H. simpl. by rewrite H. Qed.

(** C5: the code departs from the claim.  A producer has sent [t1] and
    is about to send [t2]; another client starts the pool and calls
    [Stop()], which cancels and closes the queue; the producer's [select]
    now has both cases ready, and when it takes the send, [ProcessTasks]
    panics with a send on a closed channel instead of returning. *)
Theorem ProcessTasks_may_send_on_closed_queue :
  exists m,
    run run_send_on_closed (boot 1 producer_and_stopper) = Some m
    /\ threads m !! 0%nat = Some (Client (Sending [t2]) [])
    /\ ctxDone (pool m) = true
    /\ crashed m = Some SendOnClosedChannel.
Proof. eexists. split; [vm_compute; reflexivity|]. by vm_compute. Qed.

(** ** Cancellation and the periodic goroutines *)

Lemma registered_elem (t : thread) (l : list thread) :
  t ∈ l -> (registered t <= registrations l)%nat.
Proof.
  unfold registrations. induction 1 as [|? ? ? _ IH]; simpl; lia.
Qed.

(** In every run, once the cancellation signal is raised, a helper, the
    monitor and the metrics sampler are never blocked at their [select]:
    the cancellation case can be taken, and taking it ends the
    goroutine. *)
Lemma cancelled_periodic_can_exit (expectedTasks : nat)
    (clients : list (list call)) (sched : list event) (m : machine)
    (i : nat) (t : thread) :
  run sched (boot expectedTasks clients) = Some m ->
  crashed m = None ->
  ctxDone (pool m) = true ->
  threads m !! i = Some t ->
  periodic t = true ->
  exists m',
    exec (Run i CaseDone) m = Some m'
    /\ threads m' !! i = Some Exited
    /\ crashed m' = None.
Proof.
  intros Hrun Hok Hctx Hi Hp.
  destruct (boot_invariants _ _ _ _ Hrun) as [Hwg _].
  unfold wg_counts in Hwg.
  assert (1 <= wg (pool m)) as Hpos.
  { pose proof (registered_elem t (threads m)
                  (list_elem_of_lookup_2 _ _ _ Hi)).
    destruct t; try done; simpl in *; lia. }
  assert (thread_step (pool m) t CaseDone
          = Next (set_wg (pool m) (wg (pool m) + -1)) Exited []) as Hs.
  { destruct t; try done; simpl; unfold wg_Done, wg_Add; rewrite Hctx;
      by destruct (Z.ltb_spec (wg (pool m) + -1) 0); [lia|]. }
  eexists. unfold exec. rewrite Hok, Hi, Hs. split; [done|]. simpl.
  split; [|done]. rewrite app_nil_r.
  apply list_lookup_insert_eq. by eapply lookup_lt_Some.
Qed.

(** A periodic goroutine whose ticker has no tick pending can only take
    the cancellation case, and only when the signal is raised. *)
Lemma idle_periodic_only_cancel (w w' : OptimizedWorker) (t t' : thread)
    (b : branch) (sp : list thread) :
  periodic t = true ->
  tick_pending t = false ->
  thread_step w t b = Next w' t' sp ->
  b = CaseDone /\ ctxDone w = true /\ t' = Exited /\ sp = [].
Proof.
  intros Hp Htick H. destruct t; try done; simpl in Htick; subst;
    destruct b; simpl in H; unfold wg_Done, wg_Add in H;
    repeat case_match; by simplify_eq.
Qed.

(** * Further properties of the task package *)

(** ** Wrap-around arithmetic *)

Lemma wrap_mod (z : Z) : wrap z mod 2 ^ int_bits = z mod 2 ^ int_bits.
Proof.
  unfold wrap, int_bits. change (64 - 1) with 63.
  rewrite Zminus_mod, Zmod_mod, <- Zminus_mod.
  by replace (z + 2 ^ 63 - 2 ^ 63) with z by lia.
Qed.

Lemma wrap_congr (a b : Z) :
  a mod 2 ^ int_bits = b mod 2 ^ int_bits -> wrap a = wrap b.
Proof.
  intros H. unfold wrap.
  rewrite (Zplus_mod a), (Zplus_mod b), H. done.
Qed.

Lemma wrap_in_int (z : Z) : in_int z -> wrap z = z.
Proof.
  unfold in_int, wrap, int_bits. change (64 - 1) with 63. intros H.
  rewrite Z.mod_small; lia.
Qed.

Lemma wrap_range (z : Z) : in_int (wrap z).
Proof.
  unfold in_int, wrap, int_bits. change (64 - 1) with 63.
  pose proof (Z.mod_pos_bound (z + 2 ^ 63) (2 ^ 64)). lia.
Qed.

Lemma wrap_add_l (a b : Z) : wrap (wrap a + b) = wrap (a + b).
Proof.
  apply wrap_congr. by rewrite Zplus_mod, wrap_mod, <- Zplus_mod.
Qed.

Lemma wrap_add_r (a b : Z) : wrap (a + wrap b) = wrap (a + b).
Proof. by rewrite Z.add_comm, wrap_add_l, Z.add_comm. Qed.

Lemma wrap_mul_l (a b : Z) : wrap (wrap a * b) = wrap (a * b).
Proof.
  apply wrap_congr. by rewrite Zmult_mod, wrap_mod, <- Zmult_mod.
Qed.

Lemma wrap_even (z : Z) : Z.even (wrap z) = Z.even z.
Proof.
  assert (2 | 2 ^ int_bits) as Hdiv by (by exists (2 ^ 63)).
  rewrite !Zeven_mod. f_equal.
  rewrite <- (Z.mod_mod_divide (wrap z) _ _ Hdiv), wrap_mod.
  by apply Z.mod_mod_divide.
Qed.

Lemma sum_loop_acc (data : list Z) (acc : Z) :
  fold_left (fun sum v => wrap (sum + v)) data (wrap acc)
  = wrap (acc + Zsum data).
Proof.
  revert acc. induction data as [|v data IH]; intros acc; simpl.
  - by rewrite Z.add_0_r.
  - rewrite wrap_add_l, IH. f_equal. lia.
Qed.

Lemma product_loop_acc (data : list Z) (acc : Z) :
  fold_left (fun product v => wrap (product * v)) data (wrap acc)
  = wrap (acc * Zprod data).
Proof.
  revert acc. induction data as [|v data IH]; intros acc; simpl.
  - by rewrite Z.mul_1_r.
  - rewrite wrap_mul_l, IH. f_equal. lia.
Qed.

Lemma Zprod_zero (l : list Z) : 0 ∈ l -> Zprod l = 0.
Proof.
  induction l as [|v l IH]; intros H.
  - by apply elem_of_nil in H.
  - apply elem_of_cons in H as [<-|H]; simpl; [done|]. rewrite IH; [lia|done].
Qed.

(** ** Sum and Multiply *)

Lemma Process_sum_value (t : Task) :
  Operation t = OperationSum ->
  Value (Process t) = Int (wrap (Zsum (Data t))).
Proof.
  intros Hop. unfold Process. rewrite Hop. simpl. unfold sum_loop.
  change 0 with (wrap 0) at 1. by rewrite sum_loop_acc.
Qed.

(** X1: for a Sum task, [Process] returns the sum of the data reduced to
    a 64-bit two's complement [int]; it is the exact sum when that is in
    the range of [int]. *)
Theorem Process_sum_wraps (t : Task) :
  Operation t = OperationSum ->
  Value (Process t) = Int (wrap (Zsum (Data t)))
  /\ (in_int (Zsum (Data t)) -> Value (Process t) = Int (Zsum (Data t))).
Proof.
  intros Hop. pose proof (Process_sum_value t Hop) as H.
  split; [done|]. intros Hr. by rewrite H, wrap_in_int.
Qed.

Lemma Process_sum_wraps_witness :
  Value (Process (mkTask 1 [2 ^ 62; 2 ^ 62; 5] OperationSum))
  = Int (wrap (Zsum [2 ^ 62; 2 ^ 62; 5])).
Proof.
  exact (proj1 (Process_sum_wraps
                  (mkTask 1 [2 ^ 62; 2 ^ 62; 5] OperationSum) eq_refl)).
Defined.

(** X2: for a Multiply task, [Process] returns the product of the data
    reduced to a 64-bit two's complement [int] (there is no overflow
    guard); the exact product when that is in range; and 0 as soon as one
    element is 0. *)
Theorem Process_multiply_wraps (t : Task) :
  Operation t = OperationMultiply ->
  Value (Process t) = Int (wrap (Zprod (Data t)))
  /\ (in_int (Zprod (Data t)) -> Value (Process t) = Int (Zprod (Data t)))
  /\ (0 ∈ Data t -> Value (Process t) = Int 0).
Proof.
  intros Hop.
  assert (Value (Process t) = Int (wrap (Zprod (Data t)))) as H.
  { unfold Process. rewrite Hop. simpl. unfold product_loop.
    change 1 with (wrap 1) at 1. rewrite product_loop_acc.
    by rewrite Z.mul_1_l. }
  split; [done|]. split.
  - intros Hr. by rewrite H, wrap_in_int.
  - intros H0. by rewrite H, Zprod_zero.
Qed.

Lemma Process_multiply_wraps_witness :
  Value (Process (mkTask 1 [2 ^ 40; 2 ^ 40; 3] OperationMultiply))
    = Int (wrap (Zprod [2 ^ 40; 2 ^ 40; 3]))
  /\ Value (Process (mkTask 1 [3; 0; 7] OperationMultiply)) = Int 0.
Proof.
  split.
  - exact (proj1 (Process_multiply_wraps
                    (mkTask 1 [2 ^ 40; 2 ^ 40; 3] OperationMultiply)
                    eq_refl)).
  - destruct (Process_multiply_wraps (mkTask 1 [3; 0; 7] OperationMultiply)
                eq_refl) as (_ & _ & H).
    apply H. apply list_elem_of_further, list_elem_of_here.
Defined.

(** ** Square *)

Lemma square_exact (v : Z) :
  Z.abs v <= sqrt_max_int -> wrap (v * v) = v * v /\ 0 <= v * v.
Proof.
  unfold sqrt_max_int. intros H. split; [|nia].
  apply wrap_in_int. unfold in_int, int_bits. change (64 - 1) with 63.
  assert (v * v <= 3037000499 * 3037000499) by nia. split; [nia|lia].
Qed.

(** X3: for a Square task, [Process] returns a sequence as long as the
    data, every entry in the range of [int]; the entry at the place of a
    [v] of magnitude at most 3037000499 is exactly [v*v], hence not
    negative. *)
Theorem Process_square_entries (t : Task) :
  Operation t = OperationSquare ->
  exists l,
    Value (Process t) = Ints l
    /\ length l = length (Data t)
    /\ Forall in_int l
    /\ (forall (i : nat) (v : Z),
          Data t !! i = Some v -> Z.abs v <= sqrt_max_int ->
          l !! i = Some (v * v) /\ 0 <= v * v).
Proof.
  intros Hop. exists (squares_loop (Data t)). split; [|split; [|split]].
  - unfold Process. by rewrite Hop.
  - apply length_map.
  - unfold squares_loop. apply Forall_forall. intros x Hx.
    apply list_elem_of_In, in_map_iff in Hx as (v & <- & _).
    apply wrap_range.
  - intros i v Hi Hv. destruct (square_exact v Hv) as [Hw Hpos].
    split; [|done]. unfold squares_loop.
    change (map ?f ?l) with (f <$> l). by rewrite list_lookup_fmap, Hi, <- Hw.
Qed.

Lemma Process_square_entries_witness :
  exists l,
    Value (Process (mkTask 1 [-3; 3037000499] OperationSquare)) = Ints l
    /\ length l = 2%nat
    /\ Forall in_int l
    /\ (forall (i : nat) (v : Z),
          [-3; 3037000499] !! i = Some v -> Z.abs v <= sqrt_max_int ->
          l !! i = Some (v * v) /\ 0 <= v * v).
Proof.
  exact (Process_square_entries (mkTask 1 [-3; 3037000499] OperationSquare)
           eq_refl).
Defined.

(** ** Filter *)

Lemma filter_even_idem (l : list Z) :
  List.filter Z.even (List.filter Z.even l) = List.filter Z.even l.
Proof.
  induction l as [|v l IH]; simpl; [done|].
  destruct (Z.even v) eqn:Hv; simpl; [|done]. by rewrite Hv, IH.
Qed.

Lemma filter_even_all (l : list Z) :
  Forall (fun v => Z.even v = true) (List.filter Z.even l).
Proof.
  apply Forall_forall. intros v Hv.
  by apply list_elem_of_In, filter_In in Hv as [_ ?].
Qed.

(** X4: the result of a Filter task holds even numbers only, and
    filtering it again (as the data of another Filter task) gives it
    back. *)
Theorem Process_filter_idempotent (t : Task) (l : list Z) (id' : Z) :
  Operation t = OperationFilter ->
  Value (Process t) = Ints l ->
  Forall (fun v => Z.even v = true) l
  /\ Value (Process (mkTask id' l OperationFilter)) = Ints l.
Proof.
  intros Hop Hv.
  destruct (Process_filter_sound t Hop) as [Hl _].
  rewrite Hl in Hv. injection Hv as <-. split.
  - apply filter_even_all.
  - destruct (Process_filter_sound
                (mkTask id' (List.filter Z.even (Data t)) OperationFilter)
                eq_refl) as [-> _].
    simpl. by rewrite filter_even_idem.
Qed.

Lemma Process_filter_idempotent_witness :
  Forall (fun v => Z.even v = true) [2; -4; 6]
  /\ Value (Process (mkTask 9 [2; -4; 6] OperationFilter)) = Ints [2; -4; 6].
Proof.
  exact (Process_filter_idempotent
           (mkTask 1 [1; 2; -4; 5; 6] OperationFilter) [2; -4; 6] 9
           eq_refl eq_refl).
Defined.

(** X5: squaring and filtering commute: the even entries of the squares
    of the data are the squares of the even entries of the data, also
    where a square wraps around. *)
Theorem Process_square_filter_commute (data : list Z) (id id' : Z) :
  Value (Process (mkTask id (squares_loop data) OperationFilter))
  = Value (Process (mkTask id' (filter_loop data) OperationSquare)).
Proof.
  unfold Process. simpl. f_equal.
  rewrite !filter_loop_filter. unfold squares_loop.
  induction data as [|v data IH]; simpl; [done|].
  rewrite wrap_even, Z.even_mul, orb_diag.
  destruct (Z.even v); simpl; by rewrite IH.
Qed.

(** ** NewTask *)

Lemma NewTask_entry_range (id i : Z) :
  -100 < Z.rem (wrap (wrap (i * 7) + wrap (id * 3))) 100 < 100.
Proof.
  pose proof (Z.rem_bound_abs (wrap (wrap (i * 7) + wrap (id * 3))) 100).
  lia.
Qed.

Lemma NewTask_entry_exact (id i n : Z) :
  0 <= id -> 0 <= i < n -> 3 * id + 7 * n < 2 ^ 63 ->
  Z.rem (wrap (wrap (i * 7) + wrap (id * 3))) 100 = (7 * i + 3 * id) mod 100.
Proof.
  intros Hid Hi Hn.
  rewrite wrap_add_l, wrap_add_r, wrap_in_int.
  - rewrite Z.rem_mod_nonneg; [f_equal|..]; lia.
  - unfold in_int, int_bits. change (64 - 1) with 63. lia.
Qed.

Lemma NewTask_panics (id dataSize : Z) (op : OperationType) :
  NewTask id dataSize op = None <-> dataSize < 0 \/ 2 ^ 45 < dataSize.
Proof.
  unfold NewTask, maxAlloc, int_bits. change (64 / 8) with 8.
  destruct (Z.ltb_spec dataSize 0), (Z.ltb_spec (2 ^ 48) (dataSize * 8));
    simpl; split; try done; try lia; intros [?|?]; lia.
Qed.

Lemma NewTask_some (id dataSize : Z) (op : OperationType) (t : Task) :
  NewTask id dataSize op = Some t ->
  0 <= dataSize
  /\ t = mkTask id
           (map (fun i => Z.rem (wrap (wrap (i * 7) + wrap (id * 3))) 100)
              (seqZ 0 dataSize))
           op.
Proof.
  unfold NewTask. destruct (Z.ltb_spec dataSize 0); [done|]. simpl.
  destruct (maxAlloc <? dataSize * (int_bits / 8)); [done|].
  by intros [= <-].
Qed.

(** X6: [NewTask] panics on a negative size and on one above [2^45] (more
    than [maxAlloc] bytes); whenever it returns, the size is within these
    bounds and the task has the given ID and operation and exactly
    [dataSize] entries, each strictly between -100 and 100. *)
Theorem NewTask_shape (id dataSize : Z) (op : OperationType) :
  (dataSize < 0 \/ 2 ^ 45 < dataSize -> NewTask id dataSize op = None)
  /\ (forall t,
        NewTask id dataSize op = Some t ->
        0 <= dataSize <= 2 ^ 45
        /\ ID t = id
        /\ Operation t = op
        /\ length (Data t) = Z.to_nat dataSize
        /\ Forall (fun v => -100 < v < 100) (Data t)).
Proof.
  split.
  - apply NewTask_panics.
  - intros t Hnew.
    assert (0 <= dataSize <= 2 ^ 45) as Hsize.
    { destruct (decide (dataSize < 0 \/ 2 ^ 45 < dataSize)) as [Hout|Hin];
        [|lia].
      apply (NewTask_panics id dataSize op) in Hout. congruence. }
    apply NewTask_some in Hnew as [_ ->]. simpl. repeat split; try lia.
    + by rewrite length_map, length_seqZ.
    + apply Forall_forall. intros x Hx.
      apply list_elem_of_In, in_map_iff in Hx as (i & <- & _).
      apply NewTask_entry_range.
Qed.

Lemma NewTask_shape_witness :
  NewTask 4 (-1) OperationSum = None
  /\ NewTask 4 (2 ^ 45 + 1) OperationSum = None
  /\ exists t,
       NewTask 4 3 OperationSum = Some t
       /\ 0 <= 3 <= 2 ^ 45
       /\ ID t = 4
       /\ Operation t = OperationSum
       /\ length (Data t) = Z.to_nat 3
       /\ Forall (fun v => -100 < v < 100) (Data t).
Proof.
  split; [|split].
  - apply (proj1 (NewTask_shape 4 (-1) OperationSum)). left. reflexivity.
  - apply (proj1 (NewTask_shape 4 (2 ^ 45 + 1) OperationSum)). right.
    reflexivity.
  - eexists. split; [reflexivity|].
    apply (proj2 (NewTask_shape 4 3 OperationSum)). reflexivity.
Defined.

Lemma NewTask_lookup (id dataSize : Z) (op : OperationType) (t : Task)
    (i : nat) :
  NewTask id dataSize op = Some t ->
  0 <= id ->
  3 * id + 7 * dataSize < 2 ^ 63 ->
  (i < Z.to_nat dataSize)%nat ->
  Data t !! i = Some ((7 * Z.of_nat i + 3 * id) mod 100)
  /\ 0 <= (7 * Z.of_nat i + 3 * id) mod 100 < 100.
Proof.
  intros Hnew Hid Hn Hi. apply NewTask_some in Hnew as [Hsize ->]. simpl.
  split; [|by apply Z.mod_pos_bound].
  change (map ?f ?l) with (f <$> l).
  rewrite list_lookup_fmap, lookup_seqZ_lt by lia. simpl. f_equal.
  rewrite Z.add_0_l. apply (NewTask_entry_exact id _ dataSize); lia.
Qed.

(** X7: for an ID that is not negative and sizes that do not overflow,
    entry [i] of the data of [NewTask] is [(7*i + 3*id) mod 100], a number
    from 0 to 99. *)
Theorem NewTask_data (id dataSize : Z) (op : OperationType) (t : Task)
    (i : nat) :
  NewTask id dataSize op = Some t ->
  0 <= id ->
  3 * id + 7 * dataSize < 2 ^ 63 ->
  (i < Z.to_nat dataSize)%nat ->
  Data t !! i = Some ((7 * Z.of_nat i + 3 * id) mod 100)
  /\ 0 <= (7 * Z.of_nat i + 3 * id) mod 100 < 100.
Proof.
  apply NewTask_lookup.
Qed.

Lemma NewTask_data_witness :
  exists t,
    NewTask 4 3 OperationSum = Some t
    /\ Data t !! 2%nat = Some ((7 * Z.of_nat 2 + 3 * 4) mod 100).
Proof.
  eexists. split; [reflexivity|].
  refine (proj1 (NewTask_data 4 3 OperationSum _ 2 eq_refl _ _ _)).
  - discriminate.
  - reflexivity.
  - vm_compute. lia.
Defined.

Lemma Zsum_bounds (l : list Z) (hi : Z) :
  Forall (fun v => 0 <= v <= hi) l ->
  0 <= Zsum l <= hi * Z.of_nat (length l).
Proof.
  induction 1 as [|v l Hv _ IH]; simpl; lia.
Qed.

(** X8: the Sum of a task made by [NewTask] (ID not negative, sizes
    without overflow) is the exact sum of its data, between 0 and
    [99 * dataSize]. *)
Theorem Process_NewTask_sum (id dataSize : Z) (t : Task) :
  NewTask id dataSize OperationSum = Some t ->
  0 <= id ->
  3 * id + 7 * dataSize < 2 ^ 63 ->
  99 * dataSize < 2 ^ 63 ->
  Value (Process t) = Int (Zsum (Data t))
  /\ 0 <= Zsum (Data t) <= 99 * dataSize.
Proof.
  intros Hnew Hid Hn Hbig.
  destruct (NewTask_some _ _ _ _ Hnew) as [Hsize Ht].
  assert (Operation t = OperationSum) as Hop by (by subst t).
  assert (length (Data t) = Z.to_nat dataSize) as Hlen
    by (subst t; simpl; by rewrite length_map, length_seqZ).
  assert (Forall (fun v => 0 <= v <= 99) (Data t)) as Hall.
  { apply Forall_lookup. intros i v Hiv.
    assert (i < Z.to_nat dataSize)%nat as Hi
      by (rewrite <- Hlen; by eapply lookup_lt_Some).
    destruct (NewTask_lookup id dataSize OperationSum t i Hnew Hid Hn Hi)
      as [Hd Hr].
    rewrite Hd in Hiv. injection Hiv as <-. lia. }
  apply Zsum_bounds in Hall. rewrite Hlen in Hall.
  assert (0 <= Zsum (Data t) <= 99 * dataSize) as Hb by lia.
  split; [|done].
  rewrite (Process_sum_value t Hop), wrap_in_int; [done|].
  unfold in_int, int_bits. change (64 - 1) with 63. lia.
Qed.

Lemma Process_NewTask_sum_witness :
  exists t,
    NewTask 4 3 OperationSum = Some t
    /\ Value (Process t) = Int (Zsum (Data t))
    /\ 0 <= Zsum (Data t) <= 99 * 3.
Proof.
  eexists. split; [reflexivity|].
  refine (Process_NewTask_sum 4 3 _ eq_refl _ _ _).
  - discriminate.
  - reflexivity.
  - reflexivity.
Defined.

(** * Further properties of the optimized worker *)

Ltac ltb_facts :=
  repeat match goal with
    | H : (_ <? _) = true |- _ => apply Z.ltb_lt in H
    | H : (_ <? _) = false |- _ => apply Z.ltb_ge in H
    | H : (_ <? _)%nat = true |- _ => apply Nat.ltb_lt in H
    | H : (_ <? _)%nat = false |- _ => apply Nat.ltb_ge in H
    | H : (_ =? _) = true |- _ => apply Z.eqb_eq in H
    | H : (_ =? _) = false |- _ => apply Z.eqb_neq in H
    end.

(** ** The wait-group counter never goes negative *)

Lemma negative_panics (w : OptimizedWorker) (t : thread) (b : branch) :
  thread_step w t b = Panic NegativeWaitGroupCounter ->
  wg w < Z.of_nat (registered t).
Proof. intros H. step_cases H; ltb_facts; simpl; lia. Qed.

(** X9: in every run of the optimized pool the wait-group counter is
    never negative, and no [Add] or [Done] ever panics with a negative
    counter: every [Done] is preceded by its [Add(1)]. *)
Theorem wait_group_never_negative (expectedTasks : nat)
    (clients : list (list call)) (sched : list event) (m : machine) :
  run sched (boot expectedTasks clients) = Some m ->
  0 <= wg (pool m) /\ crashed m <> Some NegativeWaitGroupCounter.
Proof.
  intros Hrun.
  cut (wg_counts m /\ crashed m <> Some NegativeWaitGroupCounter).
  { unfold wg_counts. intros [-> ?]. split; [lia|done]. }
  eapply (run_invariant
            (fun m => wg_counts m
                      /\ crashed m <> Some NegativeWaitGroupCounter));
    [|exact Hrun|].
  - intros m1 m2 Hc Ht [Hwg Hno]. split; [by eapply wg_counts_step|].
    destruct Ht as [t b f Hin Hp| | |]; simpl; try done.
    intros [= ->]. apply negative_panics in Hp.
    apply registered_elem in Hin. unfold wg_counts in Hwg. lia.
  - split; [apply wg_counts_boot|done].
Qed.

Lemma wait_group_never_negative_witness :
  exists m,
    run run_complete (boot 1 [demo]) = Some m
    /\ (0 <= wg (pool m) /\ crashed m <> Some NegativeWaitGroupCounter).
Proof.
  eexists. split; [vm_compute; reflexivity|].
  eapply (wait_group_never_negative 1 [demo] run_complete).
  vm_compute; reflexivity.
Defined.

(** ** The queue stays within its capacity *)

Lemma step_capacity (w w' : OptimizedWorker) (t t' : thread) (b : branch)
    (sp : list thread) :
  thread_step w t b = Next w' t' sp ->
  queueCap w' = queueCap w
  /\ ((length (taskQueue w) <= queueCap w)%nat ->
      (length (taskQueue w') <= queueCap w')%nat).
Proof.
  intros H. step_cases H; ltb_facts; simpl; (split; [done|]); intros Hl;
    rewrite ?length_app;
    try match goal with H : taskQueue _ = _ |- _ => rewrite H in * end;
    simpl in *; lia.
Qed.

(** X10: in every run the task queue keeps the capacity it was made with
    and never holds more tasks than that; a pool made with capacity 0
    never buffers a task. *)
Theorem queue_within_capacity (expectedTasks : nat)
    (clients : list (list call)) (sched : list event) (m : machine) :
  run sched (boot expectedTasks clients) = Some m ->
  queueCap (pool m) = expectedTasks
  /\ (length (taskQueue (pool m)) <= expectedTasks)%nat
  /\ (expectedTasks = 0%nat -> taskQueue (pool m) = []).
Proof.
  intros Hrun.
  cut (queueCap (pool m) = expectedTasks
       /\ (length (taskQueue (pool m)) <= queueCap (pool m))%nat).
  { intros [Hc Hl]. rewrite Hc in Hl. repeat split; try done.
    intros ->. destruct (taskQueue (pool m)); [done|simpl in Hl; lia]. }
  eapply (run_invariant
            (fun m => queueCap (pool m) = expectedTasks
                      /\ (length (taskQueue (pool m)) <= queueCap (pool m))%nat));
    [|exact Hrun|].
  - intros m1 m2 _ Ht [Hc Hl].
    destruct Ht as [| t b w' t' sp l' Hs _| |]; simpl; try done.
    apply step_capacity in Hs as [Hc' Hl']. split; [congruence|auto].
  - simpl. split; [done|lia].
Qed.

Lemma queue_within_capacity_witness :
  exists m,
    run run_lossy (boot 1 [demo]) = Some m
    /\ (queueCap (pool m) = 1%nat
        /\ (length (taskQueue (pool m)) <= 1)%nat
        /\ (1%nat = 0%nat -> taskQueue (pool m) = [])).
Proof.
  eexists. split; [vm_compute; reflexivity|].
  eapply (queue_within_capacity 1 [demo] run_lossy).
  vm_compute; reflexivity.
Defined.

(** ** Results and submitted tasks, for any number of producers *)

Lemma tasks_accounted_run (expectedTasks : nat) (clients : list (list call))
    (sched : list event) (m : machine) :
  run sched (boot expectedTasks clients) = Some m ->
  tasks_accounted (concat (map calls_tasks clients)) m.
Proof.
  intros Hrun. eapply (run_invariant (tasks_accounted _)); [|exact Hrun|].
  - intros m1 m2. apply tasks_accounted_step.
  - apply tasks_accounted_boot.
Qed.

(** X11: whatever the clients call and however many of them submit tasks
    concurrently, at every point of every run the results are the results
    of distinct submitted tasks: there are never more results than
    submitted tasks, and the TaskIDs of the results are among the IDs of
    the submitted tasks, each as often at most as it was submitted. *)
Theorem results_bounded_by_submitted (expectedTasks : nat)
    (clients : list (list call)) (sched : list event) (m : machine) :
  run sched (boot expectedTasks clients) = Some m ->
  exists done,
    GetResults (pool m) = map Process done
    /\ done ⊆+ concat (map calls_tasks clients)
    /\ map TaskID (GetResults (pool m))
       ⊆+ map ID (concat (map calls_tasks clients))
    /\ (length (GetResults (pool m))
        <= length (concat (map calls_tasks clients)))%nat.
Proof.
  intros Hrun.
  destruct (tasks_accounted_run _ _ _ _ Hrun) as (done & Hres & HT).
  assert (done ⊆+ concat (map calls_tasks clients)) as Hsub.
  { etrans; [|exact HT]. by apply submseteq_inserts_r. }
  exists done. rewrite GetResults_results, Hres.
  repeat split; try done.
  - rewrite map_map.
    erewrite map_ext; [|intros a; apply Process_TaskID].
    change (map ID ?l) with (ID <$> l). by apply fmap_submseteq.
  - rewrite length_map. by apply submseteq_length.
Qed.

Lemma results_bounded_by_submitted_witness :
  exists m done,
    run run_send_on_closed (boot 1 producer_and_stopper) = Some m
    /\ GetResults (pool m) = map Process done
    /\ done ⊆+ concat (map calls_tasks producer_and_stopper).
Proof.
  eexists.
  destruct (results_bounded_by_submitted 1 producer_and_stopper
              run_send_on_closed _ eq_refl) as (done & H1 & H2 & _).
  exists done. split; [reflexivity|]. by split.
Defined.

(** ** No task is lost before the pool is cancelled *)

Lemma step_tasks_kept (w w' : OptimizedWorker) (t t' : thread) (b : branch)
    (sp : list thread) :
  thread_step w t b = Next w' t' sp ->
  ctxDone w' = false ->
  ctxDone w = false
  /\ exists new,
       results w' = results w ++ map Process new
       /\ new ++ taskQueue w' ++ hand t' ≡ₚ taskQueue w ++ hand t
       /\ hands sp = [].
Proof.
  intros H Hc. step_cases H; simpl in Hc; try congruence; (split; [done|]);
    first [ eexists [_]; split; [reflexivity|]
          | exists []; split; [simpl; by rewrite app_nil_r|] ];
    (split; [|reflexivity]); autorewrite with measures; simpl;
    try match goal with H : taskQueue _ = _ |- _ => rewrite H end;
    solve_Permutation.
Qed.

Lemma tasks_kept_step (T : list Task) (m m' : machine) :
  crashed m = None -> transition m m' -> tasks_kept T m -> tasks_kept T m'.
Proof.
  unfold tasks_kept. intros _ Ht Hm.
  destruct Ht as [t b f _ _|t b w' t' sp l' Hs Hr|t t' l' Hf Hr
                 |s r s' r' l1 l' Hh Hr1 Hr2]; simpl; intros Hc.
  - auto.
  - destruct (step_tasks_kept _ _ _ _ _ _ Hs Hc)
      as (Hc0 & new & Hres' & Hloc & Hsp).
    destruct (Hm Hc0) as (done & Hres & HT).
    apply hands_replaced in Hr as (others & Hl & Hl').
    exists (done ++ new). split.
    { by rewrite Hres', Hres, map_app. }
    rewrite <- HT. unfold hands in *.
    rewrite map_app, concat_app, Hsp, Hl, Hl'.
    trans (done ++ (new ++ taskQueue w' ++ hand t') ++ others);
      [solve_Permutation|].
    rewrite Hloc. solve_Permutation.
  - destruct (Hm Hc) as (done & Hres & HT).
    apply fire_hand in Hf.
    apply hands_replaced in Hr as (others & Hl & Hl').
    exists done. split; [done|]. by rewrite Hl', Hf, <- Hl.
  - destruct (Hm Hc) as (done & Hres & HT).
    apply handoff_hand in Hh as [Hr0 Hsr].
    apply hands_replaced in Hr1 as (o1 & Hl & Hl1).
    apply hands_replaced in Hr2 as (o2 & Hl1' & Hl').
    exists done. split; [done|]. rewrite <- HT.
    rewrite Hr0 in Hl1'. simpl in Hl1'.
    rewrite Hl, Hl', <- Hsr.
    assert (o2 ≡ₚ hand s' ++ o1) as -> by (by rewrite <- Hl1', Hl1).
    solve_Permutation.
Qed.

(** X12: until the cancellation signal is raised no submitted task is
    lost and none is duplicated: at every point of every run in which the
    pool is not cancelled, each submitted task is exactly once either
    still to be sent by its client, in the queue, held by a worker, or
    has its result in the results. *)
Theorem no_task_lost_before_cancel (expectedTasks : nat)
    (clients : list (list call)) (sched : list event) (m : machine) :
  run sched (boot expectedTasks clients) = Some m ->
  ctxDone (pool m) = false ->
  exists done,
    GetResults (pool m) = map Process done
    /\ done ++ taskQueue (pool m) ++ hands (threads m)
       ≡ₚ concat (map calls_tasks clients)
    /\ (length (GetResults (pool m)) + length (taskQueue (pool m))
        + length (hands (threads m))
        = length (concat (map calls_tasks clients)))%nat.
Proof.
  intros Hrun Hc.
  assert (tasks_kept (concat (map calls_tasks clients)) m) as Hk.
  { eapply (run_invariant (tasks_kept _)); [|exact Hrun|].
    - intros m1 m2. apply tasks_kept_step.
    - intros _. exists []. split; [done|]. simpl. unfold hands.
      rewrite map_map.
      erewrite map_ext; [done|]. intros c. apply hand_next. }
  destruct (Hk Hc) as (done & Hres & HT).
  exists done. rewrite GetResults_results. repeat split; try done.
  rewrite <- HT, Hres, length_map, !length_app. lia.
Qed.

Lemma no_task_lost_before_cancel_witness :
  exists m done,
    run (start_one ++ [Run 0 CaseQueue; Run 1 CaseQueue; Run 1 CaseDone])
      (boot 1 [demo]) = Some m
    /\ GetResults (pool m) = map Process done
    /\ (length (GetResults (pool m)) + length (taskQueue (pool m))
        + length (hands (threads m)) = 1)%nat.
Proof.
  eexists.
  destruct (no_task_lost_before_cancel 1 [demo]
              (start_one ++ [Run 0 CaseQueue; Run 1 CaseQueue; Run 1 CaseDone])
              _ eq_refl eq_refl) as (done & H1 & _ & H3).
  exists done. split; [reflexivity|]. by split.
Defined.

(** ** A queue as large as the submitted tasks never blocks a sender *)

Lemma hand_elem (t : thread) (l : list thread) :
  t ∈ l -> (length (hand t) <= length (hands l))%nat.
Proof.
  unfold hands. induction l as [|x l IH]; intros H.
  - by apply elem_of_nil in H.
  - simpl. rewrite length_app.
    apply elem_of_cons in H as [<-|H]; [lia|]. apply IH in H. lia.
Qed.

(** X13: when the queue was made as large as the number of tasks all
    clients submit ([expectedTasks] is at least that number), the send of
    [ProcessTasks] finds room at every point of every run: it is never
    blocked, and on an open queue it enqueues the task at the back. *)
Theorem ProcessTasks_never_blocks_within_capacity (expectedTasks : nat)
    (clients : list (list call)) (sched : list event) (m : machine)
    (i : nat) (t : Task) (ts : list Task) (rest : list call) :
  (length (concat (map calls_tasks clients)) <= expectedTasks)%nat ->
  run sched (boot expectedTasks clients) = Some m ->
  threads m !! i = Some (Client (Sending (t :: ts)) rest) ->
  thread_step (pool m) (Client (Sending (t :: ts)) rest) CaseQueue <> Blocked
  /\ (queueClosed (pool m) = false ->
      thread_step (pool m) (Client (Sending (t :: ts)) rest) CaseQueue
      = Next (set_queue (pool m) (taskQueue (pool m) ++ [t]))
          (sending ts rest) []).
Proof.
  intros Hcap Hrun Hi.
  destruct (tasks_accounted_run _ _ _ _ Hrun) as (done & _ & HT).
  apply submseteq_length in HT. rewrite !length_app in HT.
  pose proof (hand_elem _ _ (list_elem_of_lookup_2 _ _ _ Hi)) as Hh.
  simpl in Hh.
  assert (queueCap (pool m) = expectedTasks) as Hq.
  { eapply (run_invariant (fun m => queueCap (pool m) = expectedTasks));
      [|exact Hrun|done].
    intros m1 m2 _ Ht Hc.
    destruct Ht as [| ? ? ? ? ? ? Hs _| |]; simpl; try done.
    apply step_capacity in Hs as [Hc' _]. congruence. }
  assert ((length (taskQueue (pool m)) <? queueCap (pool m))%nat = true) as Hlt
    by (apply Nat.ltb_lt; lia).
  simpl. rewrite Hlt. split.
  - by destruct (queueClosed (pool m)).
  - by intros ->.
Qed.

Lemma ProcessTasks_never_blocks_within_capacity_witness :
  exists m,
    run start_one (boot 1 [demo]) = Some m
    /\ thread_step (pool m) (Client (Sending [t1]) [CallStop]) CaseQueue
       <> Blocked.
Proof.
  eexists. split; [vm_compute; reflexivity|].
  refine (proj1 (ProcessTasks_never_blocks_within_capacity 1 [demo]
                   start_one _ 0 t1 [] [CallStop] _ _ _)).
  - vm_compute. lia.
  - vm_compute; reflexivity.
  - vm_compute; reflexivity.
Defined.

(** ** Uses of the pool that never panic *)

Lemma replaced_elem (l l' : list thread) (t t' : thread) :
  replaced l t t' l' -> t ∈ l.
Proof.
  intros (l1 & l2 & -> & _). apply elem_of_app. right. apply list_elem_of_here.
Qed.

Lemma disciplined_start_loop (i n : Z) (rest : list call) :
  disciplined (Client (start_loop i n) rest) = sends_then_stop rest.
Proof. unfold start_loop. by destruct (i <? n). Qed.

Lemma disciplined_next (rest : list call) :
  sends_then_stop rest = true -> disciplined (next rest) = true.
Proof.
  induction rest as [|[n|[|t ts]|] rest IH]; cbn [next]; try done.
  by rewrite disciplined_start_loop.
Qed.

Lemma disciplined_sending (ts : list Task) (rest : list call) :
  disciplined (Client (Sending ts) rest) = true ->
  sends_then_stop rest = true.
Proof. destruct ts; simpl; [done|]. by intros [_ ?]%andb_true_iff. Qed.

Lemma step_disciplined (w w' : OptimizedWorker) (t t' : thread) (b : branch)
    (sp : list thread) :
  thread_step w t b = Next w' t' sp ->
  disciplined t = true ->
  disciplined t' = true /\ Forall (fun t => disciplined t = true) sp.
Proof.
  intros H Hd.
  step_cases H; (split; [|by repeat constructor]);
    rewrite ?disciplined_start_loop; try done;
    try (apply disciplined_next; by eauto using disciplined_sending).
  match goal with |- disciplined (sending ?l _) = _ => destruct l end;
    simpl in *; [|done].
  apply disciplined_next. by apply andb_true_iff in Hd as [_ ?].
Qed.

Lemma send_panics (w : OptimizedWorker) (t : thread) (b : branch) :
  thread_step w t b = Panic SendOnClosedChannel ->
  disciplined t = true ->
  queueClosed w = true /\ (1 <= closes_ahead t)%nat.
Proof.
  intros H Hd. step_cases H. split; [done|]. simpl in *.
  apply andb_true_iff in Hd as [Hd _]. apply Nat.ltb_lt in Hd. lia.
Qed.

Lemma disciplined_run (expectedTasks : nat) (clients : list (list call))
    (sched : list event) (m : machine) :
  Forall (fun c => sends_then_stop c = true) clients ->
  run sched (boot expectedTasks clients) = Some m ->
  Forall (fun t => disciplined t = true) (threads m).
Proof.
  intros Hcl Hrun.
  eapply (run_invariant
            (fun m => Forall (fun t => disciplined t = true) (threads m)));
    [|exact Hrun|].
  - intros m1 m2 _ Ht Hm.
    destruct Ht as [t b f _ _|t b w' t' sp l' Hs Hr|t t' l' Hf Hr
                   |s r s' r' l1 l' Hh Hr1 Hr2]; simpl.
    + done.
    + pose proof (replaced_old _ _ _ _ _ Hr Hm) as Hold.
      destruct (step_disciplined _ _ _ _ _ _ Hs Hold) as [Hnew Hsp].
      apply Forall_app. split; [|done]. by eapply Forall_replaced.
    + eapply Forall_replaced; [done|done|]. destruct t; by simplify_eq/=.
    + pose proof (replaced_old _ _ _ _ _ Hr1 Hm) as Hold.
      destruct s as [| | | |[| | | | | |[|? ts]| | |] ?|]; try done.
      destruct r as [? []| | | | |]; try done. simpl in Hh.
      repeat case_match; simplify_eq.
      eapply Forall_replaced; [done| |done].
      eapply Forall_replaced; [done|done|].
      simpl in Hold. apply andb_true_iff in Hold as [Hs1 Hs2].
      destruct ts; simpl; [by apply disciplined_next|].
      by rewrite Hs1, Hs2.
  - clear Hrun. simpl. induction Hcl as [|c cl Hc _ IH]; simpl; [constructor|].
    constructor; [by apply disciplined_next|done].
Qed.

(** X14: a use of the pool that never panics.  One goroutine makes all
    the calls, one after the other (so no [Start] runs while [Stop] waits,
    which the wait group would report as misuse); it calls [Stop()] at most
    once, and every [ProcessTasks] of at least one task is followed by a
    [Stop()]; the tasks it submits are tasks, not [nil] pointers, as
    everywhere here.  Then no run ever panics: no send on a closed queue,
    no double close, no negative wait-group counter. *)
Theorem disciplined_use_never_panics (expectedTasks : nat)
    (calls : list call) (sched : list event) (m : machine) :
  sends_then_stop calls = true ->
  (calls_stops calls <= 1)%nat ->
  run sched (boot expectedTasks [calls]) = Some m ->
  crashed m = None.
Proof.
  intros Hc Hone.
  assert (Forall (fun c => sends_then_stop c = true) [calls]) as Hcl
    by (by constructor).
  revert m.
  induction sched as [|e sched IH] using rev_ind; intros m Hrun.
  - by simplify_eq/=.
  - apply run_snoc in Hrun as (m0 & Hrun0 & He).
    apply exec_transition in He as [_ Ht].
    destruct Ht as [t b f Hin Hp| | |]; simpl; try done.
    exfalso.
    pose proof (disciplined_run _ _ _ _ Hcl Hrun0) as Hd.
    rewrite Forall_forall in Hd. specialize (Hd _ Hin).
    assert (closes_total m0 = sum_list_with calls_stops [calls]) as Htot.
    { eapply (run_invariant
                (fun m => closes_total m
                          = sum_list_with calls_stops [calls]));
        [|exact Hrun0|apply closes_total_boot].
      intros m1 m2 Hc1 Ht1 <-. by apply closes_total_step. }
    destruct (boot_invariants _ _ _ _ Hrun0) as [Hwg _].
    pose proof (closes_ahead_elem _ _ Hin) as Hle.
    unfold closes_total, closes_done in Htot. simpl in Htot.
    destruct f.
    + apply close_panics in Hp as [Hq Hge]. rewrite Hq in Htot. lia.
    + apply send_panics in Hp as [Hq Hge]; [|done]. rewrite Hq in Htot. lia.
    + apply negative_panics in Hp. apply registered_elem in Hin.
      unfold wg_counts in Hwg. lia.
Qed.

Lemma disciplined_use_never_panics_witness :
  exists m,
    run run_lossy (boot 1 [demo]) = Some m
    /\ crashed m = None.
Proof.
  eexists. split; [vm_compute; reflexivity|].
  eapply (disciplined_use_never_panics 1 demo run_lossy).
  - reflexivity.
  - vm_compute. lia.
  - vm_compute; reflexivity.
Defined.

(** ** Every task has a result or is still queued when Stop has returned *)

Lemma cancels_ahead_start_loop (i n : Z) (rest : list call) :
  cancels_ahead (Client (start_loop i n) rest) = calls_stops rest.
Proof. unfold start_loop. by destruct (i <? n). Qed.

Lemma cancels_ahead_next (rest : list call) :
  cancels_ahead (next rest) = calls_stops rest.
Proof.
  induction rest as [|[n|[|t ts]|] rest IH]; cbn [next]; try done.
  by rewrite cancels_ahead_start_loop.
Qed.

Lemma cancels_ahead_sending (ts : list Task) (rest : list call) :
  cancels_ahead (sending ts rest) = calls_stops rest.
Proof. destruct ts; simpl; [apply cancels_ahead_next|done]. Qed.

#[local] Hint Rewrite cancels_ahead_start_loop cancels_ahead_next
  cancels_ahead_sending : measures.

Lemma cancels_replaced (l l' : list thread) (t t' : thread) :
  replaced l t t' l' ->
  (sum_list_with cancels_ahead l' + cancels_ahead t
   = sum_list_with cancels_ahead l + cancels_ahead t')%nat.
Proof.
  intros (l1 & l2 & -> & ->). rewrite !sum_list_with_app. simpl. lia.
Qed.

Lemma cancels_ahead_elem (t : thread) (l : list thread) :
  t ∈ l -> (cancels_ahead t <= sum_list_with cancels_ahead l)%nat.
Proof.
  induction 1 as [|? ? ? _ IH]; simpl; lia.
Qed.

Lemma step_cancels (w w' : OptimizedWorker) (t t' : thread) (b : branch)
    (sp : list thread) :
  thread_step w t b = Next w' t' sp ->
  (cancels_ahead t' + cancels_done w' <= cancels_ahead t + cancels_done w)%nat
  /\ sum_list_with cancels_ahead sp = 0%nat.
Proof.
  intros H. unfold cancels_done.
  step_cases H; autorewrite with measures; simpl;
    repeat match goal with H : ctxDone _ = _ |- _ => rewrite H end;
    try (destruct (ctxDone _)); split; lia.
Qed.

Lemma handoff_shape (w : OptimizedWorker) (s r s' r' : thread) :
  handoff w s r = Some (s', r') ->
  exists t ts rest id,
    s = Client (Sending (t :: ts)) rest /\ r = Worker id WSelect
    /\ s' = sending ts rest /\ r' = Worker id (WProcess t).
Proof.
  intros H.
  destruct s as [| | | |[| | | | | |[|t ts]| | |] rest|]; try done.
  destruct r as [id []| | | | |]; try done. simpl in H.
  repeat case_match; simplify_eq. by eexists _, _, _, _.
Qed.

(** The cancellation signal is raised by a [Stop()]: the executions of
    [w.cancel()] still ahead and the raised signal are together at most
    the calls of [Stop()] of the clients. *)
Lemma cancels_run (expectedTasks : nat) (clients : list (list call))
    (sched : list event) (m : machine) :
  run sched (boot expectedTasks clients) = Some m ->
  (sum_list_with cancels_ahead (threads m) + cancels_done (pool m)
   <= sum_list_with calls_stops clients)%nat.
Proof.
  intros Hrun.
  eapply (run_invariant
            (fun m => (sum_list_with cancels_ahead (threads m)
                       + cancels_done (pool m)
                       <= sum_list_with calls_stops clients)%nat));
    [|exact Hrun|].
  - intros m1 m2 _ Ht Hm.
    destruct Ht as [t b f _ _|t b w' t' sp l' Hs Hr|t t' l' Hf Hr
                   |s r s' r' l1 l' Hh Hr1 Hr2]; simpl.
    + done.
    + apply step_cancels in Hs as [Hs Hsp]. apply cancels_replaced in Hr.
      rewrite sum_list_with_app. lia.
    + apply cancels_replaced in Hr. destruct t; simplify_eq/=; lia.
    + apply handoff_shape in Hh as (t & ts & rest & id & -> & -> & -> & ->).
      apply cancels_replaced in Hr1, Hr2.
      rewrite cancels_ahead_sending in Hr1. simpl in *. lia.
  - clear Hrun. unfold boot, cancels_done. simpl. rewrite Nat.add_0_r.
    induction clients as [|c clients IH]; simpl; [done|].
    rewrite cancels_ahead_next. lia.
Qed.

Lemma no_stop_no_tasks (rest : list call) :
  sends_then_stop rest = true -> calls_stops rest = 0%nat ->
  calls_tasks rest = [].
Proof.
  induction rest as [|[n|[|t ts]|] rest IH]; intros Hs Hz; [done|..];
    unfold calls_tasks, calls_stops in *; simpl in *;
    fold (calls_stops rest) in *; fold (calls_tasks rest) in *; auto.
  - apply andb_true_iff in Hs as [Hs _]. apply Nat.ltb_lt in Hs. lia.
  - done.
Qed.

Lemma idle_hand (t : thread) :
  disciplined t = true -> cancels_ahead t = 0%nat -> live t = false ->
  hand t = [].
Proof.
  destruct t as [| | | |pc rest|]; try done. intros Hd Hz _.
  destruct pc as [| | | | | |[|t ts]| | |]; simpl in *;
    try (by apply no_stop_no_tasks); try done.
  apply andb_true_iff in Hd as [Hd _]. apply Nat.ltb_lt in Hd. lia.
Qed.

(** When the clients call [Stop()] at most once and every [ProcessTasks]
    is followed by it, a client has nothing left to send once the pool is
    cancelled. *)
Lemma cancelled_hand (expectedTasks : nat) (clients : list (list call))
    (sched : list event) (m : machine) (t : thread) :
  Forall (fun c => sends_then_stop c = true) clients ->
  (sum_list_with calls_stops clients <= 1)%nat ->
  run sched (boot expectedTasks clients) = Some m ->
  ctxDone (pool m) = true ->
  t ∈ threads m -> live t = false -> hand t = [].
Proof.
  intros Hcl Hone Hrun Hc Hin Hl.
  pose proof (disciplined_run _ _ _ _ Hcl Hrun) as Hd.
  rewrite Forall_forall in Hd.
  pose proof (cancels_run _ _ _ _ Hrun) as Hn.
  unfold cancels_done in Hn. rewrite Hc in Hn.
  apply cancels_ahead_elem in Hin as Hle.
  apply idle_hand; [by apply Hd|lia|done].
Qed.

(** A step that is not the return of [ProcessTasks] on cancellation with
    tasks still to send keeps every task. *)
Lemma step_tasks_exact (w w' : OptimizedWorker) (t t' : thread) (b : branch)
    (sp : list thread) :
  thread_step w t b = Next w' t' sp ->
  (ctxDone w = true -> live t = false -> hand t = []) ->
  exists new,
    results w' = results w ++ map Process new
    /\ new ++ taskQueue w' ++ hand t' ≡ₚ taskQueue w ++ hand t
    /\ hands sp = [].
Proof.
  intros H Hpre. step_cases H;
    try (by specialize (Hpre ltac:(done) eq_refl));
    first [ eexists [_]; split; [reflexivity|]
          | exists []; split; [simpl; by rewrite app_nil_r|] ];
    (split; [|reflexivity]); autorewrite with measures; simpl;
    try match goal with H : taskQueue _ = _ |- _ => rewrite H end;
    solve_Permutation.
Qed.

Lemma tasks_exact_run (expectedTasks : nat) (clients : list (list call))
    (sched : list event) (m : machine) :
  Forall (fun c => sends_then_stop c = true) clients ->
  (sum_list_with calls_stops clients <= 1)%nat ->
  run sched (boot expectedTasks clients) = Some m ->
  tasks_exact (concat (map calls_tasks clients)) m.
Proof.
  intros Hcl Hone. revert m.
  induction sched as [|e sched IH] using rev_ind; intros m Hrun.
  - simplify_eq/=. exists []. split; [done|]. simpl. unfold hands.
    rewrite map_map. erewrite map_ext; [done|]. intros c. apply hand_next.
  - apply run_snoc in Hrun as (m0 & Hrun0 & He).
    destruct (IH _ Hrun0) as (done & Hres & HT).
    apply exec_transition in He as [_ Ht].
    destruct Ht as [t b f _ _|t b w' t' sp l' Hs Hr|t t' l' Hf Hr
                   |s r s' r' l1 l' Hh Hr1 Hr2]; unfold tasks_exact; simpl.
    + by exists done.
    + pose proof (replaced_elem _ _ _ _ Hr) as Hin.
      destruct (step_tasks_exact _ _ _ _ _ _ Hs)
        as (new & Hres' & Hloc & Hsp).
      { intros Hc. by eapply cancelled_hand. }
      apply hands_replaced in Hr as (others & Hl & Hl').
      exists (done ++ new). split.
      { by rewrite Hres', Hres, map_app. }
      rewrite <- HT. unfold hands in *.
      rewrite map_app, concat_app, Hsp, Hl, Hl'.
      trans (done ++ (new ++ taskQueue w' ++ hand t') ++ others);
        [solve_Permutation|].
      rewrite Hloc. solve_Permutation.
    + apply fire_hand in Hf.
      apply hands_replaced in Hr as (others & Hl & Hl').
      exists done. split; [done|]. by rewrite Hl', Hf, <- Hl.
    + apply handoff_hand in Hh as [Hr0 Hsr].
      apply hands_replaced in Hr1 as (o1 & Hl & Hl1).
      apply hands_replaced in Hr2 as (o2 & Hl1' & Hl').
      exists done. split; [done|]. rewrite <- HT.
      rewrite Hr0 in Hl1'. simpl in Hl1'.
      rewrite Hl, Hl', <- Hsr.
      assert (o2 ≡ₚ hand s' ++ o1) as -> by (by rewrite <- Hl1', Hl1).
      solve_Permutation.
Qed.

(** *** The client that stops the pool at the end *)

Lemma stop_is_last_discipline (rest : list call) :
  stop_is_last rest = true ->
  sends_then_stop rest = true /\ calls_stops rest = 1%nat.
Proof.
  induction rest as [|[n|[|t ts]|] rest IH]; intros H; [done|..];
    unfold calls_stops in *; simpl in *; fold (calls_stops rest) in *;
    try (destruct (IH H) as [-> ->]; done).
  by destruct rest.
Qed.

Lemma stops_at_end_start_loop (i n : Z) (rest : list call) :
  stops_at_end (Client (start_loop i n) rest) = stop_is_last rest.
Proof. unfold start_loop. by destruct (i <? n). Qed.

Lemma stop_is_last_next (rest : list call) :
  stop_is_last rest = true ->
  stops_at_end (next rest) = true /\ next rest <> Exited.
Proof.
  induction rest as [|[n|[|t ts]|] rest IH]; intros H; cbn [next];
    try done; auto.
  rewrite stops_at_end_start_loop. split; [done|].
  unfold start_loop. by destruct (0 <? n).
Qed.

Lemma stop_is_last_sending (ts : list Task) (rest : list call) :
  stop_is_last rest = true ->
  stops_at_end (sending ts rest) = true /\ sending ts rest <> Exited.
Proof. destruct ts; simpl; [apply stop_is_last_next|done]. Qed.

Lemma step_stopping_client (w w' : OptimizedWorker) (t t' : thread)
    (b : branch) (sp : list thread) :
  thread_step w t b = Next w' t' sp ->
  stops_at_end t = true ->
  stops_at_end t' = true
  /\ Forall (fun t => spawned t = true) sp
  /\ (t' = Exited -> wg w = 0 /\ w' = w /\ sp = []).
Proof.
  intros H Hst.
  step_cases H; simpl in Hst; try done;
    rewrite ?stops_at_end_start_loop;
    try (destruct (stop_is_last_next _ Hst) as [? ?]);
    try (destruct (stop_is_last_sending l rest Hst) as [? ?]);
    repeat split; try done; try (by repeat constructor);
    try (unfold start_loop; by case_match).
  all: try match goal with
         | H : (_ =? _) = true |- _ => by apply Z.eqb_eq in H
         end.
  all: by destruct rest.
Qed.

Lemma step_spawned (w w' : OptimizedWorker) (t t' : thread) (b : branch)
    (sp : list thread) :
  thread_step w t b = Next w' t' sp ->
  spawned t = true ->
  live t = true /\ spawned t' = true
  /\ Forall (fun t => spawned t = true) sp.
Proof.
  intros H Hsp. step_cases H; repeat split; try done;
    by repeat constructor.
Qed.

Lemma one_client_exec (e : event) (m m' : machine) :
  exec e m = Some m' -> wg_counts m -> one_client m -> one_client m'.
Proof.
  intros He Hwg (c & ps & Hth & Hst & Hps & Hex). unfold exec in He.
  destruct (crashed m); [done|]. rewrite Hth in He.
  destruct e as [j b|j|j k].
  - destruct ((c :: ps) !! j) as [tj|] eqn:Hj; [|done].
    destruct (thread_step (pool m) tj b) as [|f|w' t' sp] eqn:Hs;
      simplify_eq/=; [by exists c, ps|].
    destruct j as [|j]; simplify_eq/=.
    + destruct (step_stopping_client _ _ _ _ _ _ Hs Hst)
        as (Hst' & Hsp & Hret).
      exists t', (ps ++ sp). repeat split; try done.
      { apply Forall_app. by split. }
      intros ->. destruct (Hret eq_refl) as (Hz & _ & ->).
      rewrite app_nil_r. unfold wg_counts in Hwg. rewrite Hth, Hz in Hwg.
      assert (registrations (tj :: ps) = 0%nat) as Hreg by lia.
      apply registrations_zero in Hreg. by apply Forall_cons in Hreg as [_ ?].
    + rewrite Forall_lookup in Hps. pose proof (Hps _ _ Hj) as Hsj.
      destruct (step_spawned _ _ _ _ _ _ Hs Hsj) as (Hlive & Hst' & Hsp).
      exists c, (<[j:=t']> ps ++ sp). repeat split; try done.
      { apply Forall_app. split; [|done].
        apply Forall_insert; [by apply Forall_lookup|done]. }
      intros Hc. specialize (Hex Hc). rewrite Forall_lookup in Hex.
      specialize (Hex _ _ Hj). congruence.
  - destruct ((c :: ps) !! j) as [tj|] eqn:Hj; [|done].
    destruct (fire tj) as [t'|] eqn:Hf; simplify_eq/=.
    destruct j as [|j]; simplify_eq/=.
    { destruct tj as [| | | |[] ?|]; done. }
    exists c, (<[j:=t']> ps). repeat split; try done.
    { apply Forall_insert; [done|]. destruct tj; by simplify_eq/=. }
    intros Hc. specialize (Hex Hc). rewrite Forall_lookup in Hex.
    specialize (Hex _ _ Hj). destruct tj; by simplify_eq/=.
  - destruct ((c :: ps) !! j) as [s|] eqn:Hj; [|done].
    destruct ((c :: ps) !! k) as [r|] eqn:Hk; [|done].
    destruct (handoff (pool m) s r) as [[s' r']|] eqn:Hh; simplify_eq/=.
    apply handoff_shape in Hh as (t & ts & rest & id & -> & -> & -> & ->).
    rewrite Forall_lookup in Hps.
    destruct j as [|j]; simplify_eq/=; [|by specialize (Hps _ _ Hj)].
    destruct k as [|k]; simplify_eq/=.
    destruct (stop_is_last_sending ts rest Hst) as [Hst' Hne].
    exists (sending ts rest), (<[k:=Worker id (WProcess t)]> ps).
    repeat split; try done.
    apply Forall_insert; [by apply Forall_lookup|done].
Qed.

Lemma one_client_run (expectedTasks : nat) (calls : list call)
    (sched : list event) (m : machine) :
  stop_is_last calls = true ->
  run sched (boot expectedTasks [calls]) = Some m ->
  one_client m.
Proof.
  intros Hlast. revert m.
  induction sched as [|e sched IH] using rev_ind; intros m Hrun.
  - simplify_eq/=. exists (next calls), [].
    destruct (stop_is_last_next _ Hlast) as [? ?].
    repeat split; try done; by constructor.
  - apply run_snoc in Hrun as (m0 & Hrun0 & He).
    destruct (boot_invariants _ _ _ _ Hrun0) as [Hwg _].
    eapply one_client_exec; eauto.
Qed.

(** One goroutine makes the calls, with its only [Stop()] the last one:
    when it has returned, every submitted task has its result or is still
    in the queue. *)
Lemma Stop_returned_accounts (expectedTasks : nat) (calls : list call)
    (sched : list event) (m : machine) :
  stop_is_last calls = true ->
  run sched (boot expectedTasks [calls]) = Some m ->
  threads m !! 0%nat = Some Exited ->
  exists done,
    results (pool m) = map Process done
    /\ done ++ taskQueue (pool m) ≡ₚ calls_tasks calls.
Proof.
  intros Hlast Hrun Hret.
  destruct (stop_is_last_discipline _ Hlast) as [Hd Hone].
  destruct (tasks_exact_run expectedTasks [calls] sched m)
    as (done & Hres & HT); [by constructor|simpl; lia|exact Hrun|].
  destruct (one_client_run _ _ _ _ Hlast Hrun)
    as (c & ps & Hth & _ & Hps & Hex).
  rewrite Hth in Hret. simplify_eq/=. specialize (Hex eq_refl).
  assert (hands (threads m) = []) as Hh.
  { rewrite Hth. unfold hands. simpl.
    clear Hth. induction ps as [|p ps IH]; [done|].
    apply Forall_cons in Hps as [Hp Hps].
    apply Forall_cons in Hex as [Hl Hex].
    simpl. rewrite (IH Hps Hex). destruct p; done. }
  exists done. split; [done|].
  rewrite Hh in HT. simpl in HT. by rewrite !app_nil_r in HT.
Qed.

(** C3 (amended): when tasks T were submitted with [ProcessTasks] to a
    started pool and [Stop()] has returned, every task of T has its
    result in what [GetResults] returns or is still in the task queue, and
    is there once: the results are [Process] of tasks that, together with
    the queued ones, are exactly T as a multiset.  So no task is processed
    twice, none that a worker received is dropped, and the results and
    the queued tasks together number len(T); the tasks without a result
    are the ones left in the queue when the workers saw the
    cancellation. *)
Theorem results_or_queued_after_Stop (expectedTasks : nat) (numWorkers : Z)
    (T : list Task) (sched : list event) (m : machine) :
  run sched
    (boot expectedTasks [[CallStart numWorkers; CallProcessTasks T; CallStop]])
  = Some m ->
  threads m !! 0%nat = Some Exited ->
  exists done,
    GetResults (pool m) = map Process done
    /\ done ++ taskQueue (pool m) ≡ₚ T
    /\ (length (GetResults (pool m)) + length (taskQueue (pool m))
        = length T)%nat.
Proof.
  intros Hrun Hret.
  destruct (Stop_returned_accounts expectedTasks
              [CallStart numWorkers; CallProcessTasks T; CallStop] sched m
              eq_refl Hrun Hret) as (done & Hres & HT).
  unfold calls_tasks in HT. simpl in HT. rewrite !app_nil_r in HT.
  exists done. rewrite GetResults_results. repeat split; try done.
  rewrite Hres, length_map, <- length_app. by rewrite HT.
Qed.

Lemma results_or_queued_after_Stop_witness :
  (exists m,
     run run_complete (boot 1 [demo]) = Some m
     /\ threads m !! 0%nat = Some Exited
     /\ exists done,
          GetResults (pool m) = map Process done
          /\ done ++ taskQueue (pool m) ≡ₚ [t1]
          /\ (length (GetResults (pool m)) + length (taskQueue (pool m))
              = length [t1])%nat)
  /\ (exists m,
        run run_lossy (boot 1 [demo]) = Some m
        /\ threads m !! 0%nat = Some Exited
        /\ taskQueue (pool m) = [t1]
        /\ exists done,
             GetResults (pool m) = map Process done
             /\ done ++ taskQueue (pool m) ≡ₚ [t1]
             /\ (length (GetResults (pool m)) + length (taskQueue (pool m))
                 = length [t1])%nat).
Proof.
  split.
  - eexists. split; [vm_compute; reflexivity|]. split; [reflexivity|].
    eapply (results_or_queued_after_Stop 1 1 [t1] run_complete).
    + vm_compute; reflexivity.
    + reflexivity.
  - eexists. split; [vm_compute; reflexivity|]. split; [reflexivity|].
    split; [reflexivity|].
    eapply (results_or_queued_after_Stop 1 1 [t1] run_lossy).
    + vm_compute; reflexivity.
    + reflexivity.
Defined.

(** C3, as stated, fails: the client stops the pool while [t1] is still
    queued, the worker takes the cancellation case of its [select], and
    [Stop()] returns with no result for the one submitted task. *)
Lemma Stop_may_drop_queued_tasks :
  ~ (forall (expectedTasks : nat) (numWorkers : Z) (T : list Task)
       (sched : list event) (m : machine),
       run sched
         (boot expectedTasks
            [[CallStart numWorkers; CallProcessTasks T; CallStop]])
       = Some m ->
       threads m !! 0%nat = Some Exited ->
       length (GetResults (pool m)) = length T).
Proof.
  intros H. specialize (H 1%nat 1 [t1] run_lossy). vm_compute in H.
  specialize (H _ eq_refl eq_refl). discriminate.
Qed.

(** ** A pool that is never stopped *)

Lemma step_no_cancel (w w' : OptimizedWorker) (t t' : thread) (b : branch)
    (sp : list thread) :
  thread_step w t b = Next w' t' sp ->
  closes_ahead t = 0%nat ->
  ctxDone w' = ctxDone w /\ queueClosed w' = queueClosed w.
Proof. intros H Hz. step_cases H; done. Qed.

Lemma never_stopped_run (expectedTasks : nat) (clients : list (list call))
    (sched : list event) (m : machine) :
  sum_list_with calls_stops clients = 0%nat ->
  run sched (boot expectedTasks clients) = Some m ->
  ctxDone (pool m) = false /\ queueClosed (pool m) = false
  /\ crashed m = None.
Proof.
  intros Hzero Hrun.
  cut (closes_total m = 0%nat /\ wg_counts m /\ ctxDone (pool m) = false
       /\ crashed m = None).
  { unfold closes_total, closes_done. intros (Htot & _ & Hc & Hok).
    repeat split; try done. destruct (queueClosed (pool m)); [lia|done]. }
  eapply (run_invariant
            (fun m => closes_total m = 0%nat /\ wg_counts m
                      /\ ctxDone (pool m) = false /\ crashed m = None));
    [|exact Hrun|].
  - intros m1 m2 Hc Ht (Htot & Hwg & Hctx & _).
    split; [by rewrite (closes_total_step _ _ Hc Ht)|].
    split; [by eapply wg_counts_step|].
    unfold closes_total, closes_done in Htot.
    destruct Ht as [t b f Hin Hp|t b w' t' sp l' Hs Hr| |]; simpl; try done.
    + exfalso. pose proof (closes_ahead_elem _ _ Hin) as Hle. destruct f.
      * apply close_panics in Hp as [Hq _]. rewrite Hq in Htot. lia.
      * assert (queueClosed (pool m1) = true) as Hq
          by (clear -Hp; step_cases Hp; done).
        rewrite Hq in Htot. lia.
      * apply negative_panics in Hp. apply registered_elem in Hin.
        unfold wg_counts in Hwg. lia.
    + pose proof (closes_ahead_elem _ _ (replaced_elem _ _ _ _ Hr)) as Hle.
      apply step_no_cancel in Hs as [-> _]; [done|lia].
  - split; [by rewrite closes_total_boot|].
    split; [apply wg_counts_boot|done].
Qed.

(** X15: when no client ever calls [Stop()], in every run the
    cancellation signal is never raised, the task queue is never closed
    and the program never panics. *)
Theorem never_stopped_never_cancelled (expectedTasks : nat)
    (clients : list (list call)) (sched : list event) (m : machine) :
  sum_list_with calls_stops clients = 0%nat ->
  run sched (boot expectedTasks clients) = Some m ->
  ctxDone (pool m) = false /\ queueClosed (pool m) = false
  /\ crashed m = None.
Proof. apply never_stopped_run. Qed.

Lemma never_stopped_never_cancelled_witness :
  exists m,
    run (start_one ++ [Run 0 CaseQueue; Run 1 CaseQueue])
      (boot 1 [[CallStart 1; CallProcessTasks [t1]]]) = Some m
    /\ (ctxDone (pool m) = false /\ queueClosed (pool m) = false
        /\ crashed m = None).
Proof.
  eexists. split; [vm_compute; reflexivity|].
  eapply (never_stopped_never_cancelled 1
            [[CallStart 1; CallProcessTasks [t1]]]
            (start_one ++ [Run 0 CaseQueue; Run 1 CaseQueue])).
  - reflexivity.
  - vm_compute; reflexivity.
Defined.

Lemma live_step_open (w w' : OptimizedWorker) (t t' : thread) (b : branch)
    (sp : list thread) :
  thread_step w t b = Next w' t' sp ->
  ctxDone w = false -> queueClosed w = false ->
  live t = true -> live t' = true.
Proof. intros H Hc Hq Hl. step_cases H; done. Qed.

Lemma live_exec_open (e : event) (m m' : machine) (i : nat) (t : thread) :
  exec e m = Some m' ->
  ctxDone (pool m) = false -> queueClosed (pool m) = false ->
  threads m !! i = Some t -> live t = true ->
  exists t', threads m' !! i = Some t' /\ live t' = true.
Proof.
  intros He Hc Hq Hi Hl. unfold exec in He.
  destruct (crashed m); [done|]. destruct e as [j b|j|j k].
  - destruct (threads m !! j) as [tj|] eqn:Hj; [|done].
    destruct (thread_step (pool m) tj b) as [|f|w' t' sp] eqn:Hs;
      simplify_eq/=; [by eauto|].
    rewrite lookup_app_l
      by (rewrite length_insert; by eapply lookup_lt_Some).
    destruct (decide (j = i)) as [->|Hne].
    + rewrite list_lookup_insert_eq by (by eapply lookup_lt_Some).
      simplify_eq. eauto using live_step_open.
    + rewrite list_lookup_insert_ne by done. eauto.
  - destruct (threads m !! j) as [tj|] eqn:Hj; [|done].
    destruct (fire tj) as [t'|] eqn:Hf; simplify_eq/=.
    destruct (decide (j = i)) as [->|Hne].
    + rewrite list_lookup_insert_eq by (by eapply lookup_lt_Some).
      assert (tj = t) as -> by congruence.
      eexists. split; [done|]. destruct t; by simplify_eq/=.
    + rewrite list_lookup_insert_ne by done. eauto.
  - destruct (threads m !! j) as [s|] eqn:Hj; [|done].
    destruct (threads m !! k) as [r|] eqn:Hk; [|done].
    destruct (handoff (pool m) s r) as [[s' r']|] eqn:Hh; simplify_eq/=.
    assert (live r' = true /\ live s = false) as [Hr' Hs].
    { destruct s as [| | | |[| | | | | |[|? ?]| | |] ?|]; try done.
      destruct r as [? []| | | | |]; try done. simpl in Hh.
      repeat case_match; by simplify_eq. }
    destruct (decide (k = i)) as [->|Hne].
    + rewrite list_lookup_insert_eq
        by (rewrite length_insert; by eapply lookup_lt_Some).
      eauto.
    + rewrite list_lookup_insert_ne by done.
      destruct (decide (j = i)) as [->|Hne'].
      * simplify_eq. congruence.
      * rewrite list_lookup_insert_ne by done. eauto.
Qed.

(** X16: when no client ever calls [Stop()], no goroutine of the pool
    ever returns: a worker, helper, monitor or metrics sampler that is
    running at some point of a run is still running at every later point
    (the workers, the monitor, the sampler and one helper per processed
    task stay for the life of the program). *)
Theorem never_stopped_goroutines_stay (expectedTasks : nat)
    (clients : list (list call)) (sched1 sched2 : list event)
    (m1 m2 : machine) (i : nat) (t : thread) :
  sum_list_with calls_stops clients = 0%nat ->
  run sched1 (boot expectedTasks clients) = Some m1 ->
  run sched2 m1 = Some m2 ->
  threads m1 !! i = Some t ->
  live t = true ->
  exists t', threads m2 !! i = Some t' /\ live t' = true.
Proof.
  intros Hzero Hrun1. revert m2.
  induction sched2 as [|e sched2 IH] using rev_ind; intros m2 Hrun2 Hi Hl.
  - simplify_eq/=. eauto.
  - apply run_snoc in Hrun2 as (m0 & Hrun0 & He).
    destruct (IH _ Hrun0 Hi Hl) as (t0 & Hi0 & Hl0).
    destruct (never_stopped_run _ _ _ _ Hzero
                (run_app _ _ _ _ _ Hrun1 Hrun0)) as (Hc & Hq & _).
    eauto using live_exec_open.
Qed.

Lemma never_stopped_goroutines_stay_witness :
  exists m1 m2 t',
    run start_one (boot 1 [[CallStart 1; CallProcessTasks [t1]]]) = Some m1
    /\ run [Run 0 CaseQueue; Run 1 CaseQueue; Run 1 CaseDone] m1 = Some m2
    /\ threads m2 !! 1%nat = Some t' /\ live t' = true.
Proof.
  eexists _, _. 
  destruct (never_stopped_goroutines_stay 1
              [[CallStart 1; CallProcessTasks [t1]]] start_one
              [Run 0 CaseQueue; Run 1 CaseQueue; Run 1 CaseDone]
              _ _ 1 (Worker 0 WSelect) eq_refl eq_refl eq_refl eq_refl eq_refl)
    as (t' & H1 & H2).
  exists t'. split; [reflexivity|]. split; [reflexivity|]. by split.
Defined.

(** ** What Start spawns *)

Lemma exec_Run_next (m : machine) (i : nat) (b : branch) (t t' : thread)
    (w' : OptimizedWorker) (sp : list thread) :
  crashed m = None ->
  threads m !! i = Some t ->
  thread_step (pool m) t b = Next w' t' sp ->
  exec (Run i b) m = Some (mkMachine w' (<[i:=t']> (threads m) ++ sp) None)
  /\ (<[i:=t']> (threads m) ++ sp) !! i = Some t'.
Proof.
  intros Hok Hi Hs. unfold exec. rewrite Hok, Hi, Hs. split; [done|].
  rewrite lookup_app_l by (rewrite length_insert; by eapply lookup_lt_Some).
  apply list_lookup_insert_eq. by eapply lookup_lt_Some.
Qed.

Lemma wg_Add_ok (w : OptimizedWorker) (delta : Z)
    (k : OptimizedWorker -> outcome) :
  0 <= wg w + delta -> wg_Add w delta k = k (set_wg w (wg w + delta)).
Proof.
  intros H. unfold wg_Add. by destruct (Z.ltb_spec (wg w + delta) 0); [lia|].
Qed.

Lemma start_loop_run (k : nat) (i n : Z) (w : OptimizedWorker)
    (rest : list call) (ths : list thread) :
  k = Z.to_nat (n - i) ->
  0 <= wg w ->
  run (replicate (2 * k + 4) (Run 0 CaseDone))
    (mkMachine w (Client (start_loop i n) rest :: ths) None)
  = Some (mkMachine (set_wg w (wg w + Z.of_nat k + 2))
            (next rest
             :: ths ++ map (fun j => Worker j WSelect) (seqZ i (n - i))
                ++ [Monitor false; Metrics false])
            None).
Proof.
  revert i w ths. induction k as [|k IH]; intros i w ths Hk Hwg.
  - assert (n <= i) as Hle by lia.
    rewrite seqZ_nil by lia. unfold start_loop.
    destruct (Z.ltb_spec i n); [lia|].
    cbn [Nat.mul Nat.add replicate run exec crashed threads pool lookup
         list_lookup thread_step].
    rewrite wg_Add_ok by lia.
    cbn [insert list_insert app run exec crashed threads pool lookup
         list_lookup thread_step].
    rewrite wg_Add_ok by (simpl; lia).
    cbn [insert list_insert app run exec crashed threads pool lookup
         list_lookup thread_step].
    simpl. rewrite <- !app_assoc. simpl.
    do 2 f_equal. unfold set_wg. simpl. f_equal. lia.
  - assert (i < n) as Hlt by lia.
    replace (2 * S k + 4)%nat with (S (S (2 * k + 4))) by lia.
    rewrite (seqZ_cons i) by lia. unfold start_loop at 1.
    destruct (Z.ltb_spec i n); [|lia].
    cbn [replicate run exec crashed threads pool lookup list_lookup
         thread_step].
    rewrite wg_Add_ok by lia.
    cbn [insert list_insert app run exec crashed threads pool lookup
         list_lookup thread_step].
    rewrite app_nil_r.
    rewrite (IH (i + 1) (set_wg w (wg w + 1)) (ths ++ [Worker i WSelect]))
      by (simpl; lia).
    simpl. rewrite <- !app_assoc. simpl.
    replace (Z.pred (n - i)) with (n - (i + 1)) by lia.
    replace (Z.succ i) with (i + 1) by lia.
    do 2 f_equal. unfold set_wg. simpl. f_equal. lia.
Qed.

(** X17: a client whose first call is [Start(numWorkers)], left to run
    alone for [2 * numWorkers + 4] steps on a new pool, returns from
    [Start] having spawned, in this order, the workers [0] to
    [numWorkers - 1], the monitor and the metrics sampler, with the
    wait-group counter at [numWorkers + 2]; a [numWorkers] that is zero
    or negative spawns no worker. *)
Theorem Start_spawns (expectedTasks : nat) (numWorkers : Z)
    (rest : list call) :
  run (replicate (2 * Z.to_nat numWorkers + 4) (Run 0 CaseDone))
    (boot expectedTasks [CallStart numWorkers :: rest])
  = Some (mkMachine
            (set_wg (NewOptimizedWorker expectedTasks)
               (Z.of_nat (Z.to_nat numWorkers) + 2))
            (next rest
             :: map (fun j => Worker j WSelect) (seqZ 0 numWorkers)
                ++ [Monitor false; Metrics false])
            None).
Proof.
  unfold boot. cbn [map next].
  rewrite (start_loop_run (Z.to_nat numWorkers) 0 numWorkers) by (simpl; lia).
  by rewrite Z.sub_0_r.
Qed.

(** ** Every goroutine of the pool observes the cancellation *)

Lemma exits_within_step (n i : nat) (m : machine) (b : branch)
    (t t' : thread) (w' : OptimizedWorker) (sp : list thread) :
  crashed m = None ->
  threads m !! i = Some t ->
  thread_step (pool m) t b = Next w' t' sp ->
  exits_within n i (mkMachine w' (<[i:=t']> (threads m) ++ sp) None) ->
  exits_within (S n) i m.
Proof.
  intros Hok Hi Hs (sched & m' & Hlen & Hown & Hrun & Hex & Hok').
  destruct (exec_Run_next _ _ _ _ _ _ _ Hok Hi Hs) as [He _].
  exists (Run i b :: sched), m'. repeat split; try done.
  - simpl. lia.
  - constructor; [by eexists|done].
  - simpl. by rewrite He.
Qed.

Lemma exits_within_now (i : nat) (m : machine) :
  threads m !! i = Some Exited -> crashed m = None -> exits_within 0 i m.
Proof. intros Hi Hok. exists [], m. repeat split; done. Qed.

Lemma exits_within_mono (n n' i : nat) (m : machine) :
  (n <= n')%nat -> exits_within n i m -> exits_within n' i m.
Proof.
  intros Hle (sched & m' & Hlen & H). exists sched, m'. split; [lia|done].
Qed.

Lemma exits_at_select (i : nat) (m : machine) (t : thread) :
  crashed m = None ->
  ctxDone (pool m) = true ->
  1 <= wg (pool m) ->
  threads m !! i = Some t ->
  (periodic t = true \/ exists id, t = Worker id WSelect) ->
  exits_within 1 i m.
Proof.
  intros Hok Hctx Hwg Hi Ht.
  eapply (exits_within_step 0 i m CaseDone t Exited
            (set_wg (pool m) (wg (pool m) + -1)) []); try done.
  - destruct Ht as [Hp|[id ->]]; [destruct t; try done|]; simpl;
      unfold wg_Done; rewrite Hctx, wg_Add_ok by lia; done.
  - apply exits_within_now; [|done]. simpl. rewrite app_nil_r.
    apply list_lookup_insert_eq. by eapply lookup_lt_Some.
Qed.

Lemma exits_at_go (i : nat) (m : machine) (id : Z) (tk : Task) :
  crashed m = None ->
  ctxDone (pool m) = true ->
  1 <= wg (pool m) ->
  threads m !! i = Some (Worker id (WGo tk)) ->
  exits_within 2 i m.
Proof.
  intros Hok Hctx Hwg Hi.
  eapply (exits_within_step 1 i m CaseDone); [done|done|reflexivity|].
  eapply exits_at_select; simpl; try done.
  - apply (exec_Run_next m i CaseDone _ _ _ _ Hok Hi eq_refl).
  - right. by eexists.
Qed.

Lemma exits_at_add (i : nat) (m : machine) (id : Z) (tk : Task) :
  crashed m = None ->
  ctxDone (pool m) = true ->
  0 <= wg (pool m) ->
  threads m !! i = Some (Worker id (WAdd tk)) ->
  exits_within 3 i m.
Proof.
  intros Hok Hctx Hwg Hi.
  assert (thread_step (pool m) (Worker id (WAdd tk)) CaseDone
          = Next (set_wg (pool m) (wg (pool m) + 1)) (Worker id (WGo tk)) [])
    as Hs by (simpl; by rewrite wg_Add_ok by lia).
  eapply (exits_within_step 2 i m CaseDone); [done|done|exact Hs|].
  eapply exits_at_go; simpl; try done; [lia|].
  apply (exec_Run_next m i CaseDone _ _ _ _ Hok Hi Hs).
Qed.

Lemma exits_at_process (i : nat) (m : machine) (id : Z) (tk : Task) :
  crashed m = None ->
  ctxDone (pool m) = true ->
  0 <= wg (pool m) ->
  threads m !! i = Some (Worker id (WProcess tk)) ->
  exits_within 4 i m.
Proof.
  intros Hok Hctx Hwg Hi.
  eapply (exits_within_step 3 i m CaseDone); [done|done|reflexivity|].
  eapply exits_at_add; simpl; try done.
  apply (exec_Run_next m i CaseDone _ _ _ _ Hok Hi eq_refl).
Qed.

(** X18: the cancellation signal is observed by every goroutine of the
    pool.  In every run, once the signal is raised, a worker, helper,
    monitor or metrics sampler is never stuck: by steps of its own alone,
    at most four of them, it reaches its return (a worker finishes at
    most the task it holds and registers its helper first; the periodic
    goroutines return at their next [select]). *)
Theorem cancelled_goroutine_exits (expectedTasks : nat)
    (clients : list (list call)) (sched : list event) (m : machine)
    (i : nat) (t : thread) :
  run sched (boot expectedTasks clients) = Some m ->
  crashed m = None ->
  ctxDone (pool m) = true ->
  threads m !! i = Some t ->
  live t = true ->
  exits_within 4 i m.
Proof.
  intros Hrun Hok Hctx Hi Hl.
  destruct (boot_invariants _ _ _ _ Hrun) as [Hwg _].
  unfold wg_counts in Hwg.
  pose proof (registered_elem t (threads m)
                (list_elem_of_lookup_2 _ _ _ Hi)) as Hreg.
  destruct t as [id [|tk|tk|tk]|taskID tick|tick|tick| |]; try done;
    simpl in Hreg.
  - eapply exits_within_mono; [|eapply exits_at_select; try done];
      [lia|lia|by right; eexists].
  - eapply exits_at_process; try done. lia.
  - eapply exits_within_mono; [|eapply exits_at_add; try done]; lia.
  - eapply exits_within_mono; [|eapply exits_at_go; try done]; lia.
  - eapply exits_within_mono; [|eapply exits_at_select; try done];
      [lia|lia|by left].
  - eapply exits_within_mono; [|eapply exits_at_select; try done];
      [lia|lia|by left].
  - eapply exits_within_mono; [|eapply exits_at_select; try done];
      [lia|lia|by left].
Qed.

Lemma cancelled_goroutine_exits_witness :
  exists m,
    run (start_one ++ [Run 0 CaseQueue; Run 1 CaseQueue; Run 0 CaseDone])
      (boot 1 [demo]) = Some m
    /\ exits_within 4 1 m.
Proof.
  eexists. split; [vm_compute; reflexivity|].
  eapply (cancelled_goroutine_exits 1 [demo]
            (start_one ++ [Run 0 CaseQueue; Run 1 CaseQueue; Run 0 CaseDone])
            _ 1 (Worker 0 (WProcess t1))).
  - vm_compute; reflexivity.
  - reflexivity.
  - reflexivity.
  - reflexivity.
  - reflexivity.
Defined.

(** ** A pool without workers *)

Lemma periodic_step_open (w w' : OptimizedWorker) (t t' : thread)
    (b : branch) (sp : list thread) :
  periodic t = true ->
  ctxDone w = false ->
  thread_step w t b = Next w' t' sp ->
  w' = w /\ periodic t' = true /\ sp = [].
Proof.
  intros Hp Hc H. destruct t; try done; destruct b; simpl in H;
    rewrite ?Hc in H; repeat case_match; by simplify_eq.
Qed.

Lemma periodic_no_panic (w : OptimizedWorker) (t : thread) (b : branch)
    (f : fault) :
  periodic t = true -> ctxDone w = false -> thread_step w t b <> Panic f.
Proof.
  intros Hp Hc. destruct t; try done; destruct b; simpl;
    rewrite ?Hc; by repeat case_match.
Qed.

Lemma starving_exec (cap : nat) (T : list Task) (rest : list call)
    (e : event) (m m' : machine) :
  (cap < length T)%nat ->
  exec e m = Some m' -> starving cap T rest m -> starving cap T rest m'.
Proof.
  intros Hbig He (Hok & Hctx & Hq & Hcap & Hres & Hwg & c & ps & Hth & Hps
                  & Hc).
  unfold exec in He. rewrite Hok, Hth in He.
  destruct e as [[|j] b|[|j]|[|j] [|k]]; simpl in He.
  - (* the client runs *)
    destruct Hc as [(pc & -> & Hpc & Hempty)|(t & ts & -> & HT)].
    + destruct pc; try done; simpl in He; rewrite ?wg_Add_ok in He by lia;
        simplify_eq/=; unfold starving; simpl;
        (repeat split; try done; try lia);
        eexists _, _; (split; [reflexivity|]);
        (split; [try (apply Forall_app; split; [done|by repeat constructor]);
                 done|]).
      * left. by eexists.
      * left. by eexists.
      * left. by eexists.
      * right. destruct T as [|t ts]; [simpl in Hbig; lia|].
        exists t, ts. by rewrite Hempty.
    + destruct b; simpl in He; rewrite ?Hctx, ?Hq in He; try done.
      destruct (Nat.ltb_spec (length (taskQueue (pool m))) (queueCap (pool m)))
        as [Hlt|]; [|done].
      injection He as <-.
      assert (ts <> []) as Hts.
      { intros ->. rewrite HT, length_app in Hbig. simpl in Hbig. lia. }
      destruct ts as [|t' ts']; [done|].
      unfold starving; simpl. repeat split; try done.
      eexists _, _. split; [reflexivity|]. rewrite app_nil_r.
      split; [done|]. right. exists t', ts'. split; [done|].
      by rewrite <- app_assoc.
  - (* a periodic goroutine runs *)
    destruct (ps !! j) as [t|] eqn:Hj; [|done].
    pose proof (Forall_lookup_1 _ _ _ _ Hps Hj) as Hp.
    destruct (thread_step (pool m) t b) as [|f|w' t' sp] eqn:Hs;
      [done|by apply periodic_no_panic in Hs|].
    apply periodic_step_open in Hs as (-> & Hp' & ->); try done.
    simplify_eq/=. unfold starving; simpl. repeat split; try done.
    eexists _, _. split; [reflexivity|]. rewrite app_nil_r.
    split; [by apply Forall_insert|done].
  - (* no ticker in the client *)
    destruct Hc as [(pc & -> & _)|(t & ts & -> & _)]; done.
  - (* a ticker fires *)
    destruct (ps !! j) as [t|] eqn:Hj; [|done].
    destruct (fire t) as [t'|] eqn:Hf; simplify_eq/=.
    unfold starving; simpl. repeat split; try done.
    eexists _, _. split; [reflexivity|].
    split; [|done]. apply Forall_insert; [done|].
    destruct t; by simplify_eq/=.
  - (* no worker to hand a task to *)
    destruct Hc as [(pc & -> & Hpc & _)|(t & ts & -> & _)];
      [by destruct pc|done].
  - destruct (ps !! k) as [r|] eqn:Hk; [|done].
    pose proof (Forall_lookup_1 _ _ _ _ Hps Hk) as Hp.
    destruct Hc as [(pc & -> & Hpc & _)|(t & ts & -> & _)];
      [by destruct pc|by destruct r].
  - destruct (ps !! j) as [s|] eqn:Hj; [|done].
    pose proof (Forall_lookup_1 _ _ _ _ Hps Hj) as Hp. by destruct s.
  - destruct (ps !! j) as [s|] eqn:Hj; [|done].
    pose proof (Forall_lookup_1 _ _ _ _ Hps Hj) as Hp.
    destruct (ps !! k); by destruct s.
Qed.

(** X19: a pool started with no worker ([numWorkers] zero or negative)
    whose client then submits more tasks than the queue holds never gets
    out of [ProcessTasks]: in every run the client is still inside [Start]
    or blocked in [ProcessTasks] with a task left to send, the
    cancellation signal is never raised, nothing is processed, and the
    calls after [ProcessTasks] (a [Stop()], say) are never reached. *)
Theorem no_worker_full_queue_blocks (expectedTasks : nat) (numWorkers : Z)
    (T : list Task) (rest : list call) (sched : list event) (m : machine) :
  numWorkers <= 0 ->
  (expectedTasks < length T)%nat ->
  run sched
    (boot expectedTasks [CallStart numWorkers :: CallProcessTasks T :: rest])
  = Some m ->
  ctxDone (pool m) = false
  /\ results (pool m) = []
  /\ crashed m = None
  /\ ((exists pc,
         threads m !! 0%nat = Some (Client pc (CallProcessTasks T :: rest)))
      \/ (exists t ts,
            threads m !! 0%nat = Some (Client (Sending (t :: ts)) rest))).
Proof.
  intros Hn Hbig Hrun.
  cut (starving expectedTasks T rest m).
  { intros (Hok & Hctx & _ & _ & Hres & _ & c & ps & Hth & _ & Hc).
    repeat split; try done. rewrite Hth. simpl.
    destruct Hc as [(pc & -> & _)|(t & ts & -> & _)]; [left|right]; eauto. }
  revert m Hrun. induction sched as [|e sched IH] using rev_ind;
    intros m Hrun.
  - simplify_eq/=. unfold starving, boot; simpl. repeat split; try done.
    eexists _, _. split; [reflexivity|]. split; [constructor|].
    left. unfold start_loop. destruct (Z.ltb_spec 0 numWorkers); [lia|].
    by eexists.
  - apply run_snoc in Hrun as (m0 & Hrun0 & He).
    eapply starving_exec; eauto.
Qed.

Lemma no_worker_full_queue_blocks_witness :
  exists m,
    run (replicate 4 (Run 0 CaseDone) ++ [Run 0 CaseQueue; Tick 1])
      (boot 1 [[CallStart 0; CallProcessTasks [t1; t2]; CallStop]]) = Some m
    /\ threads m !! 0%nat = Some (Client (Sending [t2]) [CallStop])
    /\ results (pool m) = [].
Proof.
  eexists. split; [vm_compute; reflexivity|]. split; [reflexivity|].
  eapply (no_worker_full_queue_blocks 1 0 [t1; t2] [CallStop]
            (replicate 4 (Run 0 CaseDone) ++ [Run 0 CaseQueue; Tick 1])).
  - lia.
  - simpl. lia.
  - vm_compute; reflexivity.
Defined.

(** * Properties of the bad worker *)

Module bad_worker.
Import bad.

Lemma bad_replaced_insert (l : list thread) (i : nat) (t t' : thread) :
  l !! i = Some t -> replaced l t t' (<[i:=t']> l).
Proof.
  intros Hi. exists (take i l), (drop (S i) l). split.
  - by rewrite take_drop_middle.
  - apply insert_take_drop. by eapply lookup_lt_Some.
Qed.

Lemma bad_replaced_elem (l l' : list thread) (t t' : thread) :
  replaced l t t' l' -> t ∈ l.
Proof.
  intros (l1 & l2 & -> & _). apply elem_of_app. right. apply list_elem_of_here.
Qed.

Lemma bad_Forall_replaced (P : thread -> Prop) (l l' : list thread)
    (t t' : thread) :
  replaced l t t' l' -> Forall P l -> P t' -> Forall P l'.
Proof.
  intros (l1 & l2 & -> & ->) Hl Ht'.
  apply Forall_app in Hl as [H1 H2]. apply Forall_cons in H2 as [_ H2].
  apply Forall_app. split; [done|]. by constructor.
Qed.

Lemma bad_replaced_old (P : thread -> Prop) (l l' : list thread)
    (t t' : thread) :
  replaced l t t' l' -> Forall P l -> P t.
Proof.
  intros (l1 & l2 & -> & ->) Hl.
  apply Forall_app in Hl as [_ H2]. by apply Forall_cons in H2 as [? _].
Qed.

Lemma sum_replaced (f : thread -> nat) (l l' : list thread) (t t' : thread) :
  replaced l t t' l' ->
  (sum_list_with f l' + f t = sum_list_with f l + f t')%nat.
Proof.
  intros (l1 & l2 & -> & ->). rewrite !sum_list_with_app. simpl. lia.
Qed.

Lemma sum_elem (f : thread -> nat) (t : thread) (l : list thread) :
  t ∈ l -> (f t <= sum_list_with f l)%nat.
Proof.
  induction l as [|x l IH]; intros H.
  - by apply elem_of_nil in H.
  - simpl. apply elem_of_cons in H as [<-|H]; [lia|]. apply IH in H. lia.
Qed.

Lemma sum_zero (f : thread -> nat) (l : list thread) :
  sum_list_with f l = 0%nat -> Forall (fun t => f t = 0%nat) l.
Proof.
  induction l as [|x l IH]; simpl; intros H; constructor; [lia|].
  apply IH. lia.
Qed.

Lemma handoff_inv (w : BadWorker) (s r s' r' : thread) :
  handoff w s r = Some (s', r') ->
  exists t ts rest id,
    s = Client (Sending (t :: ts)) rest /\ r = Worker id WRange
    /\ s' = sending ts rest /\ r' = Worker id (WProcess t)
    /\ queueClosed w = false.
Proof.
  intros H.
  destruct s as [| | | |[| | | |[|t ts]| |] rest|]; try done.
  destruct r as [id []| | | | |]; try done. simpl in H.
  destruct (queueClosed w) eqn:Hq; simplify_eq. by eexists _, _, _, _.
Qed.

Lemma bad_exec_transition (e : event) (m m' : machine) :
  exec e m = Some m' -> crashed m = None /\ transition m m'.
Proof.
  unfold exec. destruct (crashed m); [done|]. intros H. split; [done|].
  destruct e as [i|i|i j].
  - destruct (threads m !! i) as [t|] eqn:Hi; [|done].
    destruct (thread_step (pool m) t) as [|f|w' t' sp] eqn:Hstep;
      simplify_eq.
    + eapply transition_panic; [|done]. by eapply list_elem_of_lookup_2.
    + eapply transition_step; [done|]. by apply bad_replaced_insert.
  - destruct (threads m !! i) as [t|] eqn:Hi; [|done].
    destruct (fire t) as [t'|] eqn:Hfire; simplify_eq.
    eapply transition_tick; [done|]. by apply bad_replaced_insert.
  - destruct (threads m !! i) as [s|] eqn:Hi; [|done].
    destruct (threads m !! j) as [r|] eqn:Hj; [|done].
    destruct (handoff (pool m) s r) as [[s' r']|] eqn:Hh; simplify_eq.
    eapply transition_handoff; [done|by apply bad_replaced_insert|].
    apply bad_replaced_insert. rewrite list_lookup_insert_ne; [done|].
    intros ->. apply handoff_inv in Hh as (? & ? & ? & ? & -> & -> & _).
    congruence.
Qed.

Lemma bad_run_invariant (P : machine -> Prop) :
  (forall m m', crashed m = None -> transition m m' -> P m -> P m') ->
  forall sched m m', run sched m = Some m' -> P m -> P m'.
Proof.
  intros Hstep sched. induction sched as [|e sched IH]; intros m m' Hrun HP.
  - by simplify_eq/=.
  - simpl in Hrun. destruct (exec e m) as [m1|] eqn:He; [|done].
    apply bad_exec_transition in He as [Hc Ht]. eauto.
Qed.

Lemma bad_run_snoc (sched : list event) (e : event) (m m' : machine) :
  run (sched ++ [e]) m = Some m' ->
  exists m0, run sched m = Some m0 /\ exec e m0 = Some m'.
Proof.
  revert m. induction sched as [|e0 sched IH]; intros m; simpl.
  - destruct (exec e m) as [m1|] eqn:He; [|done]. intros [= <-]. eauto.
  - destruct (exec e0 m) as [m1|]; [|done]. apply IH.
Qed.

Ltac step_cases H :=
  match type of H with
  | thread_step _ ?t = _ =>
      destruct t as [? [| |]|? ?|?|?|[| | | |[|? ?]| |] ?|];
      simpl in H; unfold periodic_wait, wg_Add in H;
      repeat case_match; simplify_eq
  end.

(** *** Measures at the entry of a call *)

Section entry.
Context {A : Type} (f : thread -> A) (g : list call -> A).
Hypothesis f_exited : f Exited = g [].
Hypothesis f_start : forall pc n rest,
  (pc = StartAdd 0 n \/ pc = StartMonitorGo) ->
  f (Client pc rest) = g (CallStart n :: rest).
Hypothesis f_sending : forall t ts rest,
  f (Client (Sending (t :: ts)) rest) = g (CallProcessTasks (t :: ts) :: rest).
Hypothesis f_stop : forall rest, f (Client StopClose rest) = g (CallStop :: rest).
Hypothesis g_skip : forall rest, g (CallProcessTasks [] :: rest) = g rest.

Lemma entry_next (rest : list call) : f (next rest) = g rest.
Proof using All.
  induction rest as [|[n|[|t ts]|] rest IH]; cbn [next]; auto.
  - apply f_start. unfold start_loop. destruct (0 <? n); auto.
  - by rewrite IH, g_skip.
Qed.
End entry.

Lemma bad_registered_next (rest : list call) : registered (next rest) = 0%nat.
Proof.
  apply (entry_next registered (fun _ => 0%nat)); try done.
  by intros pc n r [-> | ->].
Qed.

Lemma helper_due_next (rest : list call) : helper_due (next rest) = 0%nat.
Proof.
  apply (entry_next helper_due (fun _ => 0%nat)); try done.
Qed.

Lemma bad_hand_next (rest : list call) : hand (next rest) = calls_tasks rest.
Proof.
  apply (entry_next hand calls_tasks); try done.
  by intros pc n r [-> | ->].
Qed.

Lemma bad_closes_ahead_next (rest : list call) :
  closes_ahead (next rest) = calls_stops rest.
Proof.
  apply (entry_next closes_ahead calls_stops); try done.
  by intros pc n r [-> | ->].
Qed.

Lemma bad_disciplined_next (rest : list call) :
  disciplined (next rest) = sends_then_stop rest.
Proof.
  apply (entry_next disciplined sends_then_stop); try done.
  by intros pc n r [-> | ->].
Qed.

Lemma bad_stop_progress_next (w : BadWorker) (rest : list call) :
  stop_progress w (next rest).
Proof.
  induction rest as [|[n|[|t ts]|] rest IH]; cbn [next]; try done.
  unfold start_loop. by destruct (0 <? n).
Qed.

Lemma sending_cases (ts : list Task) (rest : list call) :
  (ts = [] /\ sending ts rest = next rest)
  \/ (exists t ts', ts = t :: ts' /\ sending ts rest = Client (Sending ts) rest).
Proof. destruct ts; [left|right]; eauto. Qed.

Lemma start_loop_cases (i n : Z) :
  start_loop i n = StartAdd i n \/ start_loop i n = StartMonitorGo.
Proof. unfold start_loop. destruct (i <? n); auto. Qed.

Create Rewrite HintDb bad_measures.
#[local] Hint Rewrite bad_registered_next helper_due_next bad_hand_next
  bad_closes_ahead_next bad_disciplined_next : bad_measures.

Ltac measure_crush :=
  repeat match goal with
    | |- context [start_loop ?i ?n] =>
        destruct (start_loop_cases i n) as [-> | ->]
    end;
  autorewrite with bad_measures; simpl.

(** *** The wait-group counts the primary workers *)

Lemma bad_step_registered (w w' : BadWorker) (t t' : thread) (sp : list thread) :
  thread_step w t = Next w' t' sp ->
  wg w' + Z.of_nat (registered t)
  = wg w + Z.of_nat (registered t' + sum_list_with registered sp).
Proof. intros H. step_cases H; measure_crush; lia. Qed.

Lemma bad_wg_counts_step (m m' : machine) :
  crashed m = None -> transition m m' -> wg_counts m -> wg_counts m'.
Proof.
  unfold wg_counts. intros _ Ht Hm.
  destruct Ht as [t f _ _|t w' t' sp l' Hs Hr|t t' l' Hf Hr
                 |s r s' r' l1 l' Hh Hr1 Hr2]; simpl.
  - done.
  - apply bad_step_registered in Hs.
    apply (sum_replaced registered) in Hr.
    rewrite sum_list_with_app. lia.
  - apply (sum_replaced registered) in Hr.
    destruct t; simplify_eq/=; lia.
  - apply handoff_inv in Hh as (t & ts & rest & id & -> & -> & -> & -> & _).
    apply (sum_replaced registered) in Hr1, Hr2.
    assert (registered (sending ts rest) = 0%nat)
      by (destruct ts; simpl; [apply bad_registered_next|done]).
    simpl in *. lia.
Qed.

Lemma bad_wg_counts_boot (clients : list (list call)) : wg_counts (boot clients).
Proof.
  unfold wg_counts, boot. simpl.
  induction clients as [|c clients IH]; simpl; [done|].
  rewrite bad_registered_next. lia.
Qed.

(** *** A closed queue stays closed *)

Lemma step_closed (w w' : BadWorker) (t t' : thread) (sp : list thread) :
  thread_step w t = Next w' t' sp ->
  (queueClosed w = true -> queueClosed w' = true)
  /\ (stop_progress w t -> stop_progress w' t')
  /\ Forall (stop_progress w') sp.
Proof.
  intros H.
  step_cases H; repeat split; simpl; auto using bad_stop_progress_next;
    try (by repeat constructor);
    try (intros _; destruct (start_loop_cases (i + 1) numWorkers)
           as [-> | ->]; done).
Qed.

Lemma bad_stop_progress_mono (w w' : BadWorker) (t : thread) :
  (queueClosed w = true -> queueClosed w' = true) ->
  stop_progress w t -> stop_progress w' t.
Proof. intros Hq. destruct t as [| | | |[] ?|]; simpl; tauto. Qed.

Lemma stop_progress_step (m m' : machine) :
  crashed m = None -> transition m m' ->
  Forall (stop_progress (pool m)) (threads m) ->
  Forall (stop_progress (pool m')) (threads m').
Proof.
  intros _ Ht Hm.
  destruct Ht as [t f _ _|t w' t' sp l' Hs Hr|t t' l' Hf Hr
                 |s r s' r' l1 l' Hh Hr1 Hr2]; simpl.
  - done.
  - pose proof (bad_replaced_old _ _ _ _ _ Hr Hm) as Hold.
    destruct (step_closed _ _ _ _ _ Hs) as (Hq & Hnew & Hsp).
    apply Forall_app. split; [|done].
    eapply bad_Forall_replaced; [done| |by auto].
    eapply Forall_impl; [done|]. intros ?. by apply bad_stop_progress_mono.
  - eapply bad_Forall_replaced; [done|done|]. destruct t; by simplify_eq/=.
  - apply handoff_inv in Hh as (t & ts & rest & id & -> & -> & -> & -> & _).
    eapply bad_Forall_replaced; [done| |done].
    eapply bad_Forall_replaced; [done|done|].
    destruct ts; simpl; [apply bad_stop_progress_next|done].
Qed.

Lemma closed_run (sched : list event) (m m' : machine) :
  run sched m = Some m' ->
  queueClosed (pool m) = true -> queueClosed (pool m') = true.
Proof.
  apply (bad_run_invariant (fun m => queueClosed (pool m) = true)).
  intros m1 m2 _ Ht Hq.
  destruct Ht as [| t w' t' sp l' Hs _| |]; simpl; try done.
  apply step_closed in Hs as [Hq' _]. auto.
Qed.

Lemma bad_boot_invariants (clients : list (list call)) (sched : list event)
    (m : machine) :
  run sched (boot clients) = Some m ->
  wg_counts m /\ Forall (stop_progress (pool m)) (threads m).
Proof.
  intros Hrun.
  eapply (bad_run_invariant
            (fun m => wg_counts m
                      /\ Forall (stop_progress (pool m)) (threads m)));
    [|exact Hrun|].
  - intros m1 m2 Hc Ht [H1 H2].
    split; [by eapply bad_wg_counts_step|by eapply stop_progress_step].
  - split; [apply bad_wg_counts_boot|]. clear Hrun. unfold boot. simpl.
    induction clients as [|c clients IH]; simpl; constructor;
      [apply bad_stop_progress_next|done].
Qed.

Lemma bad_Wait_returns (m m' : machine) (i : nat) (rest : list call) :
  threads m !! i = Some (Client StopWait rest) ->
  exec (Run i) m = Some m' ->
  wg (pool m) = 0
  /\ m' = mkMachine (pool m) (<[i:=next rest]> (threads m)) None.
Proof.
  intros Hi Hexec. unfold exec in Hexec. destruct (crashed m); [done|].
  rewrite Hi in Hexec. simpl in Hexec.
  destruct (Z.eqb_spec (wg (pool m)) 0) as [Hzero|]; [|done].
  simplify_eq. by rewrite app_nil_r.
Qed.

(** *** The goroutine leak *)

Lemma periodic_step (w w' : BadWorker) (t t' : thread) (sp : list thread) :
  thread_step w t = Next w' t' sp -> periodic t = true -> periodic t' = true.
Proof. intros H Hp. destruct t; try done; step_cases H; done. Qed.

Lemma periodic_exec (e : event) (m m' : machine) (i : nat) (t : thread) :
  exec e m = Some m' ->
  threads m !! i = Some t -> periodic t = true ->
  exists t', threads m' !! i = Some t' /\ periodic t' = true.
Proof.
  intros He Hi Hp. unfold exec in He.
  destruct (crashed m); [done|]. destruct e as [j|j|j k].
  - destruct (threads m !! j) as [tj|] eqn:Hj; [|done].
    destruct (thread_step (pool m) tj) as [|f|w' t' sp] eqn:Hs;
      simplify_eq/=; [by eauto|].
    rewrite lookup_app_l
      by (rewrite length_insert; by eapply lookup_lt_Some).
    destruct (decide (j = i)) as [->|Hne].
    + rewrite list_lookup_insert_eq by (by eapply lookup_lt_Some).
      assert (tj = t) as -> by congruence. eauto using periodic_step.
    + rewrite list_lookup_insert_ne by done. eauto.
  - destruct (threads m !! j) as [tj|] eqn:Hj; [|done].
    destruct (fire tj) as [t'|] eqn:Hf; simplify_eq/=.
    destruct (decide (j = i)) as [->|Hne].
    + rewrite list_lookup_insert_eq by (by eapply lookup_lt_Some).
      assert (tj = t) as -> by congruence.
      eexists. split; [done|]. destruct t; by simplify_eq/=.
    + rewrite list_lookup_insert_ne by done. eauto.
  - destruct (threads m !! j) as [s|] eqn:Hj; [|done].
    destruct (threads m !! k) as [r|] eqn:Hk; [|done].
    destruct (handoff (pool m) s r) as [[s' r']|] eqn:Hh; simplify_eq/=.
    apply handoff_inv in Hh as (tk & ts & rest & id & -> & -> & -> & -> & _).
    destruct (decide (k = i)) as [->|Hne]; [by simplify_eq|].
    rewrite list_lookup_insert_ne by done.
    destruct (decide (j = i)) as [->|Hne']; [by simplify_eq|].
    rewrite list_lookup_insert_ne by done. eauto.
Qed.

(** X21: the goroutine leak of the bad worker.  A helper, the monitor and
    the metrics sampler never return: one that is running at some point
    of an execution is still running at every later point, whatever is
    called or scheduled in between, [Stop()] included. *)
Theorem periodic_goroutines_never_return (sched : list event)
    (m m' : machine) (i : nat) (t : thread) :
  run sched m = Some m' ->
  threads m !! i = Some t ->
  periodic t = true ->
  exists t', threads m' !! i = Some t' /\ periodic t' = true.
Proof.
  revert m t. induction sched as [|e sched IH]; intros m t Hrun Hi Hp.
  - simplify_eq/=. eauto.
  - simpl in Hrun. destruct (exec e m) as [m1|] eqn:He; [|done].
    destruct (periodic_exec _ _ _ _ _ He Hi Hp) as (t1 & Hi1 & Hp1). eauto.
Qed.

Lemma periodic_goroutines_never_return_witness :
  exists m m' t',
    run [Run 0; Run 0; Run 0] (boot [demo]) = Some m
    /\ run [Run 0; Handoff 0 1; Run 1; Run 1; Run 0; Run 1; Run 0] m
       = Some m'
    /\ threads m' !! 0%nat = Some Exited
    /\ threads m' !! 2%nat = Some t' /\ periodic t' = true.
Proof.
  eexists _, _.
  destruct (periodic_goroutines_never_return
              [Run 0; Handoff 0 1; Run 1; Run 1; Run 0; Run 1; Run 0]
              (mkMachine (mkBad false [] 1)
                 [Client StartMetricsGo [CallProcessTasks [t1]; CallStop];
                  Worker 0 WRange; Monitor false] None)
              _ 2 (Monitor false) eq_refl eq_refl eq_refl) as (t' & H1 & H2).
  exists t'. split; [reflexivity|]. split; [reflexivity|].
  split; [reflexivity|]. by split.
Defined.

(** *** One helper for every result *)

Lemma step_helpers (w w' : BadWorker) (t t' : thread) (sp : list thread) :
  thread_step w t = Next w' t' sp ->
  (helper_due t' + sum_list_with helper_due sp + length (results w)
   = helper_due t + length (results w'))%nat.
Proof.
  intros H. step_cases H; measure_crush; rewrite ?length_app; simpl; lia.
Qed.

Lemma helpers_run (clients : list (list call)) (sched : list event)
    (m : machine) :
  run sched (boot clients) = Some m ->
  sum_list_with helper_due (threads m) = length (results (pool m)).
Proof.
  intros Hrun.
  eapply (bad_run_invariant
            (fun m => sum_list_with helper_due (threads m)
                      = length (results (pool m)))); [|exact Hrun|].
  - intros m1 m2 _ Ht Hm.
    destruct Ht as [t f _ _|t w' t' sp l' Hs Hr|t t' l' Hf Hr
                   |s r s' r' l1 l' Hh Hr1 Hr2]; simpl.
    + done.
    + apply step_helpers in Hs. apply (sum_replaced helper_due) in Hr.
      rewrite sum_list_with_app. lia.
    + apply (sum_replaced helper_due) in Hr.
      destruct t; simplify_eq/=; lia.
    + apply handoff_inv in Hh as (t & ts & rest & id & -> & -> & -> & -> & _).
      apply (sum_replaced helper_due) in Hr1, Hr2.
      assert (helper_due (sending ts rest) = 0%nat)
        by (destruct ts; simpl; [apply helper_due_next|done]).
      simpl in *. lia.
  - clear Hrun. unfold boot. simpl.
    induction clients as [|c clients IH]; simpl; [done|].
    by rewrite helper_due_next.
Qed.

Lemma helper_due_no_worker (l : list thread) :
  Forall (fun t => is_worker t = false) l ->
  sum_list_with helper_due l = sum_list_with is_helper l.
Proof.
  induction 1 as [|t l Ht _ IH]; simpl; [done|].
  rewrite IH. by destruct t.
Qed.

(** *** What [Stop()] leaves running *)

Lemma is_monitor_next (rest : list call) : is_monitor (next rest) = 0%nat.
Proof. apply (entry_next is_monitor (fun _ => 0%nat)); done. Qed.

Lemma is_metrics_next (rest : list call) : is_metrics (next rest) = 0%nat.
Proof. apply (entry_next is_metrics (fun _ => 0%nat)); done. Qed.

Lemma monitors_ahead_next (rest : list call) :
  monitors_ahead (next rest) = calls_starts rest.
Proof.
  apply (entry_next monitors_ahead calls_starts); try done.
  by intros pc n r [-> | ->].
Qed.

Lemma metrics_ahead_next (rest : list call) :
  metrics_ahead (next rest) = calls_starts rest.
Proof.
  apply (entry_next metrics_ahead calls_starts); try done.
  by intros pc n r [-> | ->].
Qed.

Lemma is_client_next (rest : list call) : (is_client (next rest) <= 1)%nat.
Proof. destruct (next rest); simpl; lia. Qed.

#[local] Hint Rewrite is_monitor_next is_metrics_next monitors_ahead_next
  metrics_ahead_next : bad_measures.

Lemma step_monitors (w w' : BadWorker) (t t' : thread) (sp : list thread) :
  thread_step w t = Next w' t' sp ->
  (is_monitor t' + sum_list_with is_monitor sp
   + (monitors_ahead t' + sum_list_with monitors_ahead sp)
   = is_monitor t + monitors_ahead t)%nat
  /\ (is_metrics t' + sum_list_with is_metrics sp
      + (metrics_ahead t' + sum_list_with metrics_ahead sp)
      = is_metrics t + metrics_ahead t)%nat.
Proof. intros H. step_cases H; measure_crush; split; lia. Qed.

Lemma step_clients (w w' : BadWorker) (t t' : thread) (sp : list thread) :
  thread_step w t = Next w' t' sp ->
  (is_client t' + sum_list_with is_client sp <= is_client t)%nat.
Proof.
  intros H. step_cases H; simpl;
    try match goal with
      | |- context [next ?r] => pose proof (is_client_next r)
      end; lia.
Qed.

Lemma launched_run (clients : list (list call)) (sched : list event)
    (m : machine) :
  run sched (boot clients) = Some m ->
  (sum_list_with is_monitor (threads m)
   + sum_list_with monitors_ahead (threads m)
   = sum_list_with calls_starts clients)%nat
  /\ (sum_list_with is_metrics (threads m)
      + sum_list_with metrics_ahead (threads m)
      = sum_list_with calls_starts clients)%nat
  /\ (sum_list_with is_client (threads m) <= length clients)%nat.
Proof.
  intros Hrun.
  eapply (bad_run_invariant
            (fun m =>
               (sum_list_with is_monitor (threads m)
                + sum_list_with monitors_ahead (threads m)
                = sum_list_with calls_starts clients)%nat
               /\ (sum_list_with is_metrics (threads m)
                   + sum_list_with metrics_ahead (threads m)
                   = sum_list_with calls_starts clients)%nat
               /\ (sum_list_with is_client (threads m)
                   <= length clients)%nat)); [|exact Hrun|].
  - intros m1 m2 _ Ht (Hmo & Hme & Hcl).
    destruct Ht as [t f _ _|t w' t' sp l' Hs Hr|t t' l' Hf Hr
                   |s r s' r' l1 l' Hh Hr1 Hr2]; simpl.
    + done.
    + pose proof (step_monitors _ _ _ _ _ Hs) as [H1 H2].
      apply step_clients in Hs.
      pose proof (sum_replaced is_monitor _ _ _ _ Hr).
      pose proof (sum_replaced monitors_ahead _ _ _ _ Hr).
      pose proof (sum_replaced is_metrics _ _ _ _ Hr).
      pose proof (sum_replaced metrics_ahead _ _ _ _ Hr).
      pose proof (sum_replaced is_client _ _ _ _ Hr).
      rewrite !sum_list_with_app. lia.
    + pose proof (sum_replaced is_monitor _ _ _ _ Hr).
      pose proof (sum_replaced monitors_ahead _ _ _ _ Hr).
      pose proof (sum_replaced is_metrics _ _ _ _ Hr).
      pose proof (sum_replaced metrics_ahead _ _ _ _ Hr).
      pose proof (sum_replaced is_client _ _ _ _ Hr).
      destruct t; simplify_eq/=; lia.
    + apply handoff_inv in Hh as (t & ts & rest & id & -> & -> & -> & -> & _).
      pose proof (sum_replaced is_monitor _ _ _ _ Hr1).
      pose proof (sum_replaced monitors_ahead _ _ _ _ Hr1).
      pose proof (sum_replaced is_metrics _ _ _ _ Hr1).
      pose proof (sum_replaced metrics_ahead _ _ _ _ Hr1).
      pose proof (sum_replaced is_client _ _ _ _ Hr1).
      pose proof (sum_replaced is_monitor _ _ _ _ Hr2).
      pose proof (sum_replaced monitors_ahead _ _ _ _ Hr2).
      pose proof (sum_replaced is_metrics _ _ _ _ Hr2).
      pose proof (sum_replaced metrics_ahead _ _ _ _ Hr2).
      pose proof (sum_replaced is_client _ _ _ _ Hr2).
      pose proof (is_client_next rest).
      destruct ts; simpl in *;
        autorewrite with bad_measures in *; simpl in *; lia.
  - clear Hrun. unfold boot. simpl.
    induction clients as [|c clients IH]; simpl; [lia|].
    autorewrite with bad_measures.
    pose proof (is_client_next c). lia.
Qed.

Lemma lone_client (f : thread -> nat) (l : list thread) (t : thread) :
  (forall t, is_client t = 0%nat -> f t = 0%nat) ->
  (sum_list_with is_client l <= 1)%nat ->
  t ∈ l -> is_client t = 1%nat ->
  sum_list_with f l = f t.
Proof.
  intros Hf Hone Hin Ht.
  apply list_elem_of_split in Hin as (l1 & l2 & ->).
  rewrite sum_list_with_app in *. simpl in *.
  assert (forall l, sum_list_with is_client l = 0%nat ->
                    sum_list_with f l = 0%nat) as Hz.
  { intros l Hl. apply sum_zero in Hl.
    induction Hl as [|x l Hx _ IH]; simpl; [done|]. rewrite (Hf x Hx). lia. }
  rewrite (Hz l1), (Hz l2); lia.
Qed.

(** X20: [Stop()] of the bad worker waits for the primary workers and for
    nothing else.  One goroutine makes the calls [calls]; in every run,
    when the [w.wg.Wait()] of its [Stop()] returns, with the calls [rest]
    still to make, the queue is closed, the counter is zero and every
    worker has returned, while all the other goroutines are still running:
    one helper for each result, and one monitor and one metrics sampler
    for each [Start()] called so far. *)
Theorem Stop_waits_for_workers_only (calls : list call)
    (sched : list event) (m m' : machine) (i : nat) (rest : list call) :
  run sched (boot [calls]) = Some m ->
  threads m !! i = Some (Client StopWait rest) ->
  exec (Run i) m = Some m' ->
  queueClosed (pool m') = true
  /\ wg (pool m') = 0
  /\ Forall (fun t => is_worker t = false) (threads m')
  /\ sum_list_with is_helper (threads m') = length (results (pool m'))
  /\ (sum_list_with is_monitor (threads m') + calls_starts rest
      = calls_starts calls)%nat
  /\ (sum_list_with is_metrics (threads m') + calls_starts rest
      = calls_starts calls)%nat.
Proof.
  intros Hrun Hi Hexec.
  destruct (bad_boot_invariants _ _ _ Hrun) as [Hwg Hstop].
  destruct (bad_Wait_returns _ _ _ _ Hi Hexec) as [Hzero ->]. simpl.
  rewrite Forall_lookup in Hstop. pose proof (Hstop _ _ Hi) as Hq.
  unfold wg_counts in Hwg. rewrite Hzero in Hwg.
  assert (Forall (fun t => is_worker t = false) (threads m)) as Hw.
  { eapply Forall_impl; [apply (sum_zero registered); lia|].
    intros t Ht. by destruct t. }
  assert (Forall (fun t => is_worker t = false)
            (<[i:=next rest]> (threads m))) as Hw'.
  { apply Forall_insert; [done|].
    clear. induction rest as [|[n|[|t ts]|] rest IH]; cbn [next]; done. }
  pose proof (bad_replaced_insert _ _ _ (next rest) Hi) as Hr.
  pose proof (helpers_run _ _ _ Hrun) as Hh.
  destruct (launched_run _ _ _ Hrun) as (Hmo & Hme & Hcl). simpl in *.
  pose proof (list_elem_of_lookup_2 _ _ _ Hi) as Hin.
  rewrite Nat.add_0_r in Hmo, Hme.
  rewrite (lone_client monitors_ahead _ _ ltac:(by intros []) Hcl Hin eq_refl)
    in Hmo.
  rewrite (lone_client metrics_ahead _ _ ltac:(by intros []) Hcl Hin eq_refl)
    in Hme.
  pose proof (sum_replaced helper_due _ _ _ _ Hr) as H1.
  pose proof (sum_replaced is_monitor _ _ _ _ Hr) as H2.
  pose proof (sum_replaced is_metrics _ _ _ _ Hr) as H3.
  autorewrite with bad_measures in *. simpl in *.
  repeat split; try done; try lia.
  rewrite <- helper_due_no_worker by done. lia.
Qed.

Lemma Stop_waits_for_workers_only_witness :
  exists m m',
    run run_to_wait (boot [demo]) = Some m
    /\ exec (Run 0) m = Some m'
    /\ (queueClosed (pool m') = true
        /\ wg (pool m') = 0
        /\ Forall (fun t => is_worker t = false) (threads m')
        /\ sum_list_with is_helper (threads m') = length (results (pool m'))
        /\ (sum_list_with is_monitor (threads m') + calls_starts []
            = calls_starts demo)%nat
        /\ (sum_list_with is_metrics (threads m') + calls_starts []
            = calls_starts demo)%nat)
    /\ sum_list_with is_helper (threads m') = 1%nat
    /\ sum_list_with is_monitor (threads m') = 1%nat
    /\ sum_list_with is_metrics (threads m') = 1%nat.
Proof.
  eexists _, _. split; [vm_compute; reflexivity|].
  split; [vm_compute; reflexivity|].
  split; [|by vm_compute].
  eapply (Stop_waits_for_workers_only demo run_to_wait _ _ 0 []).
  - vm_compute; reflexivity.
  - vm_compute; reflexivity.
  - vm_compute; reflexivity.
Defined.

(** *** No task is lost *)

Lemma bad_hands_replaced (l l' : list thread) (t t' : thread) :
  replaced l t t' l' ->
  exists others,
    hands l ≡ₚ hand t ++ others /\ hands l' ≡ₚ hand t' ++ others.
Proof.
  intros (l1 & l2 & -> & ->). exists (hands l1 ++ hands l2).
  unfold hands. rewrite !map_app, !concat_app. simpl.
  split; solve_Permutation.
Qed.

Lemma bad_step_tasks (w w' : BadWorker) (t t' : thread) (sp : list thread) :
  thread_step w t = Next w' t' sp ->
  exists new,
    results w' = results w ++ map Process new
    /\ new ++ hand t' ≡ₚ hand t
    /\ hands sp = [].
Proof.
  intros H. step_cases H;
    first [ eexists [_]; split; [reflexivity|]
          | exists []; split; [simpl; by rewrite app_nil_r|] ];
    (split; [|reflexivity]); measure_crush; solve_Permutation.
Qed.

Lemma bad_tasks_kept_step (T : list Task) (m m' : machine) :
  crashed m = None -> transition m m' -> tasks_kept T m -> tasks_kept T m'.
Proof.
  unfold tasks_kept. intros _ Ht (done & Hres & HT).
  destruct Ht as [t f _ _|t w' t' sp l' Hs Hr|t t' l' Hf Hr
                 |s r s' r' l1 l' Hh Hr1 Hr2]; simpl.
  - by exists done.
  - apply bad_step_tasks in Hs as (new & Hres' & Hloc & Hsp).
    apply bad_hands_replaced in Hr as (others & Hl & Hl').
    exists (done ++ new). split.
    { by rewrite Hres', Hres, map_app. }
    rewrite <- HT. unfold hands in *.
    rewrite map_app, concat_app, Hsp, Hl, Hl', <- Hloc. solve_Permutation.
  - apply bad_hands_replaced in Hr as (others & Hl & Hl').
    exists done. split; [done|]. rewrite Hl', <- HT, Hl.
    destruct t; by simplify_eq/=.
  - apply handoff_inv in Hh as (t & ts & rest & id & -> & -> & -> & -> & _).
    apply bad_hands_replaced in Hr1 as (o1 & Hl & Hl1).
    apply bad_hands_replaced in Hr2 as (o2 & Hl1' & Hl').
    exists done. split; [done|]. rewrite <- HT, Hl, Hl'.
    simpl in Hl1'.
    assert (o2 ≡ₚ hand (sending ts rest) ++ o1) as ->
      by (by rewrite <- Hl1', Hl1).
    assert (hand (sending ts rest) = ts ++ calls_tasks rest) as ->
      by (destruct ts; simpl; [apply bad_hand_next|done]).
    simpl. solve_Permutation.
Qed.

Lemma tasks_kept_run (clients : list (list call)) (sched : list event)
    (m : machine) :
  run sched (boot clients) = Some m ->
  tasks_kept (concat (map calls_tasks clients)) m.
Proof.
  intros Hrun. eapply (bad_run_invariant (tasks_kept _)); [|exact Hrun|].
  - intros m1 m2. apply bad_tasks_kept_step.
  - exists []. split; [done|]. simpl. unfold hands. rewrite map_map.
    erewrite map_ext; [done|]. intros c. apply bad_hand_next.
Qed.

Lemma bad_GetResults_results (w : BadWorker) : GetResults w = results w.
Proof.
  unfold GetResults.
  cut (forall l acc : list Result,
         fold_left (fun resultCopy r => resultCopy ++ [r]) l acc = acc ++ l).
  { intros H. by rewrite H. }
  intros l. induction l as [|r l IH]; intros acc; simpl.
  - by rewrite app_nil_r.
  - by rewrite IH, <- app_assoc.
Qed.

Lemma bad_step_closes (w w' : BadWorker) (t t' : thread) (sp : list thread) :
  thread_step w t = Next w' t' sp ->
  (closes_ahead t' + (if queueClosed w' then 1 else 0)
   = closes_ahead t + (if queueClosed w then 1 else 0))%nat
  /\ sum_list_with closes_ahead sp = 0%nat.
Proof.
  intros H. destruct w as [[] r c]; step_cases H; measure_crush; split; lia.
Qed.

Lemma closes_total_run (clients : list (list call)) (sched : list event)
    (m : machine) :
  run sched (boot clients) = Some m ->
  closes_total m = sum_list_with calls_stops clients.
Proof.
  intros Hrun.
  eapply (bad_run_invariant
            (fun m => closes_total m = sum_list_with calls_stops clients));
    [|exact Hrun|].
  - unfold closes_total. intros m1 m2 _ Ht <-.
    destruct Ht as [t f _ _|t w' t' sp l' Hs Hr|t t' l' Hf Hr
                   |s r s' r' l1 l' Hh Hr1 Hr2]; simpl.
    + done.
    + apply bad_step_closes in Hs as [Hs Hsp].
      apply (sum_replaced closes_ahead) in Hr.
      rewrite sum_list_with_app. lia.
    + apply (sum_replaced closes_ahead) in Hr.
      destruct t; simplify_eq/=; lia.
    + apply handoff_inv in Hh as (t & ts & rest & id & -> & -> & -> & -> & _).
      apply (sum_replaced closes_ahead) in Hr1, Hr2.
      assert (closes_ahead (sending ts rest) = calls_stops rest)
        by (destruct ts; simpl; [apply bad_closes_ahead_next|done]).
      simpl in *. lia.
  - clear Hrun. unfold closes_total, boot. simpl. rewrite Nat.add_0_r.
    induction clients as [|c clients IH]; simpl; [done|].
    by rewrite bad_closes_ahead_next, IH.
Qed.

Lemma bad_step_disciplined (w w' : BadWorker) (t t' : thread) (sp : list thread) :
  thread_step w t = Next w' t' sp ->
  disciplined t = true ->
  disciplined t' = true /\ Forall (fun t => disciplined t = true) sp.
Proof.
  intros H Hd.
  step_cases H; (split; [|by repeat constructor]); measure_crush; done.
Qed.

Lemma bad_disciplined_run (clients : list (list call)) (sched : list event)
    (m : machine) :
  Forall (fun c => sends_then_stop c = true) clients ->
  run sched (boot clients) = Some m ->
  Forall (fun t => disciplined t = true) (threads m).
Proof.
  intros Hcl Hrun.
  eapply (bad_run_invariant
            (fun m => Forall (fun t => disciplined t = true) (threads m)));
    [|exact Hrun|].
  - intros m1 m2 _ Ht Hm.
    destruct Ht as [t f _ _|t w' t' sp l' Hs Hr|t t' l' Hf Hr
                   |s r s' r' l1 l' Hh Hr1 Hr2]; simpl.
    + done.
    + pose proof (bad_replaced_old _ _ _ _ _ Hr Hm) as Hold.
      destruct (bad_step_disciplined _ _ _ _ _ Hs Hold) as [Hnew Hsp].
      apply Forall_app. split; [|done]. by eapply bad_Forall_replaced.
    + eapply bad_Forall_replaced; [done|done|]. destruct t; by simplify_eq/=.
    + pose proof (bad_replaced_old _ _ _ _ _ Hr1 Hm) as Hold.
      apply handoff_inv in Hh as (t & ts & rest & id & -> & -> & -> & -> & _).
      eapply bad_Forall_replaced; [done| |done].
      eapply bad_Forall_replaced; [done|done|].
      simpl in Hold. apply andb_true_iff in Hold as [Hs1 Hs2].
      destruct ts; simpl; [by rewrite bad_disciplined_next|].
      by rewrite Hs1, Hs2.
  - clear Hrun. unfold boot. simpl.
    induction Hcl as [|c cl Hc _ IH]; simpl; [constructor|].
    constructor; [by rewrite bad_disciplined_next|done].
Qed.

Lemma sends_then_stop_no_stop (rest : list call) :
  sends_then_stop rest = true -> calls_stops rest = 0%nat ->
  calls_tasks rest = [].
Proof.
  induction rest as [|[n|[|t ts]|] rest IH]; intros Hs Hz; [done|..];
    unfold calls_tasks, calls_stops in *; simpl in *;
    fold (calls_stops rest) in *; fold (calls_tasks rest) in *; auto.
  - apply andb_true_iff in Hs as [Hs _]. apply Nat.ltb_lt in Hs. lia.
  - done.
Qed.

Lemma discipline_no_hand (t : thread) :
  disciplined t = true -> closes_ahead t = 0%nat -> is_worker t = false ->
  hand t = [].
Proof.
  destruct t as [| | | |pc rest|]; try done. intros Hd Hz _.
  destruct pc as [| | | |[|t ts]| |]; simpl in *;
    try (by apply sends_then_stop_no_stop).
  apply andb_true_iff in Hd as [Hd _]. apply Nat.ltb_lt in Hd. lia.
Qed.

Lemma hands_nil (l : list thread) :
  Forall (fun t => hand t = []) l -> hands l = [].
Proof.
  unfold hands. induction 1 as [|t l Ht _ IH]; simpl; [done|].
  by rewrite Ht, IH.
Qed.

(** X22: the bad worker loses no task.  When the clients call [Stop()]
    at most once and every [ProcessTasks] is followed by it in the same
    client, then in every run, when [Stop()] returns, the results are
    exactly the results of the submitted tasks, one for each (in the
    order the workers finished them), and as many helper goroutines are
    still running as tasks were submitted. *)
Theorem Stop_loses_no_task (clients : list (list call))
    (sched : list event) (m m' : machine) (i : nat) (rest : list call) :
  Forall (fun c => sends_then_stop c = true) clients ->
  (sum_list_with calls_stops clients <= 1)%nat ->
  run sched (boot clients) = Some m ->
  threads m !! i = Some (Client StopWait rest) ->
  exec (Run i) m = Some m' ->
  exists done,
    GetResults (pool m') = map Process done
    /\ done ≡ₚ concat (map calls_tasks clients)
    /\ length (GetResults (pool m'))
       = length (concat (map calls_tasks clients))
    /\ sum_list_with is_helper (threads m')
       = length (concat (map calls_tasks clients)).
Proof.
  intros Hcl Hone Hrun Hi Hexec.
  destruct (bad_boot_invariants _ _ _ Hrun) as [Hwg Hstop].
  destruct (bad_Wait_returns _ _ _ _ Hi Hexec) as [Hzero ->].
  rewrite Forall_lookup in Hstop. pose proof (Hstop _ _ Hi) as Hq.
  simpl in Hq. unfold wg_counts in Hwg. rewrite Hzero in Hwg.
  assert (Forall (fun t => is_worker t = false) (threads m)) as Hw.
  { eapply Forall_impl; [apply (sum_zero registered); lia|].
    intros t Ht. by destruct t. }
  pose proof (closes_total_run _ _ _ Hrun) as Htot.
  unfold closes_total in Htot. rewrite Hq in Htot.
  assert (Forall (fun t => closes_ahead t = 0%nat) (threads m)) as Hz
    by (apply sum_zero; lia).
  pose proof (bad_disciplined_run _ _ _ Hcl Hrun) as Hd.
  assert (hands (threads m) = []) as Hh.
  { apply hands_nil. rewrite Forall_forall in *. intros t Ht.
    apply discipline_no_hand; auto. }
  destruct (tasks_kept_run _ _ _ Hrun) as (done & Hres & HT).
  rewrite Hh, app_nil_r in HT.
  pose proof (helpers_run _ _ _ Hrun) as Hhelp.
  rewrite (helper_due_no_worker _ Hw) in Hhelp.
  exists done. simpl. rewrite bad_GetResults_results, Hres, length_map.
  repeat split; try done.
  - by rewrite HT.
  - rewrite <- HT, <- (length_map Process done), <- Hres, <- Hhelp.
    pose proof (sum_replaced is_helper _ _ _ (next rest)
                  (bad_replaced_insert _ _ _ _ Hi)) as Hs.
    assert (is_helper (next rest) = 0%nat) as Hn.
    { clear. induction rest as [|[n|[|t ts]|] rest IH]; cbn [next]; done. }
    simpl in Hs. lia.
Qed.

Lemma Stop_loses_no_task_witness :
  exists m m',
    run run_to_wait (boot [demo]) = Some m
    /\ exec (Run 0) m = Some m'
    /\ exists done,
         GetResults (pool m') = map Process done
         /\ done ≡ₚ concat (map calls_tasks [demo])
         /\ length (GetResults (pool m'))
            = length (concat (map calls_tasks [demo]))
         /\ sum_list_with is_helper (threads m')
            = length (concat (map calls_tasks [demo])).
Proof.
  eexists _, _. split; [vm_compute; reflexivity|].
  split; [vm_compute; reflexivity|].
  eapply (Stop_loses_no_task [demo] run_to_wait _ _ 0 []).
  - repeat constructor.
  - vm_compute. lia.
  - vm_compute; reflexivity.
  - vm_compute; reflexivity.
  - vm_compute; reflexivity.
Defined.

(** *** After Stop *)

(** X23: the bad worker after [Stop()].  In every run, once a call to
    [Stop()] has returned, a later [Stop()] panics at its
    [close(w.taskQueue)], and a later [ProcessTasks] of at least one task
    panics at its send: the send can neither meet a receiver nor return,
    its only step is the panic. *)
Theorem calls_after_Stop_panic (clients : list (list call))
    (sched1 sched2 : list event) (m1 m2 m3 : machine) (i j : nat)
    (rest rest' : list call) (t : Task) (ts : list Task) :
  run sched1 (boot clients) = Some m1 ->
  threads m1 !! i = Some (Client StopWait rest) ->
  exec (Run i) m1 = Some m2 ->
  run sched2 m2 = Some m3 ->
  crashed m3 = None ->
  (threads m3 !! j = Some (Client StopClose rest') ->
   exec (Run j) m3
   = Some (mkMachine (pool m3) (threads m3)
             (Some worker.CloseOfClosedChannel)))
  /\ (threads m3 !! j = Some (Client (Sending (t :: ts)) rest') ->
      exec (Run j) m3
      = Some (mkMachine (pool m3) (threads m3)
                (Some worker.SendOnClosedChannel))
      /\ forall k, exec (Handoff j k) m3 = None).
Proof.
  intros Hrun1 Hi Hret Hrun2 Hok.
  destruct (bad_boot_invariants _ _ _ Hrun1) as [_ Hstop].
  rewrite Forall_lookup in Hstop. pose proof (Hstop _ _ Hi) as Hq1.
  destruct (bad_Wait_returns _ _ _ _ Hi Hret) as [_ ->].
  pose proof (closed_run _ _ _ Hrun2 Hq1) as Hq3.
  split; intros Hj; unfold exec; rewrite Hok, Hj; simpl; rewrite Hq3;
    [done|].
  split; [done|]. intros k.
  destruct (threads m3 !! k) as [[? []| | | | |]|]; done.
Qed.

Lemma calls_after_Stop_panic_witness :
  exists m3,
    run (run_complete ++ [Run 0; Run 0])
      (boot [demo ++ [CallStart 0; CallProcessTasks [t1]]]) = Some m3
    /\ exec (Run 0) m3
       = Some (mkMachine (pool m3) (threads m3)
                 (Some worker.SendOnClosedChannel)).
Proof.
  eexists. split; [vm_compute; reflexivity|].
  refine (proj1 (proj2 (calls_after_Stop_panic
                   [demo ++ [CallStart 0; CallProcessTasks [t1]]]
                   run_to_wait [Run 0; Run 0]
                   _ _ _ 0 0 [CallStart 0; CallProcessTasks [t1]] [] t1 []
                   _ _ _ _ _) _)).
  - vm_compute; reflexivity.
  - vm_compute; reflexivity.
  - vm_compute; reflexivity.
  - vm_compute; reflexivity.
  - vm_compute; reflexivity.
  - vm_compute; reflexivity.
Defined.

(** *** A bad worker without workers *)

Lemma periodic_step_same (w w' : BadWorker) (t t' : thread)
    (sp : list thread) :
  periodic t = true ->
  thread_step w t = Next w' t' sp ->
  w' = w /\ periodic t' = true /\ sp = [].
Proof. intros Hp H. destruct t; try done; step_cases H; done. Qed.

Lemma bad_periodic_no_panic (w : BadWorker) (t : thread) (f : worker.fault) :
  periodic t = true -> thread_step w t <> Panic f.
Proof.
  intros Hp. destruct t as [| ? []| []| []| |]; done.
Qed.

Lemma bad_starving_exec (t : Task) (ts : list Task) (rest : list call)
    (e : event) (m m' : machine) :
  exec e m = Some m' ->
  starving (t :: ts) rest m -> starving (t :: ts) rest m'.
Proof.
  intros He (Hok & Hq & Hres & c & ps & Hth & Hps & Hc).
  unfold exec in He. rewrite Hok, Hth in He.
  destruct e as [[|j]|[|j]|[|j] [|k]]; simpl in He.
  - destruct Hc as [->|[->| ->]]; simpl in He; rewrite ?Hq in He;
      simplify_eq/=; unfold starving; simpl; repeat split; try done;
      eexists _, _; (split; [reflexivity|]);
      (split; [apply Forall_app; split; [done|by repeat constructor]|]);
      auto.
  - destruct (ps !! j) as [p|] eqn:Hj; [|done].
    pose proof (Forall_lookup_1 _ _ _ _ Hps Hj) as Hp.
    destruct (thread_step (pool m) p) as [|f|w' p' sp] eqn:Hs;
      [done|by apply bad_periodic_no_panic in Hs|].
    apply periodic_step_same in Hs as (-> & Hp' & ->); [|done].
    simplify_eq/=. unfold starving; simpl. repeat split; try done.
    eexists _, _. split; [reflexivity|]. rewrite app_nil_r.
    split; [by apply Forall_insert|done].
  - destruct Hc as [->|[->| ->]]; done.
  - destruct (ps !! j) as [p|] eqn:Hj; [|done].
    destruct (fire p) as [p'|] eqn:Hf; simplify_eq/=.
    unfold starving; simpl. repeat split; try done.
    eexists _, _. split; [reflexivity|].
    split; [|done]. apply Forall_insert; [done|].
    destruct p; by simplify_eq/=.
  - destruct Hc as [->|[->| ->]]; done.
  - destruct (ps !! k) as [r|] eqn:Hk; [|done].
    pose proof (Forall_lookup_1 _ _ _ _ Hps Hk) as Hp.
    destruct Hc as [->|[->| ->]]; try done. by destruct r.
  - destruct (ps !! j) as [s|] eqn:Hj; [|done].
    pose proof (Forall_lookup_1 _ _ _ _ Hps Hj) as Hp. by destruct s.
  - destruct (ps !! j) as [s|] eqn:Hj; [|done].
    pose proof (Forall_lookup_1 _ _ _ _ Hps Hj) as Hp.
    destruct (ps !! k); by destruct s.
Qed.

(** X24: the unbuffered queue of the bad worker blocks the caller.  When
    the pool was started with no worker ([numWorkers] zero or negative),
    a [ProcessTasks] with at least one task never sends even its first
    task: in every run the client is still at the end of [Start] or
    blocked at that send, nothing is processed, and the calls after
    [ProcessTasks] are never reached. *)
Theorem no_worker_blocks_ProcessTasks (numWorkers : Z) (t : Task)
    (ts : list Task) (rest : list call) (sched : list event) (m : machine) :
  numWorkers <= 0 ->
  run sched
    (boot [CallStart numWorkers :: CallProcessTasks (t :: ts) :: rest])
  = Some m ->
  results (pool m) = []
  /\ crashed m = None
  /\ ((exists pc,
         threads m !! 0%nat
         = Some (Client pc (CallProcessTasks (t :: ts) :: rest)))
      \/ threads m !! 0%nat = Some (Client (Sending (t :: ts)) rest)).
Proof.
  intros Hn Hrun.
  cut (starving (t :: ts) rest m).
  { intros (Hok & _ & Hres & c & ps & Hth & _ & Hc).
    repeat split; try done. rewrite Hth. simpl.
    destruct Hc as [->|[->| ->]]; eauto. }
  revert m Hrun. induction sched as [|e sched IH] using rev_ind;
    intros m Hrun.
  - simplify_eq/=. unfold starving, boot; simpl. repeat split; try done.
    eexists _, _. split; [reflexivity|]. split; [constructor|].
    left. unfold start_loop. by destruct (Z.ltb_spec 0 numWorkers); [lia|].
  - apply bad_run_snoc in Hrun as (m0 & Hrun0 & He).
    eapply bad_starving_exec; eauto.
Qed.

Lemma no_worker_blocks_ProcessTasks_witness :
  exists m,
    run [Run 0; Run 0; Tick 1; Run 1]
      (boot [[CallStart 0; CallProcessTasks [t1]; CallStop]]) = Some m
    /\ threads m !! 0%nat = Some (Client (Sending [t1]) [CallStop])
    /\ results (pool m) = [].
Proof.
  eexists. split; [vm_compute; reflexivity|]. split; [reflexivity|].
  eapply (no_worker_blocks_ProcessTasks 0 t1 [] [CallStop]
            [Run 0; Run 0; Tick 1; Run 1]).
  - lia.
  - vm_compute; reflexivity.
Defined.

End bad_worker.

(** * Properties of the generated DNA and stats *)

Module usecase_facts.
Import usecase.

Lemma Intn_some (src : source) (n : Z) (k : nat) :
  in_range src -> 0 < n ->
  Intn src n k = Some (src k n, S k) /\ 0 <= src k n < n.
Proof.
  intros Hsrc Hn. unfold Intn.
  destruct (Z.leb_spec n 0); [lia|]. split; [done|by apply Hsrc].
Qed.




Lemma letters_snoc (s : string) (c : ascii) :
  letters_of_base s ->
  (c = "A"%char \/ c = "T"%char \/ c = "C"%char \/ c = "G"%char) ->
  letters_of_base (s +:+ String c "").
Proof.
  intros Hs Hc. induction s as [|a s IH]; simpl in *; [done|].
  destruct Hs as [Ha Hs]. auto.
Qed.

Lemma length_snoc (s : string) (c : ascii) :
  String.length (s +:+ String c "") = S (String.length s).
Proof. induction s as [|a s IH]; simpl; [done|]. by rewrite IH. Qed.

Lemma dna_loop_shape (src : source) (rounds : nat) (dna : string) (k : nat) :
  in_range src ->
  letters_of_base dna ->
  exists dna',
    dna_loop rounds src dna k = Some (dna', (k + rounds)%nat)
    /\ String.length dna' = (String.length dna + rounds)%nat
    /\ letters_of_base dna'.
Proof.
  intros Hsrc. revert dna k.
  induction rounds as [|rounds IH]; intros dna k Hdna; cbn [dna_loop].
  - exists dna. by rewrite !Nat.add_0_r.
  - change (Z.of_nat (String.length dna_base)) with 4.
    destruct (Intn_some src 4 k Hsrc) as [-> Hr]; [lia|].
    cbv beta iota delta [mbind option_bind].
    assert (exists c,
              String.get (Z.to_nat (src k 4)) dna_base = Some c
              /\ (c = "A"%char \/ c = "T"%char \/ c = "C"%char
                  \/ c = "G"%char)) as (c & -> & Hc).
    { assert (src k 4 = 0 \/ src k 4 = 1 \/ src k 4 = 2 \/ src k 4 = 3)
        as [-> | [-> | [-> | ->]]] by lia; eexists; (split; [done|]); auto. }
    destruct (IH _ (S k) (letters_snoc _ _ Hdna Hc)) as (dna' & -> & Hl & Hb).
    exists dna'. rewrite Hl, length_snoc.
    repeat split; [f_equal; f_equal; lia|lia|done].
Qed.

(** X26: [GenerateDNA] never panics: it makes 10000 draws and returns a
    string of exactly 10000 letters, each one of A, T, C and G. *)
Theorem GenerateDNA_shape (src : source) (k : nat) :
  in_range src ->
  exists dna,
    GenerateDNA src k = Some (dna, (k + dna_rounds)%nat)
    /\ Z.of_nat (String.length dna) = 10000
    /\ letters_of_base dna.
Proof.
  intros Hsrc.
  destruct (dna_loop_shape src dna_rounds "" k Hsrc I) as (dna & H & Hl & Hb).
  exists dna. repeat split; try done.
  rewrite Hl. simpl. unfold dna_rounds. lia.
Qed.

Lemma GenerateDNA_shape_witness :
  exists dna,
    GenerateDNA least 0 = Some (dna, (0 + dna_rounds)%nat)
    /\ Z.of_nat (String.length dna) = 10000
    /\ letters_of_base dna.
Proof.
  apply (GenerateDNA_shape least 0). intros k n Hn. unfold least. lia.
Defined.

(** X27: the stats [GeneratePokemon] derives from a generated DNA
    ([GenerateStats] on the result of [GenerateDNA]) are all between 1 and
    5000, and no call to [rand.Intn] panics on the way. *)
Theorem generated_stats_range (src : source) (k : nat) :
  in_range src ->
  exists dna k' st,
    GenerateDNA src k = Some (dna, k')
    /\ GenerateStats src dna k' = Some (st, (k' + 7)%nat)
    /\ stats_within 1 5000 st.
Proof.
  intros Hsrc.
  destruct (dna_loop_shape src dna_rounds "" k Hsrc I) as (dna & H & Hl & _).
  assert (Z.of_nat (String.length dna) = 10000) as Hlen
    by (rewrite Hl; simpl; unfold dna_rounds; lia).
  assert (stats_base dna = 5000) as Hbase
    by (unfold stats_base; by rewrite Hlen).
  assert (0 < stats_base dna) as Hpos by lia.
  exists dna, (k + dna_rounds)%nat.
  unfold GenerateStats.
  repeat match goal with
    | |- context [Intn src (stats_base dna) ?j] =>
        let H := fresh "Hi" in
        let R := fresh "Hr" in
        destruct (Intn_some src (stats_base dna) j Hsrc Hpos) as [H R];
        rewrite H; clear H; simpl
    end.
  eexists. split; [exact H|]. split; [repeat f_equal; lia|].
  unfold stats_within. simpl. lia.
Qed.

Lemma generated_stats_range_witness :
  exists dna k' st,
    GenerateDNA least 0 = Some (dna, k')
    /\ GenerateStats least dna k' = Some (st, (k' + 7)%nat)
    /\ stats_within 1 5000 st.
Proof.
  apply (generated_stats_range least 0). intros k n Hn. unfold least. lia.
Defined.

End usecase_facts.
